(** * Coordination primitives of the ChromiumIDE extension

    A shallow embedding of [common/common_util.ts] (the [JobManager],
    [Mutex] and [CacheOnSuccess] classes, the [exec] wrapper, the
    searches for the chroot and the Git directory, and [withTempDir]),
    of the [Ebuild] class of the compilation-database service, and of
    code around them: [execInChroot], [ChrootService],
    [Packages.fromFilepath] and [CrosfleetRunner].

    The classes are written for the single-threaded JavaScript event
    loop.  Each class is embedded as a state machine whose transitions
    are the synchronous stretches of code between two suspension
    points: a method call runs up to its first [await]; a later event
    (the awaited promise settles, a [setImmediate] callback fires, the
    child process emits an event) runs the continuation.  Jobs are
    [async] functions: calling one runs the start of its body and hands
    back a promise whose settlement the event loop delivers later.  A
    job that throws before it returns a promise behaves like one whose
    promise is rejected at once: its settlement is the next event. *)

From Stdlib Require Import Ascii String.
From stdpp Require Import base option list gmap strings pretty.

(** ** Promises *)

(** The two ways an awaited job ends: [return v] or [throw e]. *)
Inductive outcome (T Err : Type) : Type :=
  | Returned (v : T)
  | Threw (e : Err).
Arguments Returned {T Err} v.
Arguments Threw {T Err} e.

(** A promise store maps the promises that have settled to their
    outcome; a promise absent from the store is pending.  Calling
    [resolve] or [reject] on a settled promise changes nothing. *)
Definition settle {T Err} (p : nat) (o : outcome T Err)
    (ps : gmap nat (outcome T Err)) : gmap nat (outcome T Err) :=
  match ps !! p with
  | Some _ => ps
  | None => <[p := o]> ps
  end.

(** ** Mutex *)

Module Mutex.
Section Mutex.
Context {Job T Err : Type}.

(** [JobQueueItem]: the job and the [resolve]/[reject] pair of the
    promise that [runExclusive] returned; the pair is named by the
    promise it settles. *)
Record JobQueueItem : Type := {
  job : Job;
  promise : nat;
}.

(** What a job body does is visible as a trace. *)
Inductive event : Type :=
  | Started (task : JobQueueItem)
  | Finished (task : JobQueueItem) (o : outcome T Err).

(** The object ([queue], [running]) together with the parts of the
    event loop its methods touch: the suspended [handle] frame with
    its local [task], the [setImmediate] callbacks not yet run, and
    the promises handed to callers. *)
Record state : Type := {
  queue : list JobQueueItem;
  running : bool;
  awaiting : option JobQueueItem;
  immediates : list (nat * outcome T Err);
  promises : gmap nat (outcome T Err);
  allocated : nat;
  trace : list event;
}.

Definition init : state :=
  {| queue := []; running := false; awaiting := None; immediates := [];
     promises := ∅; allocated := 0; trace := [] |}.

(** [handle], up to [await task.job()]. *)
Definition handle (s : state) : state :=
  if running s || bool_decide (length (queue s) = 0) then s
  else
    match queue s with
    | [] => s
    | task :: rest =>
        {| queue := rest; running := true; awaiting := Some task;
           immediates := immediates s; promises := promises s;
           allocated := allocated s;
           trace := trace s ++ [Started task] |}
    end.

(** [runExclusive]: create the promise, push the item, call [handle].
    Returns the promise given to the caller. *)
Definition runExclusive (j : Job) (s : state) : nat * state :=
  let p := allocated s in
  (p, handle
        {| queue := queue s ++ [{| job := j; promise := p |}];
           running := running s; awaiting := awaiting s;
           immediates := immediates s; promises := promises s;
           allocated := S p; trace := trace s |}).

(** The rest of [handle], run when the awaited job settles: the
    [try] or [catch] arm schedules the settlement of the caller's
    promise with [setImmediate], and [finally] clears [running] and
    calls [handle] again. *)
Definition resume (o : outcome T Err) (s : state) : state :=
  match awaiting s with
  | None => s
  | Some task =>
      handle
        {| queue := queue s; running := false; awaiting := None;
           immediates := immediates s ++ [(promise task, o)];
           promises := promises s; allocated := allocated s;
           trace := trace s ++ [Finished task o] |}
  end.

(** The oldest [setImmediate] callback runs: [task.resolve(value)] or
    [task.reject(e)]. *)
Definition runImmediate (s : state) : state :=
  match immediates s with
  | [] => s
  | (p, o) :: rest =>
      {| queue := queue s; running := running s; awaiting := awaiting s;
         immediates := rest; promises := settle p o (promises s);
         allocated := allocated s; trace := trace s |}
  end.

(** What the environment can do to a mutex. *)
Inductive input : Type :=
  | RunExclusive (j : Job)
  | JobSettles (o : outcome T Err)
  | Immediate.

Definition step (s : state) (i : input) : state :=
  match i with
  | RunExclusive j => (runExclusive j s).2
  | JobSettles o => resume o s
  | Immediate => runImmediate s
  end.

Definition run (ins : list input) : state := foldl step init ins.

(** The event loop runs every [setImmediate] callback now pending. *)
Definition flush (s : state) : state :=
  foldl step s (replicate (length (immediates s)) Immediate).

(** *** Observations on traces and inputs *)

(** The jobs handed to [runExclusive], in call order, each with the
    promise its call returned. *)
Fixpoint submitted_from (n : nat) (ins : list input) : list JobQueueItem :=
  match ins with
  | [] => []
  | RunExclusive j :: ins' =>
      {| job := j; promise := n |} :: submitted_from (S n) ins'
  | _ :: ins' => submitted_from n ins'
  end.

Definition submitted (ins : list input) : list JobQueueItem :=
  submitted_from 0 ins.

Fixpoint started (tr : list event) : list JobQueueItem :=
  match tr with
  | [] => []
  | Started t :: tr' => t :: started tr'
  | Finished _ _ :: tr' => started tr'
  end.

(** The bodies that have run to their end, oldest first, each with the
    way it ended. *)
Fixpoint completed (tr : list event) : list (JobQueueItem * outcome T Err) :=
  match tr with
  | [] => []
  | Started _ :: tr' => completed tr'
  | Finished t o :: tr' => (t, o) :: completed tr'
  end.

(** The trace in which the bodies of [done] ran one after the other,
    each to its end before the next started, and the body of [cur], if
    any, has started since. *)
Fixpoint serial_trace (done : list (JobQueueItem * outcome T Err))
    (cur : option JobQueueItem) : list event :=
  match done with
  | [] => match cur with Some t => [Started t] | None => [] end
  | (t, o) :: rest => Started t :: Finished t o :: serial_trace rest cur
  end.

(** The [setImmediate] callback a completed body leaves behind. *)
Definition settlement (c : JobQueueItem * outcome T Err) : nat * outcome T Err :=
  (promise c.1, c.2).

(** What holds of a mutex between any two steps of the event loop;
    [sub] is what has been submitted so far. *)
Record invariant (sub : list JobQueueItem) (s : state) : Prop := {
  inv_running : running s = bool_decide (is_Some (awaiting s));
  inv_idle : running s = false → queue s = [];
  inv_trace : trace s = serial_trace (completed (trace s)) (awaiting s);
  inv_fifo : sub = (completed (trace s)).*1 ++ option_list (awaiting s) ++ queue s;
  inv_allocated : allocated s = length sub;
  inv_promises : promise <$> sub = seq 0 (length sub);
  inv_settled : ∃ n,
    immediates s = drop n (settlement <$> completed (trace s))
    ∧ n ≤ length (completed (trace s))
    ∧ ∀ p o, promises s !! p = Some o
             ↔ (p, o) ∈ take n (settlement <$> completed (trace s));
}.

End Mutex.
End Mutex.

(** ** JobManager *)

Module JobManager.
Section JobManager.
Context {Job T Err : Type}.

(** [Task]: the job with the [resolve]/[reject] pair of the promise
    that [offer] returned.  The promise is a [Promise<T | null>]:
    [Returned None] is resolution with [null]. *)
Record Task : Type := {
  job : Job;
  promise : nat;
}.

Inductive event : Type :=
  | Started (task : Task)
  | Finished (task : Task) (o : outcome T Err).

(** The two suspension points of a started task: [Task.run] waits at
    [await this.job()] while [handle] waits at [await task.run()];
    once the job has settled and [Task.run] has returned, the
    continuation of [handle] is queued but has not run yet. *)
Inductive frame : Type :=
  | AwaitJob (task : Task)
  | AwaitRun.

Record state : Type := {
  tasks : list Task;
  running : bool;
  suspended : option frame;
  promises : gmap nat (outcome (option T) Err);
  allocated : nat;
  trace : list event;
}.

Definition init : state :=
  {| tasks := []; running := false; suspended := None;
     promises := ∅; allocated := 0; trace := [] |}.

(** [Task.cancel]: [this.resolve(null)]. *)
Definition cancel (t : Task) (ps : gmap nat (outcome (option T) Err)) :
    gmap nat (outcome (option T) Err) :=
  settle (promise t) (Returned None) ps.

(** [while (this.tasks.length > 1) this.tasks.shift()!.cancel()]. *)
Fixpoint cancel_old (ts : list Task) (ps : gmap nat (outcome (option T) Err)) :
    list Task * gmap nat (outcome (option T) Err) :=
  match ts with
  | t :: (_ :: _) as rest => cancel_old rest (cancel t ps)
  | _ => (ts, ps)
  end.

(** [Array.prototype.pop]: the last element and the array without
    it, or [None] ([undefined]) on an empty array. *)
Definition pop {A} (l : list A) : option (A * list A) :=
  match reverse l with
  | [] => None
  | x :: r => Some (x, reverse r)
  end.

(** [handle], up to [await task.run()], which itself runs up to
    [await this.job()]. *)
Definition handle (s : state) : state :=
  let '(ts, ps) := cancel_old (tasks s) (promises s) in
  let s1 := {| tasks := ts; running := running s; suspended := suspended s;
               promises := ps; allocated := allocated s; trace := trace s |} in
  if running s then s1
  else
    match pop ts with
    | None => s1
    | Some (task, rest) =>
        {| tasks := rest; running := true; suspended := Some (AwaitJob task);
           promises := ps; allocated := allocated s;
           trace := trace s ++ [Started task] |}
    end.

(** [offer]: create the promise, push the task, call [handle]. *)
Definition offer (j : Job) (s : state) : nat * state :=
  let p := allocated s in
  (p, handle
        {| tasks := tasks s ++ [{| job := j; promise := p |}];
           running := running s; suspended := suspended s;
           promises := promises s; allocated := S p; trace := trace s |}).

(** How [Task.run] settles the promise of a task whose job ended with [o]. *)
Definition lift (o : outcome T Err) : outcome (option T) Err :=
  match o with
  | Returned v => Returned (Some v)
  | Threw e => Threw e
  end.

(** The rest of [Task.run], run when the job settles:
    [this.resolve(value)] or [this.reject(e)]. *)
Definition settled (o : outcome T Err) (s : state) : state :=
  match suspended s with
  | Some (AwaitJob task) =>
      let o' := match o with
                | Returned v => Returned (Some v)
                | Threw e => Threw e
                end in
      {| tasks := tasks s; running := running s; suspended := Some AwaitRun;
         promises := settle (promise task) (lift o) (promises s);
         allocated := allocated s;
         trace := trace s ++ [Finished task o] |}
  | _ => s
  end.

(** The rest of [handle], run once [task.run()] has returned:
    [this.running = false; await this.handle()]. *)
Definition resume (s : state) : state :=
  match suspended s with
  | Some AwaitRun =>
      handle
        {| tasks := tasks s; running := false; suspended := None;
           promises := promises s; allocated := allocated s;
           trace := trace s |}
  | _ => s
  end.

Inductive input : Type :=
  | Offer (j : Job)
  | JobSettles (o : outcome T Err)
  | Resume.

Definition step (s : state) (i : input) : state :=
  match i with
  | Offer j => (offer j s).2
  | JobSettles o => settled o s
  | Resume => resume s
  end.

Definition run (ins : list input) : state := foldl step init ins.

(** The jobs handed to [offer], in call order, each with the promise
    its call returned. *)
Fixpoint offered_from (n : nat) (ins : list input) : list Task :=
  match ins with
  | [] => []
  | Offer j :: ins' => {| job := j; promise := n |} :: offered_from (S n) ins'
  | _ :: ins' => offered_from n ins'
  end.

Definition offered (ins : list input) : list Task := offered_from 0 ins.

Fixpoint started (tr : list event) : list Task :=
  match tr with
  | [] => []
  | Started t :: tr' => t :: started tr'
  | Finished _ _ :: tr' => started tr'
  end.

Fixpoint completed (tr : list event) : list (Task * outcome T Err) :=
  match tr with
  | [] => []
  | Started _ :: tr' => completed tr'
  | Finished t o :: tr' => (t, o) :: completed tr'
  end.

(** As for the mutex: the bodies of [done] one after the other, then
    the start of the body of [cur]. *)
Fixpoint serial_trace (done : list (Task * outcome T Err))
    (cur : option Task) : list event :=
  match done with
  | [] => match cur with Some t => [Started t] | None => [] end
  | (t, o) :: rest => Started t :: Finished t o :: serial_trace rest cur
  end.

(** The task whose body is executing, read off the suspended frame. *)
Definition current (s : state) : option Task :=
  match suspended s with
  | Some (AwaitJob task) => Some task
  | _ => None
  end.

(** *** What holds of the promise store

    [live] are the offered tasks that have started or are still
    queued, [comp] the completed ones.  A promise has settled exactly
    when its task completed (with the outcome of the job) or when its
    task was offered and is not live any more (with [null]). *)
Record store_inv (off live : list Task) (comp : list (Task * outcome T Err))
    (ps : gmap nat (outcome (option T) Err)) : Prop := {
  st_in : ∀ t, t ∈ live → t ∈ off;
  st_nodup : NoDup (promise <$> live);
  st_ids : promise <$> off = seq 0 (length off);
  st_comp : comp.*1 `prefix_of` live;
  st_sound : ∀ p x, ps !! p = Some x →
    (∃ t o, (t, o) ∈ comp ∧ promise t = p ∧ x = lift o)
    ∨ (x = Returned None ∧ p < length off ∧ p ∉ promise <$> live);
  st_done : ∀ t o, (t, o) ∈ comp → ps !! promise t = Some (lift o);
  st_dropped : ∀ p, p < length off → p ∉ promise <$> live →
    ps !! p = Some (Returned None);
}.

(** *** The invariant of a job manager; [off] is what has been
    offered so far. *)
Record invariant (off : list Task) (s : state) : Prop := {
  inv_running : running s = bool_decide (is_Some (suspended s));
  inv_idle : running s = false → tasks s = [];
  inv_pending : length (tasks s) ≤ 1;
  inv_trace : trace s = serial_trace (completed (trace s)) (current s);
  inv_allocated : allocated s = length off;
  inv_latest : tasks s `suffix_of` off;
  inv_store : store_inv off (started (trace s) ++ tasks s)
                (completed (trace s)) (promises s);
}.

End JobManager.
End JobManager.

(** ** CacheOnSuccess *)

Module CacheOnSuccess.
Section CacheOnSuccess.
Context {T Err : Type}.

(** [truthy v]: whether [if (v)] takes the branch for a value of the
    result type. *)
Context (truthy : T → bool).

(** What one call of [getOrThrow] hands back: the promise of an
    [async] function that returned [this.value], that returned
    [this.promise] (and so follows it), or that is suspended at
    [await this.promise] and will return or rethrow what the promise
    gives. *)
Inductive returned : Type :=
  | Value (v : T)
  | Shares (p : nat)
  | Awaits (p : nat).

(** The cell ([value], [promise]) with the job promises made so far
    ([invoked] of them, the settled ones in [jobs]), the suspended
    [getOrThrow] frames and what each call returned. *)
Record state : Type := {
  value : option T;
  promise : option nat;
  jobs : gmap nat (outcome T Err);
  invoked : nat;
  frames : list nat;
  calls : list returned;
}.

Definition init : state :=
  {| value := None; promise := None; jobs := ∅; invoked := 0;
     frames := []; calls := [] |}.

(** [getOrThrow], up to [await this.promise]. *)
Definition getOrThrow (s : state) : state :=
  match value s with
  | Some v =>
      if truthy v then
        {| value := value s; promise := promise s; jobs := jobs s;
           invoked := invoked s; frames := frames s;
           calls := calls s ++ [Value v] |}
      else
        match promise s with
        | Some p =>
            {| value := value s; promise := promise s; jobs := jobs s;
               invoked := invoked s; frames := frames s;
               calls := calls s ++ [Shares p] |}
        | None =>
            let p := invoked s in
            {| value := value s; promise := Some p; jobs := jobs s;
               invoked := S p; frames := frames s ++ [p];
               calls := calls s ++ [Awaits p] |}
        end
  | None =>
      match promise s with
      | Some p =>
          {| value := value s; promise := promise s; jobs := jobs s;
             invoked := invoked s; frames := frames s;
             calls := calls s ++ [Shares p] |}
      | None =>
          let p := invoked s in
          {| value := value s; promise := Some p; jobs := jobs s;
             invoked := S p; frames := frames s ++ [p];
             calls := calls s ++ [Awaits p] |}
      end
  end.

(** The job promise [p] settles. *)
Definition jobSettles (p : nat) (o : outcome T Err) (s : state) : state :=
  if decide (p < invoked s) then
    {| value := value s; promise := promise s;
       jobs := settle p o (jobs s); invoked := invoked s;
       frames := frames s; calls := calls s |}
  else s.

Fixpoint remove_first (p : nat) (l : list nat) : list nat :=
  match l with
  | [] => []
  | q :: l' => if decide (p = q) then l' else q :: remove_first p l'
  end.

(** The rest of [getOrThrow] for the frame awaiting [p]:
    [this.value = ...; return this.value], or the [catch] arm. *)
Definition resume (p : nat) (s : state) : state :=
  if bool_decide (p ∈ frames s) then
    match jobs s !! p with
    | Some (Returned v) =>
        {| value := Some v; promise := promise s; jobs := jobs s;
           invoked := invoked s; frames := remove_first p (frames s);
           calls := calls s |}
    | Some (Threw e) =>
        {| value := None; promise := None; jobs := jobs s;
           invoked := invoked s; frames := remove_first p (frames s);
           calls := calls s |}
    | None => s
    end
  else s.

Inductive input : Type :=
  | GetOrThrow
  | JobSettles (p : nat) (o : outcome T Err)
  | Resume (p : nat).

Definition step (s : state) (i : input) : state :=
  match i with
  | GetOrThrow => getOrThrow s
  | JobSettles p o => jobSettles p o s
  | Resume p => resume p s
  end.

Definition run_from (s : state) (ins : list input) : state := foldl step s ins.
Definition run (ins : list input) : state := run_from init ins.

(** How the promise handed to a caller has settled, if it has. *)
Definition result (s : state) (r : returned) : option (outcome T Err) :=
  match r with
  | Value v => Some (Returned v)
  | Shares p => jobs s !! p
  | Awaits p => if bool_decide (p ∈ frames s) then None else jobs s !! p
  end.

(** What holds of a cell between any two steps: every job promise
    older than the remembered one was rejected; the remembered one is
    the latest, and either the frame that made it still waits for it
    or it was fulfilled and its value is cached. *)
Definition invariant (s : state) : Prop :=
  (∀ q, is_Some (jobs s !! q) → q < invoked s)
  ∧ match promise s with
    | None =>
        value s = None ∧ frames s = []
        ∧ ∀ q, q < invoked s → ∃ e, jobs s !! q = Some (Threw e)
    | Some p =>
        invoked s = S p
        ∧ (∀ q, q < p → ∃ e, jobs s !! q = Some (Threw e))
        ∧ ((frames s = [p] ∧ value s = None)
           ∨ (frames s = [] ∧ ∃ v, jobs s !! p = Some (Returned v)
                                   ∧ value s = Some v))
    end.

(** The state of a cell whose job promise [p] was fulfilled with [v]. *)
Definition sticky (p : nat) (v : T) (s : state) : Prop :=
  promise s = Some p ∧ jobs s !! p = Some (Returned v)
  ∧ (value s = None ∨ value s = Some v)
  ∧ ∀ q, q ∈ frames s → q = p.

(** The state of a cell whose first job promise was fulfilled with a
    falsy [v] and whose first frame has resumed. *)
Definition cached_falsy (v : T) (s : state) : Prop :=
  value s = Some v ∧ promise s = Some 0 ∧ jobs s !! 0 = Some (Returned v)
  ∧ frames s = [] ∧ invoked s = 1
  ∧ ∃ new, calls s = Awaits 0 :: new ∧ ∀ r, r ∈ new → r = Shares 0.

End CacheOnSuccess.
End CacheOnSuccess.

(** ** exec *)

Module Exec.

Definition newline : ascii := "010"%char.
Definition nl : string := String newline EmptyString.

(** The one-character string made of a double quote. *)
Definition quote : string := String (ascii_of_nat 34) EmptyString.

(** [lastChar]: the empty string it starts as, a character, or the
    [undefined] that [data[data.length - 1]] gives on empty data. *)
Inductive LastChar : Type :=
  | Empty
  | Undefined
  | Char (c : ascii).

Fixpoint last_of (data : string) : LastChar :=
  match data with
  | EmptyString => Undefined
  | String c EmptyString => Char c
  | String _ rest => last_of rest
  end.

(** [lastChar !== '' && lastChar !== '\n'] *)
Definition needs_newline (c : LastChar) : bool :=
  match c with
  | Empty => false
  | Undefined => true
  | Char c => negb (bool_decide (c = newline))
  end.

Record ExecResult : Type := {
  exitStatus : option Z;
  stdout : string;
  stderr : string;
}.

Record ExecOptions : Type := {
  logger : bool;                        (* whether a logger is given *)
  logStdout : option bool;
  ignoreNonZeroExit : option bool;
  pipeStdin : option string;
  cancellationToken : option bool;      (* [isCancellationRequested] at the call *)
  treeKillWhenCancelling : option bool;
  cwd : option string;
  env : option (list (string * string));
}.

(** Truthiness of an optional boolean. *)
Definition is_set (b : option bool) : bool := default false b.

Inductive ExecError : Type :=
  | AbnormalExitError (message : string) (exitStatus : option Z)
      (stdout stderr : string)
  | ProcessError (message : string)
  | CancelledError (message : string).

Inductive promise_state (A : Type) : Type :=
  | Pending
  | Fulfilled (a : A)
  | Rejected (reason : string).
Arguments Pending {A}.
Arguments Fulfilled {A} a.
Arguments Rejected {A} reason.

(** [`${exitStatus}`] *)
Definition show_status (st : option Z) : string :=
  match st with
  | Some z => pretty z
  | None => "null"
  end.

Section Exec.
(** [shutil.escapeArray], whose source is not part of this development. *)
Context (escapeArray : list string → string).

Definition quoted (name : string) (args : list string) : string :=
  quote +:+ escapeArray (name :: args) +:+ quote.

Definition mkAbnormalExitError (cmd : string) (args : list string)
    (st : option Z) (out err : string) : ExecError :=
  AbnormalExitError
    (quoted cmd args +:+ " failed, exit status: " +:+ show_status st)
    st out err.

Definition mkProcessError (cmd : string) (args : list string)
    (cause : string) : ExecError :=
  ProcessError (quoted cmd args +:+ " failed: " +:+ cause).

Definition mkCancelledError (cmd : string) (args : list string) : ExecError :=
  CancelledError (quoted cmd args +:+ " cancelled").

(** The closure of the promise executor of [realExec]: its local
    variables, the promise, what was given to the logger, and the
    calls made on the child process. *)
Record state : Type := {
  out : string;
  err : string;
  lastChar : LastChar;
  logged : list string;
  result : promise_state (ExecResult + ExecError);
  pid : option nat;
  stdin : option string;
  listening : bool;
  kills : nat;
  treeKills : nat;
}.

Definition append (chunk : string) (s : state) : state :=
  {| out := out s; err := err s; lastChar := lastChar s;
     logged := logged s ++ [chunk]; result := result s; pid := pid s;
     stdin := stdin s; listening := listening s; kills := kills s;
     treeKills := treeKills s |}.

(** [resolve(v)]: only the first call settles the promise. *)
Definition resolve (v : ExecResult + ExecError) (s : state) : state :=
  match result s with
  | Pending =>
      {| out := out s; err := err s; lastChar := lastChar s;
         logged := logged s; result := Fulfilled v; pid := pid s;
         stdin := stdin s; listening := listening s; kills := kills s;
         treeKills := treeKills s |}
  | _ => s
  end.

Definition kill (s : state) : state :=
  {| out := out s; err := err s; lastChar := lastChar s;
     logged := logged s; result := result s; pid := pid s;
     stdin := stdin s; listening := listening s; kills := S (kills s);
     treeKills := treeKills s |}.

(** [cancel], given [command.exitCode] as it is at that moment. *)
Definition cancel (name : string) (args : list string) (o : ExecOptions)
    (exitCode : option Z) (s : state) : state :=
  if negb (bool_decide (treeKillWhenCancelling o = Some true))
     || bool_decide (pid s = None)
     || negb (bool_decide (exitCode = None))
  then resolve (inr (mkCancelledError name args)) (kill s)
  else
    {| out := out s; err := err s; lastChar := lastChar s;
       logged := logged s; result := result s; pid := pid s;
       stdin := stdin s; listening := listening s; kills := kills s;
       treeKills := S (treeKills s) |}.

(** The promise executor when each of its calls returns: log the
    command line, spawn (the child has process id [child_pid], or
    none), pipe stdin, register the handlers, and look at the
    cancellation token. *)
Definition executor (name : string) (args : list string) (o : ExecOptions)
    (child_pid : option nat) (exitCode : option Z) : state :=
  let s0 := {| out := EmptyString; err := EmptyString; lastChar := Empty;
               logged := if logger o
                         then [escapeArray (name :: args) +:+ nl] else [];
               result := Pending; pid := child_pid;
               stdin := match pipeStdin o with
                        | Some EmptyString => None
                        | other => other
                        end;
               listening := false; kills := 0; treeKills := 0 |} in
  match cancellationToken o with
  | None => s0
  | Some true => cancel name args o exitCode s0
  | Some false =>
      {| out := out s0; err := err s0; lastChar := lastChar s0;
         logged := logged s0; result := result s0; pid := pid s0;
         stdin := stdin s0; listening := true; kills := kills s0;
         treeKills := treeKills s0 |}
  end.

(** How the synchronous run of the promise executor goes.  The calls
    it makes into the logger and into Node are not part of this
    development.  Either all of them return, [childProcess.spawn] with
    a child that has process id [child_pid], or none, and exit code
    [exitCode]; or one of them throws before any handler is registered:
    [logger.append], [childProcess.spawn] (as it does on an empty
    [name] or on an argument list that is too long), or the first call
    on the streams of a child that has none. *)
Inductive executor_run : Type :=
  | Spawned (child_pid : option nat) (exitCode : option Z)
  | Throws (error : string).

(** [realExec]: [new Promise(executor)].  An executor that throws
    rejects the promise with what it threw; nothing was written to the
    child and no handler listens. *)
Definition realExec (name : string) (args : list string) (o : ExecOptions)
    (run : executor_run) : state :=
  match run with
  | Spawned child_pid exitCode => executor name args o child_pid exitCode
  | Throws error =>
      {| out := EmptyString; err := EmptyString; lastChar := Empty;
         logged := if logger o
                   then [escapeArray (name :: args) +:+ nl] else [];
         result := Rejected error; pid := None; stdin := None;
         listening := false; kills := 0; treeKills := 0 |}
  end.

(** What the child process and the cancellation token can emit. *)
Inductive input : Type :=
  | StdoutData (data : string)
  | StderrData (data : string)
  | Close (exitStatus : option Z)
  | Error (message : string)
  | CancellationRequested (exitCode : option Z)
  | TreeKillDone (failed : bool).

Definition set_output (o e : string) (c : LastChar) (s : state) : state :=
  {| out := o; err := e; lastChar := c;
     logged := logged s; result := result s; pid := pid s;
     stdin := stdin s; listening := listening s; kills := kills s;
     treeKills := treeKills s |}.

Definition flush (o : ExecOptions) (s : state) : state :=
  if logger o && needs_newline (lastChar s) then append nl s else s.

Definition step (name : string) (args : list string) (o : ExecOptions)
    (s : state) (i : input) : state :=
  match i with
  | StdoutData data =>
      if logger o && is_set (logStdout o) then
        set_output (out s +:+ data) (err s) (last_of data) (append data s)
      else set_output (out s +:+ data) (err s) (lastChar s) s
  | StderrData data =>
      if logger o then
        set_output (out s) (err s +:+ data) (last_of data) (append data s)
      else set_output (out s) (err s +:+ data) (lastChar s) s
  | Close st =>
      let s1 := flush o s in
      let s2 := if negb (is_set (ignoreNonZeroExit o))
                   && negb (bool_decide (st = Some 0%Z))
                then resolve (inr (mkAbnormalExitError name args st
                                     (out s1) (err s1))) s1
                else s1 in
      resolve (inl {| exitStatus := st; stdout := out s2; stderr := err s2 |}) s2
  | Error message =>
      resolve (inr (mkProcessError name args message)) (flush o s)
  | CancellationRequested exitCode =>
      if listening s then cancel name args o exitCode s else s
  | TreeKillDone failed =>
      match treeKills s with
      | 0 => s
      | S n =>
          let s1 := {| out := out s; err := err s; lastChar := lastChar s;
                       logged := logged s; result := result s; pid := pid s;
                       stdin := stdin s; listening := listening s;
                       kills := kills s; treeKills := n |} in
          resolve (inr (mkCancelledError name args))
                  (if failed then kill s1 else s1)
      end
  end.

(** A call of [exec] whose child was spawned, after the events [ins]. *)
Definition exec (name : string) (args : list string) (o : ExecOptions)
    (child_pid : option nat) (exitCode : option Z) (ins : list input) : state :=
  foldl (step name args o) (realExec name args o (Spawned child_pid exitCode)) ins.

(** The events by which the child hands over what it wrote. *)
Definition is_data (i : input) : bool :=
  match i with
  | StdoutData _ | StderrData _ => true
  | _ => false
  end.

(** All that was given to the logger, in one piece. *)
Definition log_text (s : state) : string := foldr String.append EmptyString (logged s).

(** What the child wrote to its standard output, and to its standard
    error, over a sequence of events. *)
Fixpoint stdout_of (ins : list input) : string :=
  match ins with
  | [] => EmptyString
  | StdoutData data :: rest => data +:+ stdout_of rest
  | _ :: rest => stdout_of rest
  end.

Fixpoint stderr_of (ins : list input) : string :=
  match ins with
  | [] => EmptyString
  | StderrData data :: rest => data +:+ stderr_of rest
  | _ :: rest => stderr_of rest
  end.

End Exec.

(** Used in examples in place of [shutil.escapeArray]: the words
    joined by spaces, none of them quoted. *)
Definition join_words (words : list string) : string := String.concat " " words.

(** The options of the test that logs both streams. *)
Definition logging_options : ExecOptions :=
  {| logger := true; logStdout := Some true; ignoreNonZeroExit := None;
     pipeStdin := None; cancellationToken := None;
     treeKillWhenCancelling := None; cwd := None; env := None |}.

(** [execOrThrow], given the promise of [exec]: [await] waits while
    the promise is pending and throws the reason of a rejected one; a
    value that is an [Error] is thrown, any other is returned. *)
Definition execOrThrow (p : promise_state (ExecResult + ExecError)) :
    option (outcome ExecResult (ExecError + string)) :=
  match p with
  | Pending => None
  | Fulfilled (inr e) => Some (Threw (inl e))
  | Fulfilled (inl res) => Some (Returned res)
  | Rejected reason => Some (Threw (inr reason))
  end.

Fixpoint last_char (s : string) : option ascii :=
  match s with
  | EmptyString => None
  | String c EmptyString => Some c
  | String _ rest => last_char rest
  end.

Definition ends_with_newline (s : string) : bool :=
  bool_decide (last_char s = Some newline).

(** A promise keeps its state or goes from pending to fulfilled. *)
Definition same_or_fulfilled (r r' : promise_state (ExecResult + ExecError)) : Prop :=
  r' = r ∨ (r = Pending ∧ ∃ v, r' = Fulfilled v).

(** [lastChar] is faithful to the log up to trailing newlines: the log
    ends with the character recorded, or with a newline. *)
Definition log_ok (s : state) : Prop :=
  match lastChar s with
  | Empty => last_char (log_text s) = Some newline
  | Undefined => True
  | Char c =>
      last_char (log_text s) = Some c ∨ last_char (log_text s) = Some newline
  end.

End Exec.

(** ** Built-ins of JavaScript used by the compilation-database code *)

Module JsDate.

(** [Date.prototype.toString] for a process in the UTC time zone; a
    date is the number of milliseconds since the epoch. *)

Definition weekday_name (n : Z) : string :=
  match n with
  | 0 => "Sun" | 1 => "Mon" | 2 => "Tue" | 3 => "Wed"
  | 4 => "Thu" | 5 => "Fri" | _ => "Sat"
  end%Z.

Definition month_name (n : Z) : string :=
  match n with
  | 1 => "Jan" | 2 => "Feb" | 3 => "Mar" | 4 => "Apr" | 5 => "May"
  | 6 => "Jun" | 7 => "Jul" | 8 => "Aug" | 9 => "Sep" | 10 => "Oct"
  | 11 => "Nov" | _ => "Dec"
  end%Z.

(** Year, month and day of the day that lies [days] days after
    1970-01-01, in the proleptic Gregorian calendar. *)
Definition civil_from_days (days : Z) : Z * Z * Z :=
  let z := (days + 719468)%Z in
  let era := (z / 146097)%Z in
  let doe := (z - era * 146097)%Z in
  let yoe := ((doe - doe / 1460 + doe / 36524 - doe / 146096) / 365)%Z in
  let doy := (doe - (365 * yoe + yoe / 4 - yoe / 100))%Z in
  let mp := ((5 * doy + 2) / 153)%Z in
  let d := (doy - (153 * mp + 2) / 5 + 1)%Z in
  let m := (if mp <? 10 then mp + 3 else mp - 9)%Z in
  let y := (yoe + era * 400 + (if m <=? 2 then 1 else 0))%Z in
  (y, m, d).

Definition pad2 (n : Z) : string :=
  if (n <? 10)%Z then "0" +:+ pretty n else pretty n.

Definition pad4 (n : Z) : string :=
  if (n <? 10)%Z then "000" +:+ pretty n
  else if (n <? 100)%Z then "00" +:+ pretty n
  else if (n <? 1000)%Z then "0" +:+ pretty n
  else pretty n.

Definition toString (ms : Z) : string :=
  let secs := (ms / 1000)%Z in
  let days := (secs / 86400)%Z in
  let sod := (secs mod 86400)%Z in
  let '(y, m, d) := civil_from_days days in
  weekday_name ((days + 4) mod 7) +:+ " " +:+ month_name m +:+ " "
  +:+ pad2 d +:+ " " +:+ pad4 y +:+ " "
  +:+ pad2 (sod / 3600) +:+ ":" +:+ pad2 (sod mod 3600 / 60) +:+ ":"
  +:+ pad2 (sod mod 60) +:+ " GMT+0000 (Coordinated Universal Time)".

End JsDate.

Module JsArray.
Section Sort.
Context {A : Type}.

(** [Array.prototype.sort] called without a comparison function: the
    elements are ordered by their string forms ([toString]), compared
    by code units, and elements with equal string forms keep their
    order.  [Array.prototype.pop] then takes the last one. *)
Context (toString : A → string).

Fixpoint insert (x : A) (sorted : list A) : list A :=
  match sorted with
  | [] => [x]
  | y :: rest =>
      if String.ltb (toString x) (toString y) then x :: y :: rest
      else y :: insert x rest
  end.

Definition sort (l : list A) : list A :=
  foldl (λ sorted x, insert x sorted) [] l.

End Sort.
End JsArray.

(** ** Ebuild (compilation-database generation) *)

Module Ebuild.

(** The two filesystem roots of [CrosFs]: [crosFs.chroot], [crosFs.out]. *)
Inductive Root : Type :=
  | Chroot
  | Out.

(** [Artifact]: base directory and path relative to it. *)
Record Artifact : Type := {
  baseDir : string;
  path : string;
}.

(** Modelled from the spec: the [CompdbError] class of [./error], whose
    source is missing.  A typed error with a [kind] discriminant
    (cache-removal failure, build-run failure), carrying the fields
    that the constructor calls of [Ebuild] pass: the cache file and the
    underlying error. *)
Inductive CompdbError (Reason : Type) : Type :=
  | RemoveCache (cache : string) (reason : Reason)
  | RunEbuild (reason : Reason).
Arguments RemoveCache {Reason} cache reason.
Arguments RunEbuild {Reason} reason.

(** What [removeCache] does to the outside. *)
Inductive effect : Type :=
  | AppendLine (line : string)
  | Rm (fs : Root) (file : string).

Section Ebuild.
(** [BoardOrHost] with its [toString] and [sysroot] methods, and
    [path.join], come from modules outside this development. *)
Context {BoardOrHost : Type}.
Context (toString : BoardOrHost → string) (sysroot : BoardOrHost → string).
Context (join : list string → string).

(** Errors of the filesystem layer, and [rm fs file]: the error that
    [fs.rm(file, {force: true})] throws, if it throws. *)
Context {Reason : Type}.
Context (rm : Root → string → option Reason).

(** The fields of an [Ebuild] that the modelled methods read;
    [source_root] is [crosFs.source.root]. *)
Record Ebuild : Type := {
  board : BoardOrHost;
  qualifiedPackageName : string;
  source_root : string;
  useFlags : list string;
}.

(** The key computed by [mutex()]. *)
Definition key (e : Ebuild) : string :=
  toString (board e) +:+ ":" +:+ qualifiedPackageName e +:+ ":" +:+ source_root e.

Abbreviation mutex_state :=
  (@Mutex.state Ebuild (option Artifact) (CompdbError Reason)).

(** [Ebuild.globalMutexMap] and the [Mutex] objects it refers to; a
    reference is an index into [heap]. *)
Record system : Type := {
  globalMutexMap : gmap string nat;
  heap : list mutex_state;
}.

Definition start : system := {| globalMutexMap := ∅; heap := [] |}.

(** [mutex()]: look the key up, or make a mutex and register it. *)
Definition mutex (e : Ebuild) (sys : system) : nat * system :=
  match globalMutexMap sys !! key e with
  | Some existing => (existing, sys)
  | None =>
      let m := length (heap sys) in
      (m, {| globalMutexMap := <[key e := m]> (globalMutexMap sys);
             heap := heap sys ++ [Mutex.init] |})
  end.

(** [generate()]: [this.mutex().runExclusive(body)].  The body is the
    closure over [this], so the ebuild stands for it.  Returns the
    mutex used and the promise of [runExclusive]. *)
Definition generate (e : Ebuild) (sys : system) : option (nat * nat) * system :=
  let '(m, sys1) := mutex e sys in
  match heap sys1 !! m with
  | Some st =>
      let '(p, st') := Mutex.runExclusive e st in
      (Some (m, p),
       {| globalMutexMap := globalMutexMap sys1;
          heap := <[m := st']> (heap sys1) |})
  | None => (None, sys1)
  end.

Inductive input : Type :=
  | Generate (e : Ebuild)
  | BodySettles (m : nat) (o : outcome (option Artifact) (CompdbError Reason))
  | Immediate (m : nat).

Definition step (sys : system) (i : input) : system :=
  match i with
  | Generate e => (generate e sys).2
  | BodySettles m o =>
      {| globalMutexMap := globalMutexMap sys;
         heap := alter (Mutex.resume o) m (heap sys) |}
  | Immediate m =>
      {| globalMutexMap := globalMutexMap sys;
         heap := alter Mutex.runImmediate m (heap sys) |}
  end.

Definition run (ins : list input) : system := foldl step start ins.

(** The generate bodies executing in a system: for each mutex, the
    job its suspended [handle] frame awaits. *)
Definition executing_bodies (sys : system) : list (nat * Ebuild) :=
  omap (λ x, (λ t, (x.1, Mutex.job t)) <$> Mutex.awaiting x.2)
       (imap (λ i st, (i, st)) (heap sys)).

(** What holds of the registry and the mutexes it refers to: every
    reference is valid; no two keys share a mutex; every mutex is
    registered under a key, has been driven only through its own
    methods, and has only been given jobs of that key. *)
Record sys_inv (sys : system) : Prop := {
  si_bound : ∀ k m, globalMutexMap sys !! k = Some m → m < length (heap sys);
  si_inj : ∀ k1 k2 m,
    globalMutexMap sys !! k1 = Some m → globalMutexMap sys !! k2 = Some m →
    k1 = k2;
  si_heap : ∀ m (st : mutex_state), heap sys !! m = Some st →
    ∃ k (mins : list (@Mutex.input Ebuild (option Artifact) (CompdbError Reason))),
      globalMutexMap sys !! k = Some m ∧ st = Mutex.run mins
      ∧ ∀ t, t ∈ Mutex.submitted mins → key (Mutex.job t) = k;
}.

(** *** removeCache *)

Definition portageBuildDir (e : Ebuild) : string :=
  join [sysroot (board e); "tmp/portage"; qualifiedPackageName e +:+ "-9999"].

Definition buildDirs (e : Ebuild) : list string :=
  [ join [sysroot (board e); "var/cache/portage"; qualifiedPackageName e];
    join [portageBuildDir e; "work"; "build"];
    join [portageBuildDir e] ].

(** The [try] block for one root: the effects it has, and the error
    its [catch] arm builds if a removal throws. *)
Definition remove_markers (fs : Root) (dir : string) :
    list effect * option (CompdbError Reason) :=
  let cache := join [dir; ".configured"] in
  let eff := [AppendLine ("Removing cache file " +:+ cache); Rm fs cache] in
  match rm fs cache with
  | Some e => (eff, Some (RemoveCache cache e))
  | None =>
      let cache := join [dir; ".compiled"] in
      let eff := eff ++ [AppendLine ("Removing cache file " +:+ cache); Rm fs cache] in
      match rm fs cache with
      | Some e => (eff, Some (RemoveCache cache e))
      | None => (eff, None)
      end
  end.

(** The loop variables [firstError] and [hasRemovedCache]. *)
Record vars : Type := {
  effects : list effect;
  firstError : option (CompdbError Reason);
  hasRemovedCache : bool;
}.

(** One iteration of [for (const fs of [this.crosFs.chroot, this.crosFs.out])]. *)
Definition through_root (dir : string) (v : vars) (fs : Root) : vars :=
  match remove_markers fs dir with
  | (eff, None) =>
      {| effects := effects v ++ eff; firstError := firstError v;
         hasRemovedCache := true |}
  | (eff, Some error) =>
      {| effects := effects v ++ eff; firstError := Some error;
         hasRemovedCache := hasRemovedCache v |}
  end.

(** One iteration of [for (const dir of this.buildDirs())]: the
    effects, and what is thrown if the iteration throws
    ([Some None] is [throw undefined]). *)
Definition remove_dir (dir : string) :
    list effect * option (option (CompdbError Reason)) :=
  let v := foldl (through_root dir)
             {| effects := []; firstError := None; hasRemovedCache := false |}
             [Chroot; Out] in
  (effects v, if hasRemovedCache v then None else Some (firstError v)).

Fixpoint remove_dirs (dirs : list string) :
    list effect * option (option (CompdbError Reason)) :=
  match dirs with
  | [] => ([], None)
  | dir :: rest =>
      match remove_dir dir with
      | (eff, Some thrown) => (eff, Some thrown)
      | (eff, None) =>
          let '(eff', r) := remove_dirs rest in (eff ++ eff', r)
      end
  end.

Definition removeCache (e : Ebuild) :
    list effect * option (option (CompdbError Reason)) :=
  remove_dirs (buildDirs e).

(** *** artifactPath *)

(** [stat fs file]: the modification time that [fs.stat(file)] reports,
    in milliseconds since the epoch, or [None] if it throws;
    [root fs] is [fs.root]. *)
Context (stat : Root → string → option Z).
Context (root : Root → string).

(** The string form of a candidate [[stat.mtime, {path, baseDir}]]: an
    array of a date and a plain object. *)
Definition candidate_string (c : Z * Artifact) : string :=
  JsDate.toString c.1 +:+ ",[object Object]".

(** The candidates that the inner loop pushes for one build directory. *)
Definition candidates_in (dir : string) : list (Z * Artifact) :=
  let file := join [dir; "out/Default/compile_commands_no_chroot.json"] in
  omap (λ fs, (λ mtime, (mtime, {| baseDir := root fs; path := file |}))
                <$> stat fs file)
       [Chroot; Out].

Definition candidates (e : Ebuild) : list (Z * Artifact) :=
  mjoin (candidates_in <$> buildDirs e).

Definition artifactPath (e : Ebuild) : option Artifact :=
  if bool_decide (length (candidates e) = 0) then None
  else snd <$> last (JsArray.sort candidate_string (candidates e)).

(** The removal errors met while going through the roots for [dir],
    in the order they are met. *)
Definition removal_errors (dir : string) : list (CompdbError Reason) :=
  omap (λ fs, (remove_markers fs dir).2) [Chroot; Out].

End Ebuild.

(** Whether a character occurs in a string. *)
Fixpoint contains (c : ascii) (s : string) : bool :=
  match s with
  | EmptyString => false
  | String x rest => bool_decide (x = c) || contains c rest
  end.

(** How often a character occurs in a string. *)
Fixpoint occurrences (c : ascii) (s : string) : nat :=
  match s with
  | EmptyString => 0
  | String x rest => (if bool_decide (x = c) then 1 else 0) + occurrences c rest
  end.

Definition is_absolute (p : string) : bool :=
  match p with
  | String c _ => bool_decide (c = "/"%char)
  | EmptyString => false
  end.

(** The ebuilds that [generate] is called on: the board string is a
    board name or [host] and holds no colon; the qualified package
    name is [category/name], the two parts that [ebuild9999] takes
    from [split('/')], with one slash; and the source root is an
    absolute path. *)
Definition well_formed {BoardOrHost : Type} (toString : BoardOrHost → string)
    (e : @Ebuild BoardOrHost) : bool :=
  negb (contains ":" (toString (board e)))
  && bool_decide (occurrences "/" (qualifiedPackageName e) = 1)
  && is_absolute (source_root e).

(** *** A concrete environment for examples

    Boards named by strings, with the sysroot [/build/<board>];
    [path.join] on segments that need no normalisation; and a
    filesystem on which a root rejects every removal with a fixed
    error, or none does. *)
Definition board_sysroot (b : string) : string := "/build/" +:+ b.

Definition join_segments (segments : list string) : string :=
  String.concat "/" segments.

Definition failing_rm (chroot_error out_error : option string)
    (fs : Root) (file : string) : option string :=
  match fs with
  | Chroot => chroot_error
  | Out => out_error
  end.

(** The roots of a checkout in [/home/user/chromiumos]. *)
Definition checkout_root (fs : Root) : string :=
  match fs with
  | Chroot => "/home/user/chromiumos/chroot"
  | Out => "/home/user/chromiumos/out"
  end.

(** A filesystem with two artifacts, both seen through the chroot: one
    in the incremental build directory, written on Thursday 5 November
    2026 at noon, and one in the work directory, written the day
    before. *)
Definition thursday_noon : Z := 1793880000000.
Definition wednesday_noon : Z := 1793793600000.

Definition incremental_artifact : string :=
  "/build/betty/var/cache/portage/chromeos-base/codelab/out/Default/compile_commands_no_chroot.json".

Definition work_artifact : string :=
  "/build/betty/tmp/portage/chromeos-base/codelab-9999/work/build/out/Default/compile_commands_no_chroot.json".

Definition two_artifacts (fs : Root) (file : string) : option Z :=
  match fs with
  | Chroot =>
      if bool_decide (file = incremental_artifact) then Some thursday_noon
      else if bool_decide (file = work_artifact) then Some wednesday_noon
      else None
  | Out => None
  end.

Definition codelab_on_betty : @Ebuild string :=
  {| board := "betty"; qualifiedPackageName := "chromeos-base/codelab";
     source_root := "/home/user/chromiumos"; useFlags := [] |}.

(** Two ebuilds that differ in package name and in source root; the
    package name of the second has two slashes. *)
Definition colon_in_root : @Ebuild string :=
  {| board := "betty"; qualifiedPackageName := "chromeos-base/a";
     source_root := "/b:/c"; useFlags := [] |}.

Definition colon_in_package : @Ebuild string :=
  {| board := "betty"; qualifiedPackageName := "chromeos-base/a:/b";
     source_root := "/c"; useFlags := [] |}.
End Ebuild.

(** ** The body of [Ebuild.generate] *)

Module Generate.
Import Ebuild.

(** [String.prototype.split] with a separator of one character. *)
Fixpoint split (sep : ascii) (s : string) : list string :=
  match s with
  | EmptyString => [EmptyString]
  | String c rest =>
      if bool_decide (c = sep) then EmptyString :: split sep rest
      else
        match split sep rest with
        | [] => [String c EmptyString]
        | word :: words => String c word :: words
        end
  end.

(** A value in a template literal: [undefined] prints as its name. *)
Definition interpolate (v : option string) : string := default "undefined" v.

(** What the body does to the outside: the effects of [removeCache],
    and the commands handed to [sudo.execSudo]. *)
Inductive call : Type :=
  | Removal (e : effect)
  | ExecSudo (command : string) (args : list string).

(** The commands among the calls, each with its arguments. *)
Definition commands (calls : list call) : list (string * list string) :=
  omap (λ c, match c with
             | ExecSudo command args => Some (command, args)
             | Removal _ => None
             end) calls.

Section Generate.
(** [BoardOrHost] with its methods, [path.join], the filesystem layer
    and [String.prototype.trim] come from outside this development. *)
Context {BoardOrHost : Type}.
Context (sysroot : BoardOrHost → string).
Context (suffixedExecutable : BoardOrHost → string → string).
Context (join : list string → string).
Context {Reason : Type}.
Context (rm : Root → string → option Reason).
Context (stat : Root → string → option Z) (root : Root → string).
Context (trim : string → string).

(** [buildGet9999EbuildCommand], with the two fields of [pkg]. *)
Definition buildGet9999EbuildCommand (board : BoardOrHost)
    (category name : option string) : list string :=
  [ "env"; "ACCEPT_KEYWORDS=~*"; suffixedExecutable board "equery"; "which";
    "=" +:+ interpolate category +:+ "/" +:+ interpolate name +:+ "-9999" ].

(** [execInChroot]: the command line given to [sudo.execSudo];
    [crosSdkWorkingDir] is used if it is set and not empty. *)
Definition execInChroot (source name : string) (args : list string)
    (crosSdkWorkingDir : option string) : call :=
  let crosSdk := join [source; "chromite/bin/cros_sdk"] in
  let crosSdkArgs :=
    match crosSdkWorkingDir with
    | None | Some EmptyString => []
    | Some dir => ["--working-dir"; dir]
    end in
  ExecSudo crosSdk (crosSdkArgs ++ "--" :: name :: args).

(** [ebuild9999], given what the command run in the chroot results in. *)
Definition ebuild9999 (e : @Ebuild BoardOrHost) (found : Exec.ExecResult + Reason) :
    list call * outcome string Reason :=
  let category := split "/" (qualifiedPackageName e) !! 0 in
  let name := split "/" (qualifiedPackageName e) !! 1 in
  let args := buildGet9999EbuildCommand (board e) category name in
  (match args with
   | [] => []
   | command :: rest => [execInChroot (source_root e) command rest None]
   end,
   match found with
   | inr error => Threw error
   | inl result => Returned (trim (Exec.stdout result))
   end).

(** [runCompgen]: the argument array is built first, which awaits
    [ebuild9999]; [built] is what the build command results in. *)
Definition runCompgen (e : @Ebuild BoardOrHost)
    (found built : Exec.ExecResult + Reason) : list call * outcome () Reason :=
  match ebuild9999 e found with
  | (calls, Threw error) => (calls, Threw error)
  | (calls, Returned ebuild) =>
      (calls ++
       [execInChroot (source_root e) "env"
          [ "USE=" +:+ String.concat " " (useFlags e);
            suffixedExecutable (board e) "ebuild"; ebuild; "clean"; "compile" ]
          None],
       match built with
       | inr error => Threw error
       | inl _ => Returned ()
       end)
  end.

(** The job that [generate] hands to [runExclusive].  What is thrown
    is an optional error, since [removeCache] throws a variable that
    may hold [undefined]. *)
Definition body (e : @Ebuild BoardOrHost)
    (found built : Exec.ExecResult + Reason) :
    list call * outcome (option Artifact) (option (CompdbError Reason)) :=
  match removeCache sysroot join rm e with
  | (effects, Some thrown) => (Removal <$> effects, Threw thrown)
  | (effects, None) =>
      match runCompgen e found built with
      | (calls, Threw error) =>
          ((Removal <$> effects) ++ calls, Threw (Some (RunEbuild error)))
      | (calls, Returned _) =>
          ((Removal <$> effects) ++ calls,
           Returned (artifactPath sysroot join stat root e))
      end
  end.

End Generate.

(** An environment for examples: the executable of a board carries the
    board as a suffix. *)
Definition board_executable (b name : string) : string := name +:+ "-" +:+ b.

End Generate.

(** ** Paths: chroot, source and Git directories *)

Module Paths.

(** An absolute, normalised path, as the list of its segments below
    the root; the empty list is [/].  [path.join(dir, name)] adds
    segments at the end. *)
Definition Path : Type := list string.

(** [path.dirname]: the root is its own parent. *)
Definition dirname (p : Path) : Path := take (length p - 1) p.

(** [sourceDir] and [crosOutDir]. *)
Definition sourceDir (chroot : Path) : Path := dirname chroot.
Definition crosOutDir (source : Path) : Path := source ++ ["out"].

Section Paths.
(** [fs.existsSync], and [fs.statSync(p).isFile()] for a path that
    exists. *)
Context (existsSync : Path → bool) (isFile : Path → bool).

Definition isChroot (dir : Path) : bool :=
  existsSync (dir ++ ["etc"; "cros_chroot_version"]).

Definition isInsideChroot : bool := isChroot [].

(** The loop of [findChroot], run for at most [fuel] rounds: [None] if
    they do not suffice, else what is returned ([Some None] is
    [undefined]). *)
Fixpoint findChroot_loop (fuel : nat) (dir : Path) : option (option Path) :=
  match fuel with
  | 0 => None
  | S fuel =>
      let chroot := dir ++ ["chroot"] in
      if isChroot chroot then Some (Some chroot)
      else
        let d := dirname dir in
        if bool_decide (d = dir) then Some None
        else findChroot_loop fuel d
  end.

(** One round for the directory and one for each of its ancestors. *)
Definition findChroot (dir : Path) : option (option Path) :=
  findChroot_loop (S (length dir)) dir.

Fixpoint findGitDir_loop (fuel : nat) (dir : Path) : option (option Path) :=
  match fuel with
  | 0 => None
  | S fuel =>
      if negb (existsSync (dir ++ [".git"])) then
        let parent := dirname dir in
        if bool_decide (parent = dir) then Some None
        else findGitDir_loop fuel parent
      else Some (Some dir)
  end.

(** The directory at which [findGitDir] starts. *)
Definition start_dir (filePath : Path) : Path :=
  if negb (existsSync filePath) then dirname filePath
  else if isFile filePath then dirname filePath
  else filePath.

Definition findGitDir (filePath : Path) : option (option Path) :=
  findGitDir_loop (S (length filePath)) (start_dir filePath).

(** [CrosFs]: the roots of the three accessors of a [ChrootService]. *)
Record CrosFs : Type := {
  chroot : Path;
  source : Path;
  out : Path;
}.

(** [ChrootService.maybeCreate], with the [crosFs] of the service
    made: the constructor throws if [chrootPath] does not exist, and
    [maybeCreate] then returns [undefined]. *)
Definition maybeCreate (root : Path) : option CrosFs :=
  let chrootPath := root ++ ["chroot"] in
  if negb (existsSync chrootPath) then None
  else Some {| chroot := chrootPath; source := root; out := root ++ ["out"] |}.

End Paths.

(** A checkout in [/home/user/chromiumos] with its chroot, with a Git
    repository in [src/platform2], and with the file
    [src/platform2/codelab/main.cc]. *)
Definition checkout : list Path :=
  [ ["home"; "user"; "chromiumos"; "chroot"; "etc"; "cros_chroot_version"];
    ["home"; "user"; "chromiumos"; "src"; "platform2"; ".git"];
    ["home"; "user"; "chromiumos"; "src"; "platform2"; "codelab"];
    ["home"; "user"; "chromiumos"; "src"; "platform2"; "codelab"; "main.cc"] ].

Definition in_checkout (p : Path) : bool := bool_decide (p ∈ checkout).

Definition file_in_checkout (p : Path) : bool :=
  bool_decide
    (p = ["home"; "user"; "chromiumos"; "src"; "platform2"; "codelab"; "main.cc"]).

End Paths.

(** ** withTempDir *)

Module TempDir.

(** What [withTempDir] does to the outside. *)
Inductive call : Type :=
  | Mkdtemp (prefix : string)
  | Run (tempDir : string)
  | RmRecursive (tempDir : string).

Section TempDir.
Context {Err : Type}.
(** [os.tmpdir()], and how [fs.promises.mkdtemp], [f] and
    [fs.promises.rm] end. *)
Context (tmpdir : string).
Context (mkdtemp : string → outcome string Err).
Context (f : string → outcome () Err).
Context (rm : string → outcome () Err).

(** The [try] block: the calls made, the variable [td], and how the
    block ends. *)
Definition try_block : list call * option string * outcome () Err :=
  let prefix := tmpdir +:+ "/" in
  match mkdtemp prefix with
  | Threw e => ([Mkdtemp prefix], None, Threw e)
  | Returned td => ([Mkdtemp prefix; Run td], Some td, f td)
  end.

(** [withTempDir]: the [finally] block runs however the [try] block
    ended, and an error it throws replaces the outcome of the [try]
    block. *)
Definition withTempDir : list call * outcome () Err :=
  let '(calls, td, ended) := try_block in
  match td with
  | None | Some EmptyString => (calls, ended)
  | Some td =>
      (calls ++ [RmRecursive td],
       match rm td with
       | Threw e => Threw e
       | Returned _ => ended
       end)
  end.

End TempDir.
End TempDir.

(** ** Packages: the package that compiles a file *)

Module Packages.
Import Paths.

(** A relative path as [path.relative] and [path.dirname] give it:
    [.], or a list of segments, which is empty for the empty string. *)
Inductive RelPath : Type :=
  | Dot
  | Rel (segments : list string).

(** [path.dirname] on a relative path. *)
Definition rel_dirname (p : RelPath) : RelPath :=
  match p with
  | Dot => Dot
  | Rel [] | Rel [_] => Dot
  | Rel segments => Rel (dirname segments)
  end.

(** [path.relative] of two absolute paths: what the two share is
    dropped, and [..] climbs out of what is left of [from]. *)
Fixpoint relative (from to : Path) : list string :=
  match from, to with
  | [], _ => to
  | _ :: _, [] => replicate (length from) ".."
  | f :: from', t :: to' =>
      if bool_decide (f = t) then relative from' to'
      else replicate (length from) ".." ++ to
  end.

(** [relPath.startsWith('..')]. *)
Definition startsWithDotDot (relPath : list string) : bool :=
  match relPath with
  | [] => false
  | segment :: _ => String.prefix ".." segment
  end.

Section Packages.
Context (existsSync : Path → bool).
(** [PackageInfo], and [this.mapping] once it is generated, keyed by
    source directories relative to the source root. *)
Context {PackageInfo : Type}.
Context (mapping : gmap (list string) PackageInfo).

(** The [while] loop of [fromFilepath], for at most [fuel] rounds;
    [Some None] is the [null] returned after the loop. *)
Fixpoint lookup_loop (fuel : nat) (relPath : RelPath) :
    option (option PackageInfo) :=
  match fuel with
  | 0 => None
  | S fuel =>
      match relPath with
      | Dot => Some None
      | Rel segments =>
          match mapping !! segments with
          | Some info => Some (Some info)
          | None => lookup_loop fuel (rel_dirname relPath)
          end
      end
  end.

(** [fromFilepath], from the point where the mapping is generated and
    [realpath] is known; [path.isAbsolute] is false of what
    [path.relative] gives. *)
Definition fromFilepath (realpath : Path) : option (option PackageInfo) :=
  match findChroot existsSync realpath with
  | None => None
  | Some None => Some None
  | Some (Some chroot) =>
      let sourcePath := sourceDir chroot in
      let relPath := relative sourcePath realpath in
      if startsWithDotDot relPath then Some None
      else lookup_loop (2 + length relPath) (Rel relPath)
  end.

End Packages.
End Packages.

(** ** CrosfleetRunner *)

Module Crosfleet.
Import Exec.

(** The options that [CrosfleetRunner.exec] gives to [commonUtil.exec]:
    the output channel as logger, and the token of the caller. *)
Definition exec_options (token : option bool) : ExecOptions :=
  {| logger := true; logStdout := None; ignoreNonZeroExit := None;
     pipeStdin := None; cancellationToken := token;
     treeKillWhenCancelling := None; cwd := None; env := None |}.

(** [checkLogin], from the result of [crosfleet whoami]. *)
Definition checkLogin (result : ExecResult + ExecError) : outcome bool ExecError :=
  match result with
  | inr (AbnormalExitError _ _ _ _) => Returned false
  | inr error => Threw error
  | inl _ => Returned true
  end.

(** The part of the output of [crosfleet dut leases -json] that
    [parseLeases] reads, after [JSON.parse]; an absent field is
    [None]. *)
Record Dimension : Type := {
  key : string;
  value : string;
}.

Record Build : Type := {
  startTime : option string;
  lease_length_minutes : option Z;
  botDimensions : option (list Dimension);
}.

Record Lease : Type := {
  Hostname : option string;
  build : option Build;
}.

(** A [Date]: milliseconds since the epoch, or [None] for an invalid
    date. *)
Definition Date : Type := option Z.

Record LeaseInfo : Type := {
  hostname : string;
  board : option string;
  model : option string;
  deadline : option Date;
}.

(** [dateFns.add(date, {minutes})] and [dateFns.isBefore]. *)
Definition add_minutes (date : Date) (minutes : Z) : Date :=
  (λ ms, ms + minutes * 60000)%Z <$> date.

Definition isBefore (date dateToCompare : Date) : bool :=
  match date, dateToCompare with
  | Some a, Some b => bool_decide (a < b)%Z
  | _, _ => false
  end.

(** [new Map(pairs).get(name)]: of two pairs with the same key the
    later one counts. *)
Definition dimension (name : string) (dimensions : list Dimension) : option string :=
  value <$> last (filter (λ d, key d = name) dimensions).

Section Crosfleet.
(** [new Date(string)], and the time at which [parseLeases] runs. *)
Context (parseDate : string → Date) (now : Z).

(** The body of the loop of [parseLeases]: the lease to push, or
    [None] where the loop goes on to the next one. *)
Definition parseLease (l : Lease) : option LeaseInfo :=
  match Hostname l with
  | None | Some EmptyString => None
  | Some hostname =>
      let timing :=
        match build l with
        | Some b =>
            match startTime b, lease_length_minutes b with
            | Some start, Some minutes => Some (add_minutes (parseDate start) minutes)
            | _, _ => None
            end
        | None => None
        end in
      if match timing with
         | Some deadline => isBefore deadline (Some now)
         | None => false
         end
      then None
      else
        let botDimensions := default [] (build l ≫= botDimensions) in
        Some {| hostname := hostname;
                board := dimension "label-board" botDimensions;
                model := dimension "label-model" botDimensions;
                deadline := timing |}
  end.

(** [parseLeases], from the parsed output on. *)
Definition parseLeases (Leases : option (list Lease)) : list LeaseInfo :=
  match Leases with
  | None => []
  | Some leases => omap parseLease leases
  end.

End Crosfleet.
End Crosfleet.

(** ** StatusManager: the status of background tasks *)

Module Status.

Inductive TaskStatus : Type :=
  | OK
  | ERROR
  | RUNNING.

#[global] Instance TaskStatus_eq_dec : EqDecision TaskStatus.
Proof. solve_decision. Defined.

Definition getIcon (ts : TaskStatus) : string :=
  match ts with
  | OK => "check"
  | ERROR => "error"
  | RUNNING => "sync~spin"
  end.

(** The two status bar items, as far as [StatusBarHandler] sets them;
    [errorBackground] is whether [backgroundColor] is the error
    colour, [progressShown] whether the progress item is shown. *)
Record StatusBar : Type := {
  text : string;
  errorBackground : bool;
  tooltip : string;
  progressText : string;
  progressShown : bool;
}.

Section Status.
(** [vscode.Command] and [vscode.OutputChannel]. *)
Context {Command OutputChannel : Type}.

Record TaskData : Type := {
  status : TaskStatus;
  command : option Command;
  outputChannel : option OutputChannel;
  contextValue : option string;
}.

(** [Map<TaskName, TaskData>]: the entries in insertion order. *)
Abbreviation Tasks := (list (string * TaskData)).

(** [Map.prototype.set]: an entry that exists keeps its place. *)
Fixpoint map_set (taskName : string) (taskData : TaskData) (tasks : Tasks) : Tasks :=
  match tasks with
  | [] => [(taskName, taskData)]
  | (name, data) :: rest =>
      if decide (name = taskName) then (taskName, taskData) :: rest
      else (name, data) :: map_set taskName taskData rest
  end.

Fixpoint map_get (taskName : string) (tasks : Tasks) : option TaskData :=
  match tasks with
  | [] => None
  | (name, data) :: rest =>
      if decide (name = taskName) then Some data else map_get taskName rest
  end.

Definition map_delete (taskName : string) (tasks : Tasks) : Tasks :=
  filter (λ entry, entry.1 ≠ taskName) tasks.

(** The private method [get]: the names of the tasks with the status. *)
Definition get (ts : TaskStatus) (tasks : Tasks) : list string :=
  (filter (λ entry, status entry.2 = ts) tasks).*1.

Definition getErrorTasks (tasks : Tasks) : list string := get ERROR tasks.
Definition getRunningTasks (tasks : Tasks) : list string := get RUNNING tasks.
Definition getTasks (tasks : Tasks) : list string := tasks.*1.
Definition getTaskData (taskName : string) (tasks : Tasks) : option TaskData :=
  map_get taskName tasks.

(** [names.sort().join(', ')] *)
Definition sorted_list (names : list string) : string :=
  String.concat ", " (JsArray.sort id names).

(** [StatusBarHandler.refresh] *)
Definition refresh (tasks : Tasks) (bar : StatusBar) : StatusBar :=
  let errorTasks := getErrorTasks tasks in
  let bar :=
    if bool_decide (length errorTasks ≠ 0) then
      {| text := "$(" +:+ getIcon ERROR +:+ ") ChromiumIDE";
         errorBackground := true;
         tooltip := "Errors: " +:+ sorted_list errorTasks;
         progressText := progressText bar;
         progressShown := progressShown bar |}
    else
      {| text := "$(" +:+ getIcon OK +:+ ") ChromiumIDE";
         errorBackground := false;
         tooltip := "No Problems";
         progressText := progressText bar;
         progressShown := progressShown bar |} in
  let runningTasks := getRunningTasks tasks in
  if bool_decide (length runningTasks ≠ 0) then
    {| text := text bar; errorBackground := errorBackground bar;
       tooltip := tooltip bar;
       progressText := "$(" +:+ getIcon RUNNING +:+ ") Running "
                       +:+ sorted_list runningTasks +:+ "...";
       progressShown := true |}
  else
    {| text := text bar; errorBackground := errorBackground bar;
       tooltip := tooltip bar; progressText := progressText bar;
       progressShown := false |}.

(** What the change handlers act on: the status bar, and the number
    of [onDidChangeTreeData] events fired by [StatusTreeData]. *)
Record Ui : Type := {
  bar : StatusBar;
  treeEvents : nat;
}.

(** A [ChangeHandler] reads the tasks of the manager it is given. *)
Definition ChangeHandler : Type := Tasks → Ui → Ui.

Definition statusBarHandler : ChangeHandler :=
  λ tasks ui, {| bar := refresh tasks (bar ui); treeEvents := treeEvents ui |}.

Definition statusTreeData : ChangeHandler :=
  λ tasks ui, {| bar := bar ui; treeEvents := S (treeEvents ui) |}.

(** [StatusManagerImpl], with the user interface its handlers act on. *)
Record StatusManagerImpl : Type := {
  tasks : Tasks;
  handlers : list ChangeHandler;
  ui : Ui;
}.

Definition handleChange (m : StatusManagerImpl) : StatusManagerImpl :=
  {| tasks := tasks m; handlers := handlers m;
     ui := foldl (λ ui handler, handler (tasks m) ui) (ui m) (handlers m) |}.

Definition setTask (taskName : string) (taskData : TaskData)
    (m : StatusManagerImpl) : StatusManagerImpl :=
  handleChange {| tasks := map_set taskName taskData (tasks m);
                  handlers := handlers m; ui := ui m |}.

Definition deleteTask (taskName : string) (m : StatusManagerImpl) :
    StatusManagerImpl :=
  handleChange {| tasks := map_delete taskName (tasks m);
                  handlers := handlers m; ui := ui m |}.

(** [setStatus]: [{...data, status}], where [data] may be [undefined]. *)
Definition setStatus (taskName : string) (ts : TaskStatus)
    (m : StatusManagerImpl) : StatusManagerImpl :=
  let data := map_get taskName (tasks m) in
  setTask taskName
    {| status := ts; command := data ≫= command;
       outputChannel := data ≫= outputChannel;
       contextValue := data ≫= contextValue |} m.

Definition onChange (handler : ChangeHandler) (m : StatusManagerImpl) :
    StatusManagerImpl :=
  {| tasks := tasks m; handlers := handlers m ++ [handler];
     ui := handler (tasks m) (ui m) |}.

(** [activate]: the manager with the two handlers registered, on a
    status bar whose items are as created. *)
Definition activate (created : StatusBar) : StatusManagerImpl :=
  onChange statusTreeData
    (onChange statusBarHandler
       {| tasks := []; handlers := [];
          ui := {| bar := created; treeEvents := 0 |} |}).

(** The calls that the features make on the manager. *)
Inductive call : Type :=
  | SetTask (taskName : string) (taskData : TaskData)
  | DeleteTask (taskName : string)
  | SetStatus (taskName : string) (ts : TaskStatus).

Definition step (m : StatusManagerImpl) (c : call) : StatusManagerImpl :=
  match c with
  | SetTask taskName taskData => setTask taskName taskData m
  | DeleteTask taskName => deleteTask taskName m
  | SetStatus taskName ts => setStatus taskName ts m
  end.

Definition run (created : StatusBar) (calls : list call) : StatusManagerImpl :=
  foldl step (activate created) calls.

End Status.
End Status.

(** * Properties *)

(** ** Promise stores *)

Lemma settle_lookup_ne {T Err} (p q : nat) (o : outcome T Err) ps :
  p ≠ q → settle p o ps !! q = ps !! q.
Proof.
  intros Hne. unfold settle. destruct (ps !! p); [done|].
  by rewrite lookup_insert_ne.
Qed.

Lemma settle_lookup_fresh {T Err} (p : nat) (o : outcome T Err) ps :
  ps !! p = None → settle p o ps !! p = Some o.
Proof. intros Hp. unfold settle. rewrite Hp. apply lookup_insert_eq. Qed.

Lemma settle_lookup_settled {T Err} (p : nat) (o o' : outcome T Err) ps :
  ps !! p = Some o' → settle p o ps = ps.
Proof. intros Hp. unfold settle. by rewrite Hp. Qed.

(** ** Mutex *)

Module MutexFacts.
Import Mutex.
Section MutexFacts.
Context {Job T Err : Type}.
Implicit Types (s : @state Job T Err) (t : @JobQueueItem Job).
Implicit Types (ins : list (@input Job T Err)) (o : outcome T Err).

Lemma mutex_run_snoc ins i : run (ins ++ [i]) = step (run ins) i.
Proof. unfold run. by rewrite foldl_snoc. Qed.

Lemma mutex_run_app ins ins' : run (ins ++ ins') = foldl step (run ins) ins'.
Proof. unfold run. by rewrite foldl_app. Qed.

Lemma submitted_from_length n ins :
  ∀ j, submitted_from n (ins ++ [RunExclusive j])
       = submitted_from n ins
           ++ [{| job := j; promise := n + length (submitted_from n ins) |}].
Proof.
  revert n. induction ins as [|i ins IH]; intros n j; simpl.
  - by rewrite Nat.add_0_r.
  - destruct i; simpl; rewrite IH; [|done..].
    by rewrite Nat.add_succ_r.
Qed.

Lemma submitted_snoc_run ins j :
  submitted (ins ++ [RunExclusive j])
  = submitted ins ++ [{| job := j; promise := length (submitted ins) |}].
Proof. unfold submitted. by rewrite submitted_from_length. Qed.

Lemma submitted_from_snoc_other n ins i :
  (∀ j, i ≠ RunExclusive j) →
  submitted_from n (ins ++ [i]) = submitted_from n ins.
Proof.
  intros Hi. revert n. induction ins as [|i' ins IH]; intros n; simpl.
  - destruct i as [j| |]; [by exfalso; apply (Hi j)|done..].
  - destruct i'; by rewrite IH.
Qed.

Lemma submitted_from_promises n ins :
  promise <$> submitted_from n ins = seq n (length (submitted_from n ins)).
Proof.
  revert n. induction ins as [|i ins IH]; intros n; simpl; [done|].
  destruct i; simpl; by rewrite ?IH.
Qed.

Lemma mutex_completed_app (tr tr' : list (@event Job T Err)) :
  completed (tr ++ tr') = completed tr ++ completed tr'.
Proof.
  induction tr as [|[t|t o] tr IH]; simpl; [done|done|by rewrite IH].
Qed.

Lemma mutex_serial_trace_start (done : list (@JobQueueItem Job * outcome T Err)) t :
  serial_trace done None ++ [Started t] = serial_trace done (Some t).
Proof. induction done as [|[t' o] done IH]; simpl; [done|by rewrite IH]. Qed.

Lemma mutex_serial_trace_finish (done : list (@JobQueueItem Job * outcome T Err)) t o :
  serial_trace done (Some t) ++ [Finished t o]
  = serial_trace (done ++ [(t, o)]) None.
Proof. induction done as [|[t' o'] done IH]; simpl; [done|by rewrite IH]. Qed.

Lemma mutex_invariant_init : invariant [] (@init Job T Err).
Proof.
  split; simpl; try done.
  exists 0. split; [done|]. split; [done|]. intros p o.
  rewrite lookup_empty. split; [done|]. by intros ?%elem_of_nil.
Qed.

(** [handle] on a mutex that is not running starts the oldest queued
    job; on one that is running, or has nothing queued, it does
    nothing. *)
Lemma handle_running s : running s = true → handle s = s.
Proof. intros H. unfold handle. by rewrite H. Qed.

Lemma handle_empty s : queue s = [] → handle s = s.
Proof. intros H. unfold handle. rewrite H. by destruct (running s). Qed.

Lemma handle_start s t rest :
  running s = false → queue s = t :: rest →
  handle s = {| queue := rest; running := true; awaiting := Some t;
                immediates := immediates s; promises := promises s;
                allocated := allocated s; trace := trace s ++ [Started t] |}.
Proof. intros Hr Hq. unfold handle. by rewrite Hr, Hq. Qed.

Lemma handle_idle_invariant sub s :
  running s = false → awaiting s = None →
  trace s = serial_trace (completed (trace s)) None →
  sub = (completed (trace s)).*1 ++ queue s →
  allocated s = length sub →
  promise <$> sub = seq 0 (length sub) →
  (∃ n, immediates s = drop n (settlement <$> completed (trace s))
        ∧ n ≤ length (completed (trace s))
        ∧ ∀ p o, promises s !! p = Some o
                 ↔ (p, o) ∈ take n (settlement <$> completed (trace s))) →
  invariant sub (handle s).
Proof.
  intros Hr Ha Htr Hsub Hal Hps Hset.
  destruct (queue s) as [|t rest] eqn:Hq.
  - rewrite handle_empty by done.
    split; try done.
    + by rewrite Hr, Ha.
    + by rewrite Ha.
    + by rewrite Ha, Hq.
  - rewrite (handle_start s t rest) by done.
    assert (completed (trace s ++ [Started t]) = completed (trace s)) as Hc.
    { rewrite mutex_completed_app. simpl. by rewrite app_nil_r. }
    split; simpl; rewrite ?Hc; try done.
    + rewrite Htr at 1. apply mutex_serial_trace_start.
Qed.

Lemma runExclusive_invariant sub s j :
  invariant sub s →
  invariant (sub ++ [{| job := j; promise := length sub |}]) (runExclusive j s).2.
Proof.
  intros [Hrun Hidle Htr Hfifo Hal Hps Hset]. unfold runExclusive. simpl.
  rewrite Hal.
  assert (promise <$> sub ++ [{| job := j; promise := length sub |}]
          = seq 0 (length (sub ++ [{| job := j; promise := length sub |}]))) as Hps'.
  { rewrite fmap_app, length_app, seq_app, Hps. done. }
  destruct (running s) eqn:Hr.
  - rewrite handle_running by done.
    split; simpl; try done.
    + rewrite Hfifo at 1. by rewrite <-!(assoc_L (++)).
    + rewrite length_app. simpl. lia.
  - assert (awaiting s = None) as Ha.
    { destruct (awaiting s); [|done]. by rewrite bool_decide_true in Hrun by eauto. }
    apply handle_idle_invariant; simpl; try done.
    + by rewrite Htr, Ha at 1.
    + rewrite Hfifo at 1. rewrite Ha, Hidle by done. simpl.
      by rewrite app_nil_r.
    + rewrite length_app. simpl. lia.
Qed.

Lemma mutex_resume_invariant sub s o : invariant sub s → invariant sub (resume o s).
Proof.
  intros Hinv. unfold resume. destruct (awaiting s) as [t|] eqn:Ha; [|done].
  destruct Hinv as [Hrun Hidle Htr Hfifo Hal Hps (n & Him & Hn & Hset)].
  assert (completed (trace s ++ [Finished t o]) = completed (trace s) ++ [(t, o)]) as Hc.
  { by rewrite mutex_completed_app. }
  apply handle_idle_invariant; simpl; rewrite ?Hc; try done.
  - rewrite Htr, Ha at 1. apply mutex_serial_trace_finish.
  - rewrite Hfifo at 1. rewrite Ha, fmap_app. simpl. by rewrite <-!(assoc_L (++)).
  - exists n. rewrite fmap_app. simpl.
    rewrite drop_app_le, take_app_le by (by rewrite length_fmap).
    rewrite Him. split_and!; [done| rewrite length_app; lia | done].
Qed.

Lemma runImmediate_invariant sub s : invariant sub s → invariant sub (runImmediate s).
Proof.
  intros Hinv. unfold runImmediate.
  destruct (immediates s) as [|[p o] rest] eqn:Him; [done|].
  destruct Hinv as [Hrun Hidle Htr Hfifo Hal Hps (n & Him' & Hn & Hset)].
  split; simpl; try done.
  set (L := settlement <$> completed (trace s)) in *.
  assert (NoDup L.*1) as Hnd.
  { assert (L.*1 = promise <$> (completed (trace s)).*1) as ->.
    { unfold L. rewrite <-!list_fmap_compose. done. }
    assert (NoDup (promise <$> sub)) as Hsub by (rewrite Hps; apply NoDup_seq).
    rewrite Hfifo, fmap_app in Hsub. by apply NoDup_app in Hsub as [? _]. }
  rewrite Him in Him'.
  assert (L !! n = Some (p, o)) as Hlook.
  { rewrite <-(Nat.add_0_r n), <-lookup_drop, <-Him'. done. }
  assert (p ∉ (take n L).*1) as Hfresh.
  { rewrite <-(take_drop n L), <-Him', fmap_app in Hnd.
    apply NoDup_app in Hnd as (_ & Hnd & _).
    intros Hin. apply (Hnd _ Hin). simpl. left. }
  assert (promises s !! p = None) as Hnone.
  { destruct (promises s !! p) as [o'|] eqn:Hp; [|done].
    apply Hset in Hp. destruct Hfresh.
    apply list_elem_of_fmap. by exists (p, o'). }
  exists (S n). split_and!.
  - replace (S n) with (n + 1) by lia. by rewrite <-drop_drop, <-Him'.
  - apply lookup_lt_Some in Hlook. unfold L in Hlook.
    rewrite length_fmap in Hlook. lia.
  - intros q o'. rewrite (take_S_r _ _ _ Hlook), elem_of_app, list_elem_of_singleton.
    unfold settle. rewrite Hnone.
    destruct (decide (p = q)) as [->|Hne].
    + rewrite lookup_insert_eq. split.
      * intros [= ->]. by right.
      * intros [Hin|[= ->]]; [|done].
        destruct Hfresh. apply list_elem_of_fmap. by exists (q, o').
    + rewrite lookup_insert_ne by done. rewrite Hset. split; [by left|].
      intros [?|[= ? ?]]; [done|congruence].
Qed.

Lemma mutex_step_invariant ins s i :
  invariant (submitted ins) s → invariant (submitted (ins ++ [i])) (step s i).
Proof.
  intros Hinv. destruct i as [j|o|]; simpl.
  - rewrite submitted_snoc_run. by apply runExclusive_invariant.
  - unfold submitted. rewrite submitted_from_snoc_other by done.
    by apply mutex_resume_invariant.
  - unfold submitted. rewrite submitted_from_snoc_other by done.
    by apply runImmediate_invariant.
Qed.

Lemma mutex_run_invariant ins : invariant (submitted ins) (run ins).
Proof.
  induction ins as [|i ins IH] using rev_ind.
  - apply mutex_invariant_init.
  - rewrite mutex_run_snoc. by apply mutex_step_invariant.
Qed.

Lemma mutex_started_serial_trace (done : list (@JobQueueItem Job * outcome T Err)) cur :
  started (serial_trace done cur) = done.*1 ++ option_list cur.
Proof.
  induction done as [|[t o] done IH]; simpl; [by destruct cur|by rewrite IH].
Qed.

(** In a serial trace the start of a body is the last event or is
    followed at once by the end of the same body. *)
Lemma mutex_serial_trace_next (done : list (@JobQueueItem Job * outcome T Err)) cur a t r :
  serial_trace done cur = a ++ Started t :: r →
  (r = [] ∧ cur = Some t) ∨ ∃ o r', r = Finished t o :: r'.
Proof.
  revert a. induction done as [|[t' o'] done IH]; intros a; simpl.
  - destruct cur as [t'|]; [|by destruct a].
    destruct a as [|e a]; simpl; [|intros [= _ H]; by destruct a].
    intros [= -> <-]. by left.
  - destruct a as [|e [|e' a]]; simpl.
    + intros [= -> <-]. right. eauto.
    + intros [= _ ?].
    + intros [= _ _ H]. by apply IH in H.
Qed.

(** Once every pending [setImmediate] callback has run, the promise
    of every completed body has settled with the outcome of that body. *)
Lemma flushed_settled sub s t o :
  invariant sub s → immediates s = [] →
  (t, o) ∈ completed (trace s) → promises s !! promise t = Some o.
Proof.
  intros [_ _ _ _ _ _ (n & Him & Hn & Hset)] Hnil Hin.
  rewrite Hnil in Him. symmetry in Him. apply drop_nil_inv in Him.
  rewrite length_fmap in Him.
  apply Hset. rewrite take_ge by (rewrite length_fmap; lia).
  apply list_elem_of_fmap. by exists (t, o).
Qed.

Lemma flush_spec sub s :
  invariant sub s →
  invariant sub (flush s) ∧ immediates (flush s) = []
  ∧ trace (flush s) = trace s ∧ queue (flush s) = queue s
  ∧ awaiting (flush s) = awaiting s.
Proof.
  unfold flush. remember (length (immediates s)) as k eqn:Hk.
  revert s Hk. induction k as [|k IH]; intros s Hk Hinv; simpl.
  - split_and!; try done. by destruct (immediates s).
  - destruct (immediates s) as [|[p o] rest] eqn:Him; [done|].
    destruct (IH (runImmediate s)) as (? & ? & Htr & Hq & Ha).
    + unfold runImmediate. rewrite Him. simpl. simpl in Hk. lia.
    + by apply runImmediate_invariant.
    + split_and!; try done.
      * rewrite Htr. unfold runImmediate. by rewrite Him.
      * rewrite Hq. unfold runImmediate. by rewrite Him.
      * rewrite Ha. unfold runImmediate. by rewrite Him.
Qed.

(** A promise settles only with the outcome of the body of its own job. *)
Lemma mutex_settled_own ins p o :
  promises (run ins) !! p = Some o →
  ∃ j, ({| job := j; promise := p |}, o) ∈ completed (trace (run ins)).
Proof.
  destruct (mutex_run_invariant ins) as [_ _ _ _ _ _ (n & _ & _ & Hset)].
  intros Hp%Hset. apply elem_of_take in Hp as (i & Hp & _).
  apply list_elem_of_lookup_2 in Hp.
  apply list_elem_of_fmap in Hp as ([[j p'] o'] & [= -> ->] & Hin).
  by exists j.
Qed.

(** No two completed bodies share a promise. *)
Lemma mutex_completed_promises_NoDup ins :
  NoDup (promise <$> (completed (trace (run ins))).*1).
Proof.
  destruct (mutex_run_invariant ins) as [_ _ _ Hfifo _ Hps _].
  assert (NoDup (promise <$> submitted ins)) as Hnd
    by (rewrite Hps; apply NoDup_seq).
  rewrite Hfifo, fmap_app in Hnd. by apply NoDup_app in Hnd as [? _].
Qed.

(** When the awaited job settles, however it ends, the runner takes
    the oldest queued item and starts its body. *)
Lemma resume_proceeds s t o next rest :
  awaiting s = Some t → queue s = next :: rest →
  awaiting (resume o s) = Some next ∧ queue (resume o s) = rest
  ∧ running (resume o s) = true
  ∧ trace (resume o s) = trace s ++ [Finished t o; Started next].
Proof.
  intros Ha Hq. unfold resume. rewrite Ha.
  erewrite handle_start by done. simpl.
  by rewrite <-(assoc_L (++)).
Qed.

Lemma resume_idle s t o :
  awaiting s = Some t → queue s = [] →
  awaiting (resume o s) = None ∧ queue (resume o s) = []
  ∧ running (resume o s) = false
  ∧ trace (resume o s) = trace s ++ [Finished t o].
Proof.
  intros Ha Hq. unfold resume. rewrite Ha.
  by rewrite handle_empty.
Qed.

(** When the body that runs and those that are queued settle, one
    after the other and each in any way, all of them have run, in queue
    order, and the mutex is idle. *)
Lemma settle_all sub s (outs : list (outcome T Err)) :
  invariant sub s →
  length outs = length (option_list (awaiting s) ++ queue s) →
  let s' := foldl step s (JobSettles <$> outs) in
  invariant sub s' ∧ awaiting s' = None ∧ queue s' = []
  ∧ completed (trace s')
    = completed (trace s) ++ zip (option_list (awaiting s) ++ queue s) outs.
Proof.
  revert s. induction outs as [|o outs IH]; intros s Hinv Hlen; cbn zeta.
  - simpl in *. symmetry in Hlen. apply nil_length_inv in Hlen.
    apply app_eq_nil in Hlen as [Ha Hq].
    destruct (awaiting s); [done|]. rewrite Hq. simpl.
    by rewrite app_nil_r.
  - destruct (awaiting s) as [t|] eqn:Ha.
    2:{ pose proof (inv_running _ _ Hinv) as Hr. rewrite Ha in Hr.
        rewrite bool_decide_false in Hr by by intros [? ?].
        rewrite (inv_idle _ _ Hinv Hr) in Hlen. done. }
    rewrite fmap_cons. cbn [foldl step].
    pose proof (mutex_resume_invariant _ _ o Hinv) as Hinv'.
    destruct (queue s) as [|next rest] eqn:Hq.
    + destruct (resume_idle s t o Ha Hq) as (Ha' & Hq' & _ & Htr).
      destruct (IH (resume o s) Hinv') as (Hi & Ha'' & Hq'' & Hc).
      { rewrite Ha', Hq'. simpl in *. lia. }
      split_and!; [done..|].
      rewrite Hc, Ha', Hq', Htr, mutex_completed_app. simpl in *.
      destruct outs; [|done]. simpl. by rewrite app_nil_r.
    + destruct (resume_proceeds s t o next rest Ha Hq)
        as (Ha' & Hq' & _ & Htr).
      destruct (IH (resume o s) Hinv') as (Hi & Ha'' & Hq'' & Hc).
      { rewrite Ha', Hq'. simpl in *. lia. }
      split_and!; [done..|].
      rewrite Hc, Ha', Hq', Htr, mutex_completed_app. simpl.
      by rewrite <-app_assoc.
Qed.


(** C1. Mutex, serial FIFO execution.  After any sequence of
    [runExclusive] calls, job settlements and [setImmediate] turns:
    the trace of job bodies is serial (each body runs to its end,
    whatever the outcome, before the next one starts, so at most one
    executes at a time); the start of a body is the last event or is
    directly followed by the end of that same body; and the jobs whose
    bodies have started, in the order they started, followed by the
    jobs still queued, are the jobs submitted, in the order of the
    [runExclusive] calls.  The runner makes progress: no job waits in
    the queue while no body runs; a job submitted to an idle mutex is
    started by that very call, and one submitted while a body runs is
    queued behind those waiting; when the running body settles, with a
    value or with an error alike, its end is recorded and the oldest
    queued job, if any, is started at once; and once the body that runs
    and those queued have all settled, each in any way, every job
    submitted has run, in the order of submission. *)
Theorem mutex_serial_fifo ins :
  let s := run ins in
  trace s = serial_trace (completed (trace s)) (awaiting s)
  ∧ submitted ins = started (trace s) ++ queue s
  ∧ started (trace s) = (completed (trace s)).*1 ++ option_list (awaiting s)
  ∧ (∀ a t r, trace s = a ++ Started t :: r →
       (r = [] ∧ awaiting s = Some t) ∨ ∃ o r', r = Finished t o :: r')
  ∧ (running s = false → awaiting s = None ∧ queue s = [])
  ∧ (∀ j, let item := {| job := j; promise := length (submitted ins) |} in
          let s' := run (ins ++ [RunExclusive j]) in
          if running s
          then awaiting s' = awaiting s ∧ queue s' = queue s ++ [item]
               ∧ trace s' = trace s
          else awaiting s' = Some item ∧ queue s' = []
               ∧ trace s' = trace s ++ [Started item])
  ∧ (∀ t o, awaiting s = Some t →
       let s' := run (ins ++ [JobSettles o]) in
       awaiting s' = head (queue s) ∧ queue s' = tail (queue s)
       ∧ trace s'
         = trace s ++ Finished t o :: (Started <$> option_list (head (queue s))))
  ∧ (∀ outs, length outs = length (option_list (awaiting s) ++ queue s) →
       let s' := run (ins ++ (JobSettles <$> outs)) in
       awaiting s' = None ∧ queue s' = []
       ∧ completed (trace s')
         = completed (trace s) ++ zip (option_list (awaiting s) ++ queue s) outs
       ∧ started (trace s') = submitted ins).
Proof.
  intros s. pose proof (mutex_run_invariant ins) as Hinv. fold s in Hinv.
  pose proof Hinv as [Hrun Hidle Htr Hfifo Hal _ _].
  assert (started (trace s) = (completed (trace s)).*1 ++ option_list (awaiting s))
    as Hst by (rewrite Htr at 1; apply mutex_started_serial_trace).
  assert (running s = false → awaiting s = None) as Hnone.
  { intros Hr. rewrite Hr in Hrun. destruct (awaiting s); [|done].
    by rewrite bool_decide_true in Hrun by eauto. }
  split_and!; [done| |done| | | | |].
  - by rewrite Hst, <-(assoc_L (++)).
  - intros a t r Hsplit. rewrite Htr in Hsplit.
    by apply mutex_serial_trace_next in Hsplit.
  - intros Hr. split; [by apply Hnone|by apply Hidle].
  - intros j item s'. unfold s'. rewrite mutex_run_snoc. fold s.
    cbn [step runExclusive snd]. rewrite Hal. fold item.
    destruct (running s) eqn:Hr.
    + by rewrite handle_running.
    + erewrite handle_start; [|done|]; cbn [queue running].
      2:{ by rewrite Hidle. }
      by rewrite Hnone.
  - intros t o Ha s'. unfold s'. rewrite mutex_run_snoc. fold s.
    cbn [step]. destruct (queue s) as [|next rest] eqn:Hq.
    + by destruct (resume_idle s t o Ha Hq) as (-> & -> & _ & ->).
    + destruct (resume_proceeds s t o next rest Ha Hq) as (-> & -> & _ & ->).
      done.
  - intros outs Hlen s'. unfold s'. rewrite mutex_run_app. fold s.
    destruct (settle_all _ _ outs Hinv Hlen) as (Hinv' & Ha' & Hq' & Hc).
    split_and!; [done..|].
    pose proof (inv_fifo _ _ Hinv') as Hf. pose proof (inv_trace _ _ Hinv') as Ht.
    rewrite Ha', Hq' in Hf. rewrite Ht, mutex_started_serial_trace, Ha'.
    by rewrite Hf.
Qed.

End MutexFacts.
End MutexFacts.

(** ** JobManager *)

Module JobManagerFacts.
Import JobManager.
Section JobManagerFacts.
Context {Job T Err : Type}.
Implicit Types (s : @state Job T Err) (t : @Task Job).
Implicit Types (ins : list (@input Job T Err)) (o : outcome T Err).
Implicit Types (ps : gmap nat (outcome (option T) Err)).
Implicit Types (off live : list (@Task Job)).
Implicit Types (comp : list (@Task Job * outcome T Err)).

Lemma jm_run_snoc ins i : run (ins ++ [i]) = step (run ins) i.
Proof. unfold run. by rewrite foldl_snoc. Qed.

Lemma jm_run_app ins ins' : run (ins ++ ins') = foldl step (run ins) ins'.
Proof. unfold run. by rewrite foldl_app. Qed.

Lemma offered_from_snoc n ins j :
  offered_from n (ins ++ [Offer j])
  = offered_from n ins
      ++ [{| job := j; promise := n + length (offered_from n ins) |}].
Proof.
  revert n. induction ins as [|i ins IH]; intros n; simpl.
  - by rewrite Nat.add_0_r.
  - destruct i; simpl; rewrite IH; [|done..].
    by rewrite Nat.add_succ_r.
Qed.

Lemma offered_snoc ins j :
  offered (ins ++ [Offer j])
  = offered ins ++ [{| job := j; promise := length (offered ins) |}].
Proof. unfold offered. by rewrite offered_from_snoc. Qed.

Lemma offered_from_snoc_other n ins i :
  (∀ j, i ≠ Offer j) → offered_from n (ins ++ [i]) = offered_from n ins.
Proof.
  intros Hi. revert n. induction ins as [|i' ins IH]; intros n; simpl.
  - destruct i as [j| |]; [by exfalso; apply (Hi j)|done..].
  - destruct i'; by rewrite IH.
Qed.

Lemma jm_completed_app (tr tr' : list (@event Job T Err)) :
  completed (tr ++ tr') = completed tr ++ completed tr'.
Proof.
  induction tr as [|[t|t o] tr IH]; simpl; [done|done|by rewrite IH].
Qed.

Lemma started_app (tr tr' : list (@event Job T Err)) :
  started (tr ++ tr') = started tr ++ started tr'.
Proof.
  induction tr as [|[t|t o] tr IH]; simpl; [done|by rewrite IH|done].
Qed.

Lemma jm_serial_trace_start comp t :
  serial_trace comp None ++ [Started t] = serial_trace comp (Some t).
Proof. induction comp as [|[t' o] comp IH]; simpl; [done|by rewrite IH]. Qed.

Lemma jm_serial_trace_finish comp t o :
  serial_trace comp (Some t) ++ [Finished t o]
  = serial_trace (comp ++ [(t, o)]) None.
Proof. induction comp as [|[t' o'] comp IH]; simpl; [done|by rewrite IH]. Qed.

Lemma jm_started_serial_trace comp cur :
  started (serial_trace comp cur) = comp.*1 ++ option_list cur.
Proof.
  induction comp as [|[t o] comp IH]; simpl; [by destruct cur|by rewrite IH].
Qed.

Lemma jm_serial_trace_next comp cur a t r :
  serial_trace comp cur = a ++ Started t :: r →
  (r = [] ∧ cur = Some t) ∨ ∃ o r', r = Finished t o :: r'.
Proof.
  revert a. induction comp as [|[t' o'] comp IH]; intros a; simpl.
  - destruct cur as [t'|]; [|by destruct a].
    destruct a as [|e a]; simpl; [|intros [= _ H]; by destruct a].
    intros [= -> <-]. by left.
  - destruct a as [|e [|e' a]]; simpl.
    + intros [= -> <-]. right. eauto.
    + intros [= _ ?].
    + intros [= _ _ H]. by apply IH in H.
Qed.

Lemma lift_not_null o : lift o ≠ Returned None.
Proof. by destruct o. Qed.

Lemma store_inv_bound off live comp ps t :
  store_inv off live comp ps → t ∈ live → promise t < length off.
Proof.
  intros H Hin. apply (st_in _ _ _ _ H) in Hin.
  apply (list_elem_of_fmap_2 promise) in Hin.
  rewrite (st_ids _ _ _ _ H) in Hin. apply elem_of_seq in Hin. lia.
Qed.

Lemma store_inv_pending off live comp ps t :
  store_inv off live comp ps → t ∈ live → t ∉ comp.*1 →
  ps !! promise t = None.
Proof.
  intros H Hin Hnc. destruct (ps !! promise t) as [x|] eqn:Hp; [|done].
  exfalso. apply (st_sound _ _ _ _ H) in Hp as [(t' & o & Hc & Heq & _)|(_ & _ & Hn)].
  - destruct (st_comp _ _ _ _ H) as [rest Hlive].
    pose proof (st_nodup _ _ _ _ H) as Hnd.
    assert (t' ∈ comp.*1) as Ht'.
    { apply list_elem_of_fmap. by exists (t', o). }
    rewrite Hlive in Hin, Hnd. apply elem_of_app in Hin as [?|Hin]; [done|].
    rewrite fmap_app in Hnd. apply NoDup_app in Hnd as (_ & Hnd & _).
    apply (Hnd (promise t')).
    + by apply list_elem_of_fmap_2.
    + rewrite Heq. by apply list_elem_of_fmap_2.
  - apply Hn. by apply list_elem_of_fmap_2.
Qed.

(** A task is offered: it joins the live tasks. *)
Lemma store_push off live comp ps t :
  promise t = length off →
  store_inv off live comp ps →
  store_inv (off ++ [t]) (live ++ [t]) comp ps.
Proof.
  intros Hp H.
  assert (promise t ∉ promise <$> live) as Hfresh.
  { intros (t' & Heq & Hin)%list_elem_of_fmap.
    apply (store_inv_bound _ _ _ _ _ H) in Hin. lia. }
  destruct H as [Hin Hnd Hids Hcomp Hsound Hdone Hdrop].
  split.
  - intros t'. rewrite !elem_of_app. intros [?|?]; [left; eauto|by right].
  - rewrite fmap_app. apply NoDup_app. split_and!; [done| |apply NoDup_singleton].
    intros p Hpin Hx%list_elem_of_singleton. by subst.
  - rewrite fmap_app, length_app, seq_app, Hids. simpl. by rewrite Hp.
  - by apply prefix_app_r.
  - intros p x Hps. apply Hsound in Hps as [?|(-> & Hlt & Hn)]; [by left|right].
    split_and!; [done|rewrite length_app; lia|].
    rewrite fmap_app, elem_of_app. simpl. rewrite list_elem_of_singleton.
    intros [?|Heq]; [done|lia].
  - done.
  - intros p Hlt Hn. rewrite fmap_app, elem_of_app in Hn. simpl in Hn.
    rewrite list_elem_of_singleton in Hn.
    apply Hdrop; [|tauto].
    rewrite length_app in Hlt. simpl in Hlt.
    destruct (decide (p = promise t)); [tauto|lia].
Qed.

(** The queued task is cancelled: it leaves the live tasks and its
    promise is resolved with [null]. *)
Lemma store_cancel off l comp ps t :
  comp.*1 `prefix_of` l →
  store_inv off (l ++ [t]) comp ps →
  store_inv off l comp (cancel t ps).
Proof.
  intros Hpre H.
  pose proof (st_nodup _ _ _ _ H) as Hnd.
  rewrite fmap_app in Hnd. apply NoDup_app in Hnd as (Hndl & Hdisj & _).
  assert (promise t ∉ promise <$> l) as Hfresh.
  { intros Hx. apply (Hdisj _ Hx). simpl. left. }
  assert (∀ t', t' ∈ comp.*1 → promise t' ≠ promise t) as Hcomp_ne.
  { intros t' Hin Heq. apply Hfresh. rewrite <-Heq. apply list_elem_of_fmap_2.
    destruct Hpre as [r ->]. apply elem_of_app. by left. }
  assert (ps !! promise t = None) as Hnone.
  { apply (store_inv_pending _ _ _ _ _ H).
    - apply elem_of_app. right. by apply list_elem_of_singleton.
    - intros Hin. by apply (Hcomp_ne t). }
  destruct H as [Hin _ Hids Hcomp Hsound Hdone Hdrop].
  unfold cancel, settle. rewrite Hnone.
  split; try done.
  - intros t' Ht'. apply Hin, elem_of_app. by left.
  - intros p x. destruct (decide (promise t = p)) as [<-|Hne].
    + rewrite lookup_insert_eq. intros [= <-]. right. split_and!; [done| |done].
      assert (t ∈ off) as Hoff.
      { apply Hin, elem_of_app. right. by apply list_elem_of_singleton. }
      apply (list_elem_of_fmap_2 promise) in Hoff. rewrite Hids in Hoff.
      apply elem_of_seq in Hoff. lia.
    + rewrite lookup_insert_ne by done. intros Hps.
      apply Hsound in Hps as [?|(-> & Hlt & Hn)]; [by left|right].
      split_and!; [done..|]. intros Hx. apply Hn. rewrite fmap_app.
      apply elem_of_app. by left.
  - intros t' o Hc. rewrite lookup_insert_ne; [by apply Hdone|].
    intros Heq. apply (Hcomp_ne t'); [|done].
    apply list_elem_of_fmap. by exists (t', o).
  - intros p Hlt Hn. destruct (decide (promise t = p)) as [<-|Hne].
    + by rewrite lookup_insert_eq.
    + rewrite lookup_insert_ne by done. apply Hdrop; [done|].
      rewrite fmap_app, elem_of_app. simpl. rewrite list_elem_of_singleton.
      intros [?|?]; [done|congruence].
Qed.

(** The job of a started task settles: the promise of the task
    settles with the outcome. *)
Lemma store_complete off live comp ps t o :
  (comp.*1 ++ [t]) `prefix_of` live →
  store_inv off live comp ps →
  store_inv off live (comp ++ [(t, o)]) (settle (promise t) (lift o) ps).
Proof.
  intros Hpre H.
  pose proof (st_nodup _ _ _ _ H) as Hnd.
  destruct Hpre as [rest Hlive]. rewrite Hlive, !fmap_app in Hnd.
  apply NoDup_app in Hnd as (Hnd & _ & _).
  apply NoDup_app in Hnd as (_ & Hdisj & _).
  assert (∀ t', t' ∈ comp.*1 → promise t' ≠ promise t) as Hcomp_ne.
  { intros t' Hin Heq. apply (Hdisj (promise t')).
    - by apply list_elem_of_fmap_2.
    - rewrite Heq. simpl. left. }
  assert (t ∈ live) as Htl.
  { rewrite Hlive, !elem_of_app, list_elem_of_singleton. tauto. }
  assert (ps !! promise t = None) as Hnone.
  { apply (store_inv_pending _ _ _ _ _ H); [done|].
    intros Hx. by apply (Hcomp_ne t). }
  destruct H as [Hin Hnd Hids Hcomp Hsound Hdone Hdrop].
  unfold settle. rewrite Hnone. split; try done.
  - rewrite fmap_app. simpl. exists rest. done.
  - intros p x. destruct (decide (promise t = p)) as [<-|Hne].
    + rewrite lookup_insert_eq. intros [= <-]. left. exists t, o.
      split_and!; [|done..]. apply elem_of_app. right. by apply list_elem_of_singleton.
    + rewrite lookup_insert_ne by done. intros Hps.
      apply Hsound in Hps as [(t' & o' & ? & ? & ?)|?]; [left|by right].
      exists t', o'. split_and!; [|done..]. apply elem_of_app. by left.
  - intros t' o'. rewrite elem_of_app, list_elem_of_singleton. intros [Hc|[= -> ->]].
    + rewrite lookup_insert_ne; [by apply Hdone|].
      intros Heq. apply (Hcomp_ne t'); [|done].
      apply list_elem_of_fmap. by exists (t', o').
    + by rewrite lookup_insert_eq.
  - intros p Hlt Hn. rewrite lookup_insert_ne; [by apply Hdrop|].
    intros <-. apply Hn. by apply list_elem_of_fmap_2.
Qed.

Lemma jm_invariant_init : invariant [] (@init Job T Err).
Proof.
  split; simpl; try done; [lia|].
  split; simpl; try done.
  - apply NoDup_nil_2.
  - intros t o. by intros ?%elem_of_nil.
  - lia.
Qed.

Lemma invariant_started off s :
  invariant off s →
  started (trace s) = (completed (trace s)).*1 ++ option_list (current s).
Proof. intros H. rewrite (inv_trace _ _ H) at 1. apply jm_started_serial_trace. Qed.

Lemma invariant_tasks off s :
  invariant off s → tasks s = [] ∨ ∃ t, tasks s = [t].
Proof.
  intros H. pose proof (inv_pending _ _ H) as Hlen.
  destruct (tasks s) as [|t [|t' ts]]; simpl in Hlen; [by left|right; eauto|lia].
Qed.

Lemma invariant_suspended off s :
  invariant off s → running s = false → suspended s = None.
Proof.
  intros H Hr. rewrite (inv_running _ _ H) in Hr.
  destruct (suspended s); [|done]. by rewrite bool_decide_true in Hr by eauto.
Qed.

Lemma offer_invariant off s j :
  invariant off s →
  invariant (off ++ [{| job := j; promise := length off |}]) (offer j s).2.
Proof.
  intros H. pose proof (invariant_started _ _ H) as Hst.
  pose proof (invariant_tasks _ _ H) as Htasks.
  destruct H as [Hrun Hidle Hlen Htr Hal Hlatest Hstore].
  unfold offer, handle; simpl. rewrite Hal.
  destruct (running s) eqn:Hr; destruct Htasks as [Hts|[t_old Hts]];
    rewrite Hts in *; simpl.
  - (* running, nothing queued: the new task waits *)
    rewrite app_nil_r in Hstore.
    split; simpl; try done.
    + rewrite length_app. simpl. lia.
    + by exists off.
    + by apply store_push.
  - (* running, one queued: the queued task is cancelled *)
    split; simpl; try done.
    + rewrite length_app. simpl. lia.
    + by exists off.
    + apply store_push; [done|]. apply store_cancel; [|done].
      rewrite Hst. by apply prefix_app_r.
  - (* idle: the new task starts *)
    assert (suspended s = None) as Hsus.
    { destruct (suspended s); [|done]. by rewrite bool_decide_true in Hrun by eauto. }
    unfold current in *. rewrite Hsus in Htr, Hst. simpl in Hst.
    rewrite app_nil_r in Hstore. rewrite reverse_nil.
    split; simpl; rewrite ?jm_completed_app, ?started_app; simpl; rewrite ?app_nil_r;
      try done.
    + rewrite Htr at 1. apply jm_serial_trace_start.
    + rewrite length_app. simpl. lia.
    + apply suffix_nil.
    + by apply store_push.
  - (* idle with a queued task: excluded *)
    by specialize (Hidle eq_refl).
Qed.

Lemma settled_invariant off s o : invariant off s → invariant off (settled o s).
Proof.
  intros H. unfold settled.
  destruct (suspended s) as [[t|]|] eqn:Hsus; [|done..].
  pose proof (invariant_started _ _ H) as Hst.
  destruct H as [Hrun Hidle Hlen Htr Hal Hlatest Hstore].
  unfold current in *. rewrite Hsus in Htr, Hst.
  rewrite Hsus in Hrun. rewrite bool_decide_true in Hrun by eauto.
  split; simpl; rewrite ?jm_completed_app, ?started_app; simpl; rewrite ?app_nil_r;
    try done.
  - rewrite Htr at 1. apply jm_serial_trace_finish.
  - apply store_complete; [|done]. rewrite Hst. by apply prefix_app_r.
Qed.

Lemma jm_resume_invariant off s : invariant off s → invariant off (resume s).
Proof.
  intros H. unfold resume.
  destruct (suspended s) as [[t|]|] eqn:Hsus; [done| |done].
  pose proof (invariant_started _ _ H) as Hst.
  destruct (invariant_tasks _ _ H) as [Hts|[t Hts]];
    destruct H as [Hrun Hidle Hlen Htr Hal Hlatest Hstore];
    unfold current in *; rewrite Hsus in Htr, Hst; simpl in Hst;
    unfold handle; simpl; rewrite Hts; simpl.
  - split; simpl; try done; [lia|apply suffix_nil|by rewrite Hts in Hstore].
  - rewrite Hts in Hstore.
    split; simpl; rewrite ?jm_completed_app, ?started_app; simpl; rewrite ?app_nil_r;
      try done.
    + lia.
    + rewrite Htr at 1. apply jm_serial_trace_start.
    + apply suffix_nil.
Qed.

Lemma jm_step_invariant ins s i :
  invariant (offered ins) s → invariant (offered (ins ++ [i])) (step s i).
Proof.
  intros Hinv. destruct i as [j|o|]; simpl.
  - rewrite offered_snoc. by apply offer_invariant.
  - unfold offered. rewrite offered_from_snoc_other by done.
    by apply settled_invariant.
  - unfold offered. rewrite offered_from_snoc_other by done.
    by apply jm_resume_invariant.
Qed.

Lemma jm_run_invariant ins : invariant (offered ins) (run ins).
Proof.
  induction ins as [|i ins IH] using rev_ind.
  - apply jm_invariant_init.
  - rewrite jm_run_snoc. by apply jm_step_invariant.
Qed.

Lemma NoDup_fmap_eq {A B} (f : A → B) (l : list A) x y :
  NoDup (f <$> l) → x ∈ l → y ∈ l → f x = f y → x = y.
Proof.
  induction l as [|a l IH]; simpl; [by intros _ ?%elem_of_nil|].
  rewrite NoDup_cons, !elem_of_cons. intros [Hna Hnd] [->|Hx] [->|Hy] Heq.
  - done.
  - destruct Hna. rewrite Heq. by apply list_elem_of_fmap_2.
  - destruct Hna. rewrite <-Heq. by apply list_elem_of_fmap_2.
  - by apply IH.
Qed.

(** An offered task has started, or is the queued one, or has had its
    promise resolved with [null]. *)
Lemma offered_cases off s t :
  invariant off s → t ∈ off →
  t ∈ started (trace s) ∨ t ∈ tasks s
  ∨ promises s !! promise t = Some (Returned None).
Proof.
  intros H Hin. pose proof (inv_store _ _ H) as Hst.
  destruct (decide (promise t ∈ promise <$> (started (trace s) ++ tasks s)))
    as [Hlive|Hdead].
  - apply list_elem_of_fmap in Hlive as (t' & Heq & Ht').
    assert (t = t') as ->.
    { apply (NoDup_fmap_eq promise off); [|done| |done].
      - rewrite (st_ids _ _ _ _ Hst). apply NoDup_seq.
      - by apply (st_in _ _ _ _ Hst). }
    apply elem_of_app in Ht'. tauto.
  - right. right. apply (st_dropped _ _ _ _ Hst); [|done].
    apply (list_elem_of_fmap_2 promise) in Hin.
    rewrite (st_ids _ _ _ _ Hst) in Hin. apply elem_of_seq in Hin. lia.
Qed.

(** A task whose promise was resolved with [null] has not started and
    is not queued. *)
Lemma cancelled_not_live off s t :
  invariant off s → promises s !! promise t = Some (Returned None) →
  (t ∉ started (trace s)) ∧ (t ∉ tasks s).
Proof.
  intros H Hp. pose proof (inv_store _ _ H) as Hst.
  apply (st_sound _ _ _ _ Hst) in Hp as [(t' & o & _ & _ & Heq)|(_ & _ & Hn)].
  - symmetry in Heq. by apply lift_not_null in Heq.
  - apply not_elem_of_app. intros Hin. apply Hn.
    by apply list_elem_of_fmap_2.
Qed.

Lemma cancel_old_persist (ts : list (@Task Job)) ps p x :
  ps !! p = Some x → (cancel_old ts ps).2 !! p = Some x.
Proof.
  revert ps. induction ts as [|t [|t' ts] IH]; intros ps Hp; simpl; [done..|].
  apply IH. unfold cancel, settle.
  destruct (ps !! promise t) eqn:Hq; [done|].
  rewrite lookup_insert_ne; [done|]. intros <-. congruence.
Qed.

Lemma handle_persist s p x :
  promises s !! p = Some x → promises (handle s) !! p = Some x.
Proof.
  intros Hp. unfold handle.
  pose proof (cancel_old_persist (tasks s) (promises s) p x Hp) as Hc.
  destruct (cancel_old (tasks s) (promises s)) as [ts ps]. simpl in Hc.
  destruct (running s); [done|]. by destruct (pop ts) as [[??]|].
Qed.

(** A settled promise stays as it is. *)
Lemma jm_step_persist s i p x :
  promises s !! p = Some x → promises (step s i) !! p = Some x.
Proof.
  intros Hp. destruct i as [j|o|]; simpl.
  - unfold offer. simpl. by apply handle_persist.
  - unfold settled. destruct (suspended s) as [[t|]|]; [|done..]. simpl.
    unfold settle. destruct (promises s !! promise t) eqn:Hq; [done|].
    rewrite lookup_insert_ne; [done|]. intros <-. congruence.
  - unfold resume. destruct (suspended s) as [[t|]|]; [done| |done].
    by apply handle_persist.
Qed.

Lemma jm_run_persist ins ins' p x :
  promises (run ins) !! p = Some x → promises (run (ins ++ ins')) !! p = Some x.
Proof.
  intros Hp. induction ins' as [|i ins' IH] using rev_ind.
  - by rewrite app_nil_r.
  - rewrite (assoc_L (++)), jm_run_snoc. by apply jm_step_persist.
Qed.

(** C2. JobManager, latest-wins coalescing.  After any sequence of
    offers, job settlements and resumptions: at most one task is
    queued and it is the most recently offered one; every offered task
    has either started, or is the queued one, or has had its promise
    resolved with [null]; a task whose promise was resolved with [null]
    has not started and never starts; the trace of bodies is serial:
    the start of a body is the last event or is directly followed by the
    end of that same body, so a started body runs to its end before
    another starts; an offer made
    while a task is running leaves the running task alone, resolves the
    promise of the task queued so far with [null] and queues the new
    task; and when the manager resumes after a body has ended, the
    queued task, if any, is started.  The manager makes progress: an
    offer to an idle manager starts the job by that very call; the
    promise of the running task is pending and nothing but the
    settlement of its job ends it; when the job settles, with a value or
    with an error alike, its end is recorded, its promise settles with
    that outcome and [handle] is left to resume with the queue
    untouched; and once [handle] has resumed, the queued task, if any,
    has started and the queue is empty. *)
Theorem jobmanager_latest_wins ins :
  let s := run ins in
  length (tasks s) ≤ 1
  ∧ tasks s `suffix_of` offered ins
  ∧ (∀ t, t ∈ offered ins →
       t ∈ started (trace s) ∨ t ∈ tasks s
       ∨ promises s !! promise t = Some (Returned None))
  ∧ (∀ t ins', promises s !! promise t = Some (Returned None) →
       (t ∉ started (trace (run (ins ++ ins'))))
       ∧ (t ∉ tasks (run (ins ++ ins'))))
  ∧ trace s = serial_trace (completed (trace s)) (current s)
  ∧ (∀ a t r, trace s = a ++ Started t :: r →
       (r = [] ∧ current s = Some t) ∨ ∃ o r', r = Finished t o :: r')
  ∧ (∀ j, running s = true →
       let s' := run (ins ++ [Offer j]) in
       suspended s' = suspended s ∧ trace s' = trace s
       ∧ tasks s' = [{| job := j; promise := length (offered ins) |}]
       ∧ ∀ t, t ∈ tasks s → promises s' !! promise t = Some (Returned None))
  ∧ (∀ t, suspended s = Some AwaitRun → tasks s = [t] →
       let s' := run (ins ++ [Resume]) in
       current s' = Some t ∧ tasks s' = []
       ∧ trace s' = trace s ++ [Started t])
  ∧ (∀ j, running s = false →
       let t := {| job := j; promise := length (offered ins) |} in
       let s' := run (ins ++ [Offer j]) in
       current s' = Some t ∧ tasks s' = [] ∧ running s' = true
       ∧ trace s' = trace s ++ [Started t])
  ∧ (∀ t, current s = Some t →
       promises s !! promise t = None
       ∧ ∀ i, (∀ o, i ≠ JobSettles o) → current (run (ins ++ [i])) = Some t)
  ∧ (∀ t o, current s = Some t →
       let s' := run (ins ++ [JobSettles o]) in
       suspended s' = Some AwaitRun ∧ running s' = true ∧ tasks s' = tasks s
       ∧ trace s' = trace s ++ [Finished t o]
       ∧ promises s' !! promise t = Some (lift o))
  ∧ (∀ t o, current s = Some t →
       let s' := run (ins ++ [JobSettles o; Resume]) in
       current s' = head (tasks s) ∧ tasks s' = []
       ∧ running s' = bool_decide (tasks s ≠ [])
       ∧ trace s' = trace s ++ Finished t o :: (Started <$> tasks s)).
Proof.
  intros s. pose proof (jm_run_invariant ins) as H. fold s in H.
  split_and!.
  - apply (inv_pending _ _ H).
  - apply (inv_latest _ _ H).
  - intros t. by apply offered_cases.
  - intros t ins' Hp.
    apply (cancelled_not_live _ _ _ (jm_run_invariant (ins ++ ins'))).
    by apply jm_run_persist.
  - apply (inv_trace _ _ H).
  - intros a t r Hsplit. rewrite (inv_trace _ _ H) in Hsplit.
    by apply jm_serial_trace_next in Hsplit.
  - intros j Hr s'.
    pose proof (jm_run_invariant (ins ++ [Offer j])) as H'. fold s' in H'.
    assert (suspended s' = suspended s ∧ trace s' = trace s
            ∧ tasks s' = [{| job := j; promise := length (offered ins) |}])
      as (Hsus & Htr & Hts).
    { unfold s'. rewrite jm_run_snoc. fold s. simpl. unfold offer, handle. simpl.
      rewrite Hr, (inv_allocated _ _ H).
      by destruct (invariant_tasks _ _ H) as [->|[t_old ->]]. }
    split_and!; [done..|]. intros t Ht.
    assert (t ∈ offered (ins ++ [Offer j])) as Hoff.
    { rewrite offered_snoc. apply elem_of_app. left.
      destruct (inv_latest _ _ H) as [k ->]. apply elem_of_app. by right. }
    pose proof (inv_store _ _ H) as Hst.
    pose proof (st_nodup _ _ _ _ Hst) as Hnd.
    destruct (offered_cases _ _ _ H' Hoff) as [Hs|[Hq|?]]; [exfalso..|done].
    + rewrite Htr in Hs. rewrite fmap_app in Hnd.
      apply NoDup_app in Hnd as (_ & Hnd & _).
      apply (Hnd (promise t)); by apply list_elem_of_fmap_2.
    + rewrite Hts in Hq. apply list_elem_of_singleton in Hq.
      assert (promise t < length (offered ins)); [|subst t; simpl in *; lia].
      apply (store_inv_bound _ _ _ _ _ Hst). apply elem_of_app. by right.
  - intros t Hsus Hts s'. unfold s'. rewrite jm_run_snoc. fold s. simpl.
    unfold resume. rewrite Hsus. unfold handle. simpl. rewrite Hts. simpl.
    done.
  - intros j Hr t s'. unfold s'. rewrite jm_run_snoc. fold s.
    cbn [step offer snd]. rewrite (inv_allocated _ _ H). fold t.
    unfold handle. cbn [tasks running promises allocated trace suspended].
    rewrite (inv_idle _ _ H Hr), Hr. done.
  - intros t Hcur. unfold current in Hcur.
    destruct (suspended s) as [[t'|]|] eqn:Hsus; simplify_eq.
    split.
    + pose proof (inv_store _ _ H) as Hst.
      pose proof (invariant_started _ _ H) as Hstarted.
      unfold current in Hstarted. rewrite Hsus in Hstarted. simpl in Hstarted.
      apply (store_inv_pending _ _ _ _ _ Hst).
      * rewrite Hstarted. apply elem_of_app. left. apply elem_of_app. right.
        by apply list_elem_of_singleton.
      * intros Hin. pose proof (st_nodup _ _ _ _ Hst) as Hnd.
        rewrite Hstarted, !fmap_app in Hnd.
        apply NoDup_app in Hnd as (Hnd & _ & _).
        apply NoDup_app in Hnd as (_ & Hnd & _).
        apply (Hnd (promise t)); [by apply list_elem_of_fmap_2|].
        simpl. left.
    + intros i Hi. rewrite jm_run_snoc. fold s.
      assert (running s = true) as Hr.
      { rewrite (inv_running _ _ H), Hsus. by apply bool_decide_true. }
      destruct i as [j|o|]; [| by destruct (Hi o) |].
      * unfold current. cbn [step offer snd]. unfold handle.
        cbn [tasks running promises allocated trace suspended].
        rewrite Hr.
        destruct (cancel_old _ _) as [ts ps]. simpl. by rewrite Hsus.
      * unfold current. cbn [step]. unfold resume. by rewrite !Hsus.
  - intros t o Hcur s'.
    pose proof (jm_run_invariant (ins ++ [JobSettles o])) as H'. fold s' in H'.
    assert (suspended s' = Some AwaitRun ∧ running s' = true
            ∧ tasks s' = tasks s ∧ trace s' = trace s ++ [Finished t o])
      as (Hsus & Hr & Hts & Htr).
    { unfold s'. rewrite jm_run_snoc. fold s. cbn [step]. unfold settled.
      unfold current in Hcur.
      destruct (suspended s) as [[t'|]|] eqn:Hsus; simplify_eq.
      cbn [suspended running tasks trace]. split_and!; [done| |done..].
      rewrite (inv_running _ _ H), Hsus. by apply bool_decide_true. }
    split_and!; [done..|].
    apply (st_done _ _ _ _ (inv_store _ _ H')).
    rewrite Htr, jm_completed_app. apply elem_of_app. right.
    simpl. by apply list_elem_of_singleton.
  - intros t o Hcur s'. unfold s'. rewrite jm_run_app. fold s.
    cbn [foldl step]. unfold settled. unfold current in Hcur.
    destruct (suspended s) as [[t'|]|] eqn:Hsus; simplify_eq.
    unfold resume. cbn [suspended]. unfold handle.
    cbn [tasks running promises allocated trace suspended].
    destruct (invariant_tasks _ _ H) as [->|[next ->]]; simpl.
    + done.
    + by rewrite <-(assoc_L (++)).
Qed.

(** A promise that settled otherwise than with [null] settled with
    the outcome of the body of its own task. *)
Lemma jm_settled_own ins p x :
  promises (run ins) !! p = Some x → x ≠ Returned None →
  ∃ j o, ({| job := j; promise := p |}, o) ∈ completed (trace (run ins))
         ∧ x = lift o.
Proof.
  intros Hp Hx. pose proof (inv_store _ _ (jm_run_invariant ins)) as Hst.
  apply (st_sound _ _ _ _ Hst) in Hp as [([j p'] & o & Hc & Heq & ->)|(-> & _)];
    [|done].
  simpl in Heq. subst p'. eauto.
Qed.

(** The promise of a task whose body has ended has settled with the
    outcome of that body. *)
Lemma completed_settled ins t o :
  (t, o) ∈ completed (trace (run ins)) →
  promises (run ins) !! promise t = Some (lift o).
Proof. apply (st_done _ _ _ _ (inv_store _ _ (jm_run_invariant ins))). Qed.

Lemma jm_completed_promises_NoDup ins :
  NoDup (promise <$> (completed (trace (run ins))).*1).
Proof.
  pose proof (inv_store _ _ (jm_run_invariant ins)) as Hst.
  pose proof (st_nodup _ _ _ _ Hst) as Hnd.
  destruct (st_comp _ _ _ _ Hst) as [r Hr].
  rewrite Hr, fmap_app in Hnd. by apply NoDup_app in Hnd as [? _].
Qed.

(** When the job of the running task settles, however it ends, and
    the manager resumes, the queued task is started. *)
Lemma settled_resume_proceeds ins t o next :
  current (run ins) = Some t → tasks (run ins) = [next] →
  let s' := run (ins ++ [JobSettles o; Resume]) in
  current s' = Some next ∧ tasks s' = [] ∧ running s' = true
  ∧ trace s' = trace (run ins) ++ [Finished t o; Started next].
Proof.
  intros Hcur Hts s'. unfold s'.
  rewrite jm_run_app. simpl.
  unfold current in Hcur. unfold settled.
  destruct (suspended (run ins)) as [[t'|]|]; simplify_eq.
  unfold resume, handle. simpl. rewrite Hts. simpl.
  by rewrite <-(assoc_L (++)).
Qed.

Lemma settled_resume_idle ins t o :
  current (run ins) = Some t → tasks (run ins) = [] →
  let s' := run (ins ++ [JobSettles o; Resume]) in
  suspended s' = None ∧ tasks s' = [] ∧ running s' = false
  ∧ trace s' = trace (run ins) ++ [Finished t o].
Proof.
  intros Hcur Hts s'. unfold s'.
  rewrite jm_run_app. simpl.
  unfold current in Hcur. unfold settled.
  destruct (suspended (run ins)) as [[t'|]|]; simplify_eq.
  unfold resume, handle. simpl. by rewrite Hts.
Qed.

End JobManagerFacts.
End JobManagerFacts.

(** ** Fault isolation of [Mutex] and [JobManager] *)

Module FaultIsolation.
Section FaultIsolation.
Context {Job T Err : Type}.

Lemma mutex_failure (ins : list (@Mutex.input Job T Err)) t e :
  Mutex.awaiting (Mutex.run ins) = Some t →
  let s' := Mutex.run (ins ++ [Mutex.JobSettles (Threw e)]) in
  Mutex.promises (Mutex.flush s') !! Mutex.promise t = Some (Threw e)
  ∧ match Mutex.queue (Mutex.run ins) with
    | next :: rest =>
        Mutex.awaiting s' = Some next ∧ Mutex.queue s' = rest
        ∧ Mutex.running s' = true
    | [] =>
        Mutex.awaiting s' = None ∧ Mutex.queue s' = []
        ∧ Mutex.running s' = false
    end.
Proof.
  intros Ha s'.
  pose proof (MutexFacts.mutex_run_invariant (ins ++ [Mutex.JobSettles (Threw e)])) as H'.
  fold s' in H'.
  destruct (MutexFacts.flush_spec _ _ H') as (Hf & Hnil & Htr & _ & _).
  assert (Mutex.step (Mutex.run ins) (Mutex.JobSettles (Threw e)) = s') as Hs'
    by (unfold s'; by rewrite MutexFacts.mutex_run_snoc).
  simpl in Hs'.
  destruct (Mutex.queue (Mutex.run ins)) as [|next rest] eqn:Hq.
  - destruct (MutexFacts.resume_idle _ _ (Threw e) Ha Hq) as (? & ? & ? & Ht).
    rewrite Hs' in *. split; [|done].
    apply (MutexFacts.flushed_settled _ _ _ _ Hf Hnil).
    rewrite Htr, Ht, MutexFacts.mutex_completed_app. simpl.
    apply elem_of_app. right. by apply list_elem_of_singleton.
  - destruct (MutexFacts.resume_proceeds _ _ (Threw e) _ _ Ha Hq) as (? & ? & ? & Ht).
    rewrite Hs' in *. split; [|done].
    apply (MutexFacts.flushed_settled _ _ _ _ Hf Hnil).
    rewrite Htr, Ht, MutexFacts.mutex_completed_app. simpl.
    apply elem_of_app. right. by apply list_elem_of_singleton.
Qed.

Lemma jobmanager_failure (ins : list (@JobManager.input Job T Err)) t e :
  JobManager.current (JobManager.run ins) = Some t →
  let s' := JobManager.run
              (ins ++ [JobManager.JobSettles (Threw e); JobManager.Resume]) in
  JobManager.promises s' !! JobManager.promise t = Some (Threw e)
  ∧ match JobManager.tasks (JobManager.run ins) with
    | next :: _ =>
        JobManager.current s' = Some next ∧ JobManager.tasks s' = []
        ∧ JobManager.running s' = true
    | [] =>
        JobManager.suspended s' = None ∧ JobManager.tasks s' = []
        ∧ JobManager.running s' = false
    end.
Proof.
  intros Hcur s'.
  destruct (JobManagerFacts.invariant_tasks _ _ (JobManagerFacts.jm_run_invariant ins))
    as [Hts|[next Hts]]; rewrite Hts.
  - destruct (JobManagerFacts.settled_resume_idle _ _ (Threw e) Hcur Hts)
      as (? & ? & ? & Ht).
    fold s' in Ht. split; [|done].
    apply (JobManagerFacts.completed_settled _ t (Threw e)). fold s'.
    rewrite Ht, JobManagerFacts.jm_completed_app. simpl.
    apply elem_of_app. right. by apply list_elem_of_singleton.
  - destruct (JobManagerFacts.settled_resume_proceeds _ _ (Threw e) _ Hcur Hts)
      as (? & ? & ? & Ht).
    fold s' in Ht. split; [|done].
    apply (JobManagerFacts.completed_settled _ t (Threw e)). fold s'.
    rewrite Ht, JobManagerFacts.jm_completed_app. simpl.
    apply elem_of_app. right. by apply list_elem_of_singleton.
Qed.

(** C3. Fault isolation of the coordination primitives.  For a mutex
    and for a job manager alike, after any sequence of events: a
    promise handed to a caller that has settled (for the job manager:
    otherwise than with [null]) has settled with the outcome of the
    body of the caller's own job, so a rejection carries the error that
    this very job threw; no two bodies share a promise; the promise of
    every body that ended settles with the outcome of that body (for
    the mutex once the pending [setImmediate] callbacks have run); no
    job is ever left queued by an idle runner; and when the running
    job throws, the promise of its caller is rejected with the error
    and the runner goes on to start the next queued entry. *)
Theorem job_failure_isolated :
  (∀ ins : list (@Mutex.input Job T Err),
     let s := Mutex.run ins in
     (∀ p o, Mutex.promises s !! p = Some o →
        ∃ j, ({| Mutex.job := j; Mutex.promise := p |}, o)
             ∈ Mutex.completed (Mutex.trace s))
     ∧ NoDup (Mutex.promise <$> (Mutex.completed (Mutex.trace s)).*1)
     ∧ (∀ t o, (t, o) ∈ Mutex.completed (Mutex.trace s) →
          Mutex.promises (Mutex.flush s) !! Mutex.promise t = Some o)
     ∧ (Mutex.running s = false → Mutex.queue s = [])
     ∧ (∀ t e, Mutex.awaiting s = Some t →
          let s' := Mutex.run (ins ++ [Mutex.JobSettles (Threw e)]) in
          Mutex.promises (Mutex.flush s') !! Mutex.promise t = Some (Threw e)
          ∧ match Mutex.queue s with
            | next :: rest =>
                Mutex.awaiting s' = Some next ∧ Mutex.queue s' = rest
                ∧ Mutex.running s' = true
            | [] =>
                Mutex.awaiting s' = None ∧ Mutex.queue s' = []
                ∧ Mutex.running s' = false
            end))
  ∧ (∀ ins : list (@JobManager.input Job T Err),
       let s := JobManager.run ins in
       (∀ p x, JobManager.promises s !! p = Some x → x ≠ Returned None →
          ∃ j o, ({| JobManager.job := j; JobManager.promise := p |}, o)
                 ∈ JobManager.completed (JobManager.trace s)
                 ∧ x = JobManager.lift o)
       ∧ NoDup (JobManager.promise
                  <$> (JobManager.completed (JobManager.trace s)).*1)
       ∧ (∀ t o, (t, o) ∈ JobManager.completed (JobManager.trace s) →
            JobManager.promises s !! JobManager.promise t
            = Some (JobManager.lift o))
       ∧ (JobManager.running s = false → JobManager.tasks s = [])
       ∧ (∀ t e, JobManager.current s = Some t →
            let s' := JobManager.run
                        (ins ++ [JobManager.JobSettles (Threw e);
                                 JobManager.Resume]) in
            JobManager.promises s' !! JobManager.promise t = Some (Threw e)
            ∧ match JobManager.tasks s with
              | next :: _ =>
                  JobManager.current s' = Some next ∧ JobManager.tasks s' = []
                  ∧ JobManager.running s' = true
              | [] =>
                  JobManager.suspended s' = None ∧ JobManager.tasks s' = []
                  ∧ JobManager.running s' = false
              end)).
Proof.
  split.
  - intros ins s. split_and!.
    + intros p o. apply MutexFacts.mutex_settled_own.
    + apply MutexFacts.mutex_completed_promises_NoDup.
    + intros t o Hc.
      destruct (MutexFacts.flush_spec _ _ (MutexFacts.mutex_run_invariant ins))
        as (Hf & Hnil & Htr & _ & _).
      apply (MutexFacts.flushed_settled _ _ _ _ Hf Hnil). by rewrite Htr.
    + apply (Mutex.inv_idle _ _ (MutexFacts.mutex_run_invariant ins)).
    + intros t e. apply mutex_failure.
  - intros ins s. split_and!.
    + intros p x. apply JobManagerFacts.jm_settled_own.
    + apply JobManagerFacts.jm_completed_promises_NoDup.
    + intros t o. apply JobManagerFacts.completed_settled.
    + apply (JobManager.inv_idle _ _ (JobManagerFacts.jm_run_invariant ins)).
    + intros t e. apply jobmanager_failure.
Qed.

End FaultIsolation.
End FaultIsolation.

(** ** CacheOnSuccess *)

Module CacheOnSuccessFacts.
Import CacheOnSuccess.
Section CacheOnSuccessFacts.
Context {T Err : Type} (truthy : T → bool).
Implicit Types (s : @state T Err) (o : outcome T Err).
Implicit Types (ins : list (@input T Err)) (r : returned (T:=T)).

Abbreviation run := (run truthy).
Abbreviation run_from := (run_from truthy).
Abbreviation step := (step truthy).
Abbreviation getOrThrow := (getOrThrow truthy).

Lemma cache_run_snoc ins i : run (ins ++ [i]) = step (run ins) i.
Proof. unfold run, CacheOnSuccess.run, CacheOnSuccess.run_from. by rewrite foldl_snoc. Qed.

Lemma cache_run_app ins ins' : run (ins ++ ins') = run_from (run ins) ins'.
Proof. unfold run, CacheOnSuccess.run, CacheOnSuccess.run_from. by rewrite foldl_app. Qed.

Lemma cache_invariant_init : invariant (@init T Err).
Proof.
  split; simpl.
  - intros q [x Hx]. by rewrite lookup_empty in Hx.
  - split_and!; [done..|]. intros q ?. lia.
Qed.

Lemma getOrThrow_invariant s : invariant s → invariant (getOrThrow s).
Proof.
  intros [Hdom Hp]. unfold CacheOnSuccess.getOrThrow.
  destruct (promise s) as [p|] eqn:Hpr.
  - destruct (value s) as [v|]; [destruct (truthy v)|];
      (split; simpl; done).
  - destruct Hp as (Hv & Hf & Hall). rewrite Hv, Hf.
    split; simpl.
    + intros q Hq. apply Hdom in Hq. lia.
    + split_and!; [done..|]. by left.
Qed.

Lemma jobSettles_invariant s p o : invariant s → invariant (jobSettles p o s).
Proof.
  intros [Hdom Hp]. unfold jobSettles. destruct (decide (p < invoked s)) as [Hlt|]; [|done].
  split; simpl.
  - intros q. destruct (decide (p = q)) as [<-|Hne]; [done|].
    rewrite settle_lookup_ne by done. apply Hdom.
  - destruct (promise s) as [p'|].
    + destruct Hp as (Hinv & Hold & Hcur). split_and!; [done| |].
      * intros q Hq. destruct (Hold q Hq) as [e He]. exists e.
        destruct (decide (p = q)) as [<-|Hne].
        -- by erewrite settle_lookup_settled.
        -- by rewrite settle_lookup_ne.
      * destruct Hcur as [?|(Hf & v & Hv & Hval)]; [by left|right].
        split; [done|]. exists v. split; [|done].
        destruct (decide (p = p')) as [<-|Hne].
        -- by erewrite settle_lookup_settled.
        -- by rewrite settle_lookup_ne.
    + destruct Hp as (Hv & Hf & Hall). split_and!; [done..|].
      intros q Hq. destruct (Hall q Hq) as [e He]. exists e.
      destruct (decide (p = q)) as [<-|Hne].
      * by erewrite settle_lookup_settled.
      * by rewrite settle_lookup_ne.
Qed.

Lemma cache_resume_invariant s p : invariant s → invariant (resume p s).
Proof.
  intros Hinv0. pose proof Hinv0 as [Hdom Hp]. unfold resume.
  destruct (bool_decide (p ∈ frames s)) eqn:Hin; [|done].
  apply bool_decide_eq_true in Hin.
  destruct (promise s) as [p'|] eqn:Hpr.
  - destruct Hp as (Hinv & Hold & [[Hf Hval]|(Hf & _)]).
    + rewrite Hf in Hin. apply list_elem_of_singleton in Hin. subst p'.
      destruct (jobs s !! p) as [[v|e]|] eqn:Hj; [| |done].
      * split; simpl; [done|]. rewrite Hf. simpl.
        rewrite decide_True by done.
        split_and!; [done..|]. right. eauto.
      * split; simpl; [done|]. rewrite Hf. simpl. rewrite decide_True by done.
        split_and!; [done..|]. intros q Hq.
        destruct (decide (q = p)) as [->|]; [eauto|]. apply Hold. lia.
    + rewrite Hf in Hin. by apply elem_of_nil in Hin.
  - destruct Hp as (_ & Hf & _). rewrite Hf in Hin. by apply elem_of_nil in Hin.
Qed.

Lemma cache_step_invariant s i : invariant s → invariant (step s i).
Proof.
  destruct i; simpl;
    [apply getOrThrow_invariant|apply jobSettles_invariant|apply cache_resume_invariant].
Qed.

Lemma cache_run_invariant ins : invariant (run ins).
Proof.
  induction ins as [|i ins IH] using rev_ind.
  - apply cache_invariant_init.
  - rewrite cache_run_snoc. by apply cache_step_invariant.
Qed.

Lemma remove_first_subseteq p (l : list nat) q :
  q ∈ remove_first p l → q ∈ l.
Proof.
  induction l as [|x l IH]; simpl; [done|].
  destruct (decide (p = x)); rewrite ?elem_of_cons; [by right|].
  intros [?|?]; [by left|right; by apply IH].
Qed.

Lemma invariant_sticky s p v :
  invariant s → jobs s !! p = Some (Returned v) → sticky p v s.
Proof.
  intros [Hdom Hp] Hj.
  assert (p < invoked s) as Hlt by (apply Hdom; eauto).
  destruct (promise s) as [p'|] eqn:Hpr.
  - destruct Hp as (Hinv & Hold & Hcur).
    assert (p = p') as <-.
    { destruct (decide (p = p')) as [|Hne]; [done|].
      destruct (Hold p) as [e He]; [lia|congruence]. }
    unfold sticky. rewrite Hpr.
    destruct Hcur as [[Hf Hv]|(Hf & v' & Hv' & Hval)]; rewrite Hf.
    + split_and!; [done..|by left|]. by intros q ?%list_elem_of_singleton.
    + split_and!; [done..| |by intros q ?%elem_of_nil].
      right. congruence.
  - destruct Hp as (_ & _ & Hall). destruct (Hall p Hlt) as [e He]. congruence.
Qed.

Lemma step_sticky s i p v :
  sticky p v s →
  sticky p v (step s i) ∧ invoked (step s i) = invoked s
  ∧ ∃ new, calls (step s i) = calls s ++ new
           ∧ ∀ r, r ∈ new → r = Value v ∨ r = Shares p.
Proof.
  intros (Hpr & Hj & Hval & Hfr). destruct i as [|q o|q]; simpl.
  - unfold CacheOnSuccess.getOrThrow. rewrite Hpr.
    destruct Hval as [->| ->]; [|destruct (truthy v)]; simpl.
    + split_and!; [by split_and!; simpl; auto|done|].
      exists [Shares p]. split; [done|]. intros r ->%list_elem_of_singleton. by right.
    + split_and!; [by split_and!; simpl; auto|done|].
      exists [Value v]. split; [done|]. intros r ->%list_elem_of_singleton. by left.
    + split_and!; [by split_and!; simpl; auto|done|].
      exists [Shares p]. split; [done|]. intros r ->%list_elem_of_singleton. by right.
  - unfold jobSettles. destruct (decide (q < invoked s)); simpl.
    + split_and!; [|done|exists []; split; [by rewrite app_nil_r|by intros r ?%elem_of_nil]].
      split_and!; simpl; [done| |done..].
      destruct (decide (q = p)) as [->|Hne].
      * by erewrite settle_lookup_settled.
      * by rewrite settle_lookup_ne.
    + split_and!; [done..|]. exists []. split; [by rewrite app_nil_r|by intros r ?%elem_of_nil].
  - unfold resume. destruct (bool_decide (q ∈ frames s)) eqn:Hin.
    + apply bool_decide_eq_true in Hin. apply Hfr in Hin. subst q. rewrite Hj.
      split_and!; [|done|exists []; split; [by rewrite app_nil_r|by intros r ?%elem_of_nil]].
      split_and!; simpl; [done..|by right|].
      intros q Hq%remove_first_subseteq. by apply Hfr.
    + split_and!; [done..|]. exists []. split; [by rewrite app_nil_r|by intros r ?%elem_of_nil].
Qed.

Lemma run_from_sticky s ins p v :
  sticky p v s →
  sticky p v (run_from s ins) ∧ invoked (run_from s ins) = invoked s
  ∧ ∃ new, calls (run_from s ins) = calls s ++ new
           ∧ ∀ r, r ∈ new → r = Value v ∨ r = Shares p.
Proof.
  revert s. induction ins as [|i ins IH]; intros s Hs; simpl.
  - split_and!; [done..|]. exists []. split; [by rewrite app_nil_r|by intros r ?%elem_of_nil].
  - destruct (step_sticky s i p v Hs) as (Hs1 & Hinv1 & new1 & Hc1 & Hn1).
    destruct (IH _ Hs1) as (Hs2 & Hinv2 & new2 & Hc2 & Hn2).
    split_and!; [done|congruence|].
    exists (new1 ++ new2). split.
    + unfold CacheOnSuccess.run_from in *. simpl. rewrite Hc2, Hc1. by rewrite <-(assoc_L (++)).
    + intros r [?|?]%elem_of_app; auto.
Qed.

Lemma jobSettles_pending s p o :
  p < invoked s → jobs s !! p = None →
  jobSettles p o s
  = {| value := value s; promise := promise s; jobs := <[p := o]> (jobs s);
       invoked := invoked s; frames := frames s; calls := calls s |}.
Proof.
  intros Hlt Hj. unfold jobSettles, settle. by rewrite decide_True, Hj.
Qed.

Lemma resume_fulfilled s p v :
  frames s = [p] → jobs s !! p = Some (Returned v) →
  resume p s
  = {| value := Some v; promise := promise s; jobs := jobs s;
       invoked := invoked s; frames := []; calls := calls s |}.
Proof.
  intros Hf Hj. unfold resume. rewrite Hf, bool_decide_true, Hj by set_solver.
  simpl. by rewrite decide_True.
Qed.

Lemma resume_rejected s p (e : Err) :
  frames s = [p] → jobs s !! p = Some (Threw e) →
  resume p s
  = {| value := None; promise := None; jobs := jobs s;
       invoked := invoked s; frames := []; calls := calls s |}.
Proof.
  intros Hf Hj. unfold resume. rewrite Hf, bool_decide_true, Hj by set_solver.
  simpl. by rewrite decide_True.
Qed.

Ltac cache_step :=
  match goal with
  | |- context [jobSettles ?p ?o (@Build_state _ _ ?a ?b ?c ?d ?f ?g)] =>
      rewrite (jobSettles_pending (Build_state a b c d f g) p o)
        by (cbn [jobs invoked]; first [lia | rewrite ?lookup_insert_ne by lia; apply lookup_empty])
  | |- context [resume ?p (@Build_state _ _ ?a ?b ?c ?d ?f ?g)] =>
      first [ erewrite (resume_rejected (Build_state a b c d f g) p)
                by (cbn [jobs frames]; first [apply lookup_insert_eq | reflexivity])
            | erewrite (resume_fulfilled (Build_state a b c d f g) p)
                by (cbn [jobs frames]; first [apply lookup_insert_eq | reflexivity]) ]
  end;
  cbn [CacheOnSuccess.getOrThrow value promise jobs invoked frames calls app].

Lemma retry_scenario (e : Err) (v : T) :
       let s3 := run [GetOrThrow; JobSettles 0 (Threw e); Resume 0;
                      GetOrThrow; JobSettles 1 (Returned v); Resume 1;
                      GetOrThrow] in
       invoked s3 = 2
       ∧ result s3 <$> calls s3
         = [Some (Threw e); Some (Returned v); Some (Returned v)].
Proof.
  intros s3.
  assert (run [GetOrThrow; JobSettles 0 (Threw e); Resume 0;
                      GetOrThrow; JobSettles 1 (Returned v); Resume 1]
          = {| value := Some v; promise := Some 1;
               jobs := <[1 := Returned v]> (<[0 := Threw e]> ∅);
               invoked := 2; frames := []; calls := [Awaits 0; Awaits 1] |}) as Hs.
  { unfold CacheOnSuccess.run, CacheOnSuccess.run_from.
    cbn [foldl CacheOnSuccess.step CacheOnSuccess.getOrThrow init value promise jobs invoked frames calls app].
    repeat cache_step. done. }
  unfold s3.
  change [GetOrThrow; JobSettles 0 (Threw e); Resume 0; GetOrThrow;
          JobSettles 1 (Returned v); Resume 1; GetOrThrow]
    with ([GetOrThrow; JobSettles 0 (Threw e); Resume 0; GetOrThrow;
           JobSettles 1 (Returned v); Resume 1] ++ [@GetOrThrow T Err]).
  rewrite cache_run_snoc. cbn [CacheOnSuccess.step].
  rewrite Hs. unfold CacheOnSuccess.getOrThrow. cbn [value promise jobs invoked frames calls].
  destruct (truthy v); cbn [value promise jobs invoked frames calls app fmap list_fmap result].
  all: split; [done|].
  all: rewrite bool_decide_false by set_solver.
  all: rewrite lookup_insert_eq, lookup_insert_ne, lookup_insert_eq by done; done.
Qed.

(** C6. CacheOnSuccess, memoization and retry on failure.  Once a job
    promise has been fulfilled with [v], whatever happens next the job
    is not invoked again and every later call of [getOrThrow] returns a
    promise fulfilled with [v].  When the frame that awaits a rejected
    job promise resumes, [value] and [promise] are both cleared, every
    caller that shares or awaits that job promise has its promise
    rejected with the same error, and the next call invokes the job
    again.  So with a job that throws and then succeeds, three calls
    made one after the other invoke the job twice and give a rejection
    followed by the same value twice. *)
Theorem cache_on_success ins :
  let s := run ins in
  (∀ p v, jobs s !! p = Some (Returned v) →
     ∀ ins', let s' := run (ins ++ ins') in
       invoked s' = invoked s
       ∧ ∃ new, calls s' = calls s ++ new
                ∧ ∀ r, r ∈ new → result s' r = Some (Returned v))
  ∧ (∀ p (e : Err), p ∈ frames s → jobs s !! p = Some (Threw e) →
       let s' := run (ins ++ [Resume p]) in
       value s' = None ∧ promise s' = None
       ∧ (∀ r, r ∈ calls s' → r = Shares p ∨ r = Awaits p →
            result s' r = Some (Threw e))
       ∧ invoked (run (ins ++ [Resume p; GetOrThrow])) = S (invoked s)
       ∧ promise (run (ins ++ [Resume p; GetOrThrow])) = Some (invoked s))
  ∧ (∀ (e : Err) (v : T),
       let s3 := run [GetOrThrow; JobSettles 0 (Threw e); Resume 0;
                      GetOrThrow; JobSettles 1 (Returned v); Resume 1;
                      GetOrThrow] in
       invoked s3 = 2
       ∧ result s3 <$> calls s3
         = [Some (Threw e); Some (Returned v); Some (Returned v)]).
Proof.
  intros s. pose proof (cache_run_invariant ins) as Hinv. fold s in Hinv.
  split_and!.
  - intros p v Hj ins' s'. unfold s'. rewrite cache_run_app. fold s.
    destruct (run_from_sticky s ins' p v (invariant_sticky _ _ _ Hinv Hj))
      as ((_ & Hj' & _) & Hi & new & Hc & Hn).
    split; [done|]. exists new. split; [done|].
    intros r Hr. destruct (Hn r Hr) as [-> | ->]; simpl; done.
  - intros p e Hin Hj s'.
    destruct Hinv as [Hdom Hp].
    destruct (promise s) as [p'|] eqn:Hpr.
    + destruct Hp as (Hi & Hold & [[Hf Hval]|(Hf & _)]);
        rewrite Hf in Hin; [|by apply elem_of_nil in Hin].
      apply list_elem_of_singleton in Hin. subst p'.
      assert (s' = resume p s) as Hs' by (unfold s'; by rewrite cache_run_snoc).
      assert (value s' = None ∧ promise s' = None ∧ frames s' = []
              ∧ jobs s' = jobs s ∧ invoked s' = invoked s) as (Hv' & Hp' & Hf' & Hj' & Hi').
      { rewrite Hs'. unfold resume. rewrite Hf, bool_decide_true, Hj by set_solver.
        simpl. by rewrite decide_True. }
      split_and!; [done..| | |].
      * intros r _ [-> | ->]; simpl; rewrite ?Hf', Hj'; done.
      * rewrite cache_run_app. fold s. simpl. fold s'. rewrite <-Hs'.
        unfold CacheOnSuccess.getOrThrow. rewrite Hv', Hp'. simpl. by rewrite Hi'.
      * rewrite cache_run_app. simpl. fold s. rewrite <-Hs'.
        unfold CacheOnSuccess.getOrThrow. rewrite Hv', Hp'. simpl. by rewrite Hi'.
    + destruct Hp as (_ & Hf & _). rewrite Hf in Hin. by apply elem_of_nil in Hin.
  - apply retry_scenario.
Qed.

Lemma step_cached_falsy v s i :
  truthy v = false → cached_falsy v s → cached_falsy v (step s i).
Proof.
  intros Hv (Hval & Hpr & Hj & Hf & Hi & new & Hc & Hnew).
  destruct i as [|q o|q]; simpl.
  - unfold CacheOnSuccess.getOrThrow. rewrite Hval, Hv, Hpr.
    split_and!; simpl; [done..|].
    exists (new ++ [Shares 0]). split; [by rewrite Hc|].
    intros r [?| ->%list_elem_of_singleton]%elem_of_app; auto.
  - unfold jobSettles. destruct (decide (q < invoked s)); [|by split_and!; eauto].
    assert (q = 0) as -> by lia.
    split_and!; simpl; [done|done| |done..|by eauto].
    by erewrite settle_lookup_settled.
  - unfold resume. rewrite Hf. rewrite bool_decide_false by set_solver.
    split_and!; eauto.
Qed.

Lemma run_from_cached_falsy v s ins :
  truthy v = false → cached_falsy v s → cached_falsy v (run_from s ins).
Proof.
  intros Hv. revert s. induction ins as [|i ins IH]; intros s Hs; [done|].
  apply IH. by apply step_cached_falsy.
Qed.

(** C10. CacheOnSuccess memoizes falsy values too.  When the job
    resolves to a value [v] that fails the truthiness test, then
    whatever calls and events follow, the job has been invoked once in
    all, the fulfilled promise is still remembered, every later call
    got that same promise back, and the promise of every call is
    fulfilled with [v]. *)
Theorem cache_on_success_falsy (v : T) ins :
  truthy v = false →
  let s := run ([GetOrThrow; JobSettles 0 (Returned v); Resume 0] ++ ins) in
  invoked s = 1
  ∧ promise s = Some 0
  ∧ (∃ new, calls s = Awaits 0 :: new ∧ ∀ r, r ∈ new → r = Shares 0)
  ∧ ∀ r, r ∈ calls s → result s r = Some (Returned v).
Proof.
  intros Hv s.
  assert (cached_falsy v s) as (Hval & Hpr & Hj & Hf & Hi & new & Hc & Hnew).
  { unfold s. rewrite cache_run_app. apply run_from_cached_falsy; [done|].
    unfold CacheOnSuccess.run, CacheOnSuccess.run_from.
    cbn [foldl CacheOnSuccess.step CacheOnSuccess.getOrThrow init value promise
         jobs invoked frames calls app].
    repeat cache_step.
    split_and!; simpl; [done|done|apply lookup_insert_eq|done|done|].
    exists []. split; [done|]. by intros r ?%elem_of_nil. }
  split_and!; [done|done|by eauto|].
  intros r. rewrite Hc, elem_of_cons. intros [->|Hr]; simpl.
  - rewrite Hf. by rewrite bool_decide_false by set_solver.
  - by rewrite (Hnew r Hr).
Qed.

End CacheOnSuccessFacts.

(** Numbers, with [0] the falsy one. *)
Lemma cache_on_success_falsy_witness :
  (λ z : Z, negb (bool_decide (z = 0%Z))) 0%Z = false
  ∧ invoked
      (@CacheOnSuccess.run Z string (λ z : Z, negb (bool_decide (z = 0%Z)))
         ([GetOrThrow; JobSettles 0 (Returned 0%Z); Resume 0]
          ++ [GetOrThrow; GetOrThrow]))
    = 1.
Proof.
  split; [reflexivity|].
  apply (cache_on_success_falsy (λ z : Z, negb (bool_decide (z = 0%Z))) 0%Z
           [GetOrThrow; GetOrThrow]).
  reflexivity.
Defined.

End CacheOnSuccessFacts.

(** ** exec *)

Module ExecFacts.
Import Exec.

Lemma append_cons (c : ascii) (a b : string) :
  String c a +:+ b = String c (a +:+ b).
Proof. reflexivity. Qed.

Lemma append_nil_l (b : string) : EmptyString +:+ b = b.
Proof. reflexivity. Qed.

Lemma append_nil_r (s : string) : s +:+ EmptyString = s.
Proof.
  induction s as [|c s IH]; [done|]. by rewrite append_cons, IH.
Qed.

Lemma append_assoc (a b c : string) : (a +:+ b) +:+ c = a +:+ (b +:+ c).
Proof.
  induction a as [|x a IH]; [done|]. by rewrite !append_cons, IH.
Qed.

Lemma last_char_None (s : string) : last_char s = None → s = EmptyString.
Proof.
  induction s as [|c s IH]; simpl; [done|].
  destruct s; [done|]. intros H. by apply IH in H.
Qed.

Lemma last_char_app (a b : string) :
  last_char (a +:+ b)
  = match last_char b with Some c => Some c | None => last_char a end.
Proof.
  induction a as [|x a IH].
  - rewrite append_nil_l. by destruct (last_char b).
  - rewrite append_cons. simpl.
    destruct (a +:+ b) as [|y r] eqn:Hab.
    + destruct a; [|done]. rewrite append_nil_l in Hab. by subst b.
    + rewrite IH. destruct (last_char b) eqn:Hb; [done|].
      apply last_char_None in Hb. subst b. rewrite append_nil_r in Hab.
      by subst a.
Qed.

Lemma last_of_last_char (d : string) :
  last_of d = match last_char d with Some c => Char c | None => Undefined end.
Proof.
  induction d as [|x d IH]; simpl; [done|]. by destruct d.
Qed.

Section ExecFacts.
Context (escapeArray : list string → string).
Context (name : string) (args : list string) (o : ExecOptions).
Implicit Types (s : state) (i : input) (ins : list input).
Implicit Types (r : promise_state (ExecResult + ExecError)).

Abbreviation step := (Exec.step escapeArray name args o).
Abbreviation cancel := (Exec.cancel escapeArray name args o).

Lemma same_or_fulfilled_trans r1 r2 r3 :
  same_or_fulfilled r1 r2 → same_or_fulfilled r2 r3 → same_or_fulfilled r1 r3.
Proof.
  intros [->|[-> [v ->]]] [->|[H [w ->]]];
    unfold same_or_fulfilled; eauto; done.
Qed.

Lemma resolve_result v s : same_or_fulfilled (result s) (result (resolve v s)).
Proof.
  unfold resolve. destruct (result s) eqn:Hr; simpl; [|by left..].
  right. eauto.
Qed.

Lemma resolve_pending v s :
  result s = Pending → result (resolve v s) = Fulfilled v.
Proof. intros Hr. unfold resolve. by rewrite Hr. Qed.

Lemma resolve_settled v s : result s ≠ Pending → resolve v s = s.
Proof. intros Hr. unfold resolve. by destruct (result s). Qed.

Lemma resolve_fields v s :
  out (resolve v s) = out s ∧ err (resolve v s) = err s
  ∧ logged (resolve v s) = logged s ∧ lastChar (resolve v s) = lastChar s.
Proof. unfold resolve. by destruct (result s). Qed.

Lemma flush_fields s :
  out (flush o s) = out s ∧ err (flush o s) = err s
  ∧ result (flush o s) = result s ∧ lastChar (flush o s) = lastChar s.
Proof. unfold flush. by destruct (logger o && needs_newline (lastChar s)). Qed.

Lemma cancel_result exitCode s :
  same_or_fulfilled (result s) (result (cancel exitCode s)).
Proof.
  unfold cancel, Exec.cancel.
  destruct (_ || _); [|by left].
  apply (resolve_result _ (kill s)).
Qed.

Lemma step_result s i : same_or_fulfilled (result s) (result (step s i)).
Proof.
  destruct i as [d|d|st|m|ec|failed]; simpl.
  - destruct (logger o && is_set (logStdout o)); by left.
  - destruct (logger o); by left.
  - destruct (flush_fields s) as (_ & _ & Hr & _). rewrite <-Hr.
    destruct (_ && _).
    + eapply same_or_fulfilled_trans; apply resolve_result.
    + apply resolve_result.
  - destruct (flush_fields s) as (_ & _ & Hr & _). rewrite <-Hr.
    apply resolve_result.
  - destruct (listening s); [apply cancel_result|by left].
  - destruct (treeKills s); [by left|].
    destruct failed; apply (resolve_result _ (Build_state _ _ _ _ _ _ _ _ _ _)).
Qed.

Lemma executor_result child_pid exitCode :
  ∀ reason, result (executor escapeArray name args o child_pid exitCode)
            ≠ Rejected reason.
Proof.
  intros reason. unfold executor.
  destruct (cancellationToken o) as [[|]|]; simpl; [|done..].
  unfold Exec.cancel. destruct (_ || _); done.
Qed.

Lemma exec_snoc child_pid exitCode ins i :
  exec escapeArray name args o child_pid exitCode (ins ++ [i])
  = step (exec escapeArray name args o child_pid exitCode ins) i.
Proof. unfold exec. by rewrite foldl_snoc. Qed.

Lemma exec_never_rejected child_pid exitCode ins reason :
  result (exec escapeArray name args o child_pid exitCode ins) ≠ Rejected reason.
Proof.
  induction ins as [|i ins IH] using rev_ind.
  - apply executor_result.
  - rewrite exec_snoc.
    destruct (step_result (exec escapeArray name args o child_pid exitCode ins) i)
      as [->|[_ [v ->]]]; done.
Qed.

Lemma foldl_step_final s ins v :
  result s = Fulfilled v → result (foldl step s ins) = Fulfilled v.
Proof.
  revert s. induction ins as [|i ins IH]; intros s Hr; simpl; [done|].
  apply IH. destruct (step_result s i) as [->|[H _]]; congruence.
Qed.

Lemma step_out s i :
  out (step s i) = out s +:+ stdout_of [i]
  ∧ err (step s i) = err s +:+ stderr_of [i].
Proof.
  destruct i as [d|d|st|m|ec|failed]; simpl; rewrite ?append_nil_r.
  - by destruct (logger o && is_set (logStdout o)).
  - by destruct (logger o).
  - destruct (flush_fields s) as (Ho & He & _).
    destruct (_ && _); rewrite ?(proj1 (resolve_fields _ _)),
      ?(proj1 (proj2 (resolve_fields _ _))); done.
  - destruct (flush_fields s) as (Ho & He & _).
    by rewrite (proj1 (resolve_fields _ _)), (proj1 (proj2 (resolve_fields _ _))).
  - destruct (listening s); [|done]. unfold Exec.cancel.
    destruct (_ || _); [|done].
    by rewrite (proj1 (resolve_fields _ _)), (proj1 (proj2 (resolve_fields _ _))).
  - destruct (treeKills s); [done|].
    rewrite (proj1 (resolve_fields _ _)), (proj1 (proj2 (resolve_fields _ _))).
    by destruct failed.
Qed.

Lemma stdout_of_app ins ins' :
  stdout_of (ins ++ ins') = stdout_of ins +:+ stdout_of ins'.
Proof.
  induction ins as [|i ins IH]; [done|].
  destruct i; simpl; rewrite IH; [|done..]. by rewrite append_assoc.
Qed.

Lemma stderr_of_app ins ins' :
  stderr_of (ins ++ ins') = stderr_of ins +:+ stderr_of ins'.
Proof.
  induction ins as [|i ins IH]; [done|].
  destruct i; simpl; rewrite IH; [done| |done..]. by rewrite append_assoc.
Qed.

Lemma executor_out child_pid exitCode :
  out (executor escapeArray name args o child_pid exitCode) = EmptyString
  ∧ err (executor escapeArray name args o child_pid exitCode) = EmptyString.
Proof.
  unfold executor. destruct (cancellationToken o) as [[|]|]; simpl; [|done..].
  unfold Exec.cancel. destruct (_ || _); [|done].
  by rewrite (proj1 (resolve_fields _ _)), (proj1 (proj2 (resolve_fields _ _))).
Qed.

(** The captured [stdout] and [stderr] are what the child wrote. *)
Lemma exec_captured child_pid exitCode ins :
  out (exec escapeArray name args o child_pid exitCode ins) = stdout_of ins
  ∧ err (exec escapeArray name args o child_pid exitCode ins) = stderr_of ins.
Proof.
  induction ins as [|i ins [IHo IHe]] using rev_ind.
  - apply executor_out.
  - rewrite exec_snoc, stdout_of_app, stderr_of_app.
    destruct (step_out (exec escapeArray name args o child_pid exitCode ins) i)
      as [-> ->].
    by rewrite IHo, IHe.
Qed.

(** The [close] handler on a pending promise. *)
Lemma close_pending s st :
  result s = Pending →
  result (step s (Close st))
  = Fulfilled
      (if negb (is_set (ignoreNonZeroExit o)) && negb (bool_decide (st = Some 0%Z))
       then inr (mkAbnormalExitError escapeArray name args st (out s) (err s))
       else inl {| exitStatus := st; stdout := out s; stderr := err s |}).
Proof.
  intros Hr. simpl.
  destruct (flush_fields s) as (Ho & He & Hrf & _). rewrite Hr in Hrf.
  destruct (_ && _).
  - rewrite resolve_settled.
    + rewrite resolve_pending by done. by rewrite Ho, He.
    + by rewrite resolve_pending.
  - rewrite resolve_pending by done. by rewrite Ho, He.
Qed.

(** A settled promise stays as it is, also a rejected one. *)
Lemma foldl_step_rejected s ins reason :
  result s = Rejected reason → result (foldl step s ins) = Rejected reason.
Proof.
  revert s. induction ins as [|i ins IH]; intros s Hr; simpl; [done|].
  apply IH. destruct (step_result s i) as [->|[H _]]; congruence.
Qed.

(** While the child only writes, and unless cancellation was requested
    before the call, the promise is pending. *)
Lemma exec_data_pending child_pid exitCode ins :
  cancellationToken o ≠ Some true → forallb is_data ins = true →
  result (exec escapeArray name args o child_pid exitCode ins) = Pending.
Proof.
  intros Htok. induction ins as [|i ins IH] using rev_ind; intros Hdata.
  - unfold exec, realExec, executor. simpl.
    by destruct (cancellationToken o) as [[|]|].
  - rewrite forallb_app in Hdata. apply andb_prop in Hdata as [Hins Hi].
    rewrite exec_snoc. specialize (IH Hins).
    destruct i as [d|d| | | |]; try done; simpl.
    + by destruct (logger o && is_set (logStdout o)).
    + by destruct (logger o).
Qed.

(** C4. Result contract of [exec], and where the code leaves it.  When
    a call made by the promise executor throws, as [childProcess.spawn]
    does on an empty command name, the promise that [exec] returned is
    rejected with what was thrown and stays so, and [execOrThrow]
    throws that, which is no [Error] that [exec] returned.  When the
    child is spawned, the contract holds: after any sequence of events
    of the child process and of the cancellation token the promise is
    pending or fulfilled, never rejected; once fulfilled it keeps its
    value; and when the child, after writing its output, closes, on a
    call for which cancellation was not requested beforehand, the
    promise is fulfilled, whatever comes later, with an
    [AbnormalExitError] carrying the exit status, the output the child
    wrote and the escaped command line if the exit status is not zero
    and [ignoreNonZeroExit] is not set, and with the exit status and
    the output otherwise; [execOrThrow] throws that very error in the
    first case and returns that result in the second. *)
Theorem exec_rejects_when_executor_throws :
  (∀ error ins,
     let s := foldl step (realExec escapeArray name args o (Throws error)) ins in
     result s = Rejected error
     ∧ execOrThrow (result s) = Some (Threw (inr error)))
  ∧ (∀ child_pid exitCode ins reason,
       result (exec escapeArray name args o child_pid exitCode ins)
       ≠ Rejected reason)
  ∧ (∀ child_pid exitCode ins ins' v,
       result (exec escapeArray name args o child_pid exitCode ins) = Fulfilled v →
       result (exec escapeArray name args o child_pid exitCode (ins ++ ins'))
       = Fulfilled v)
  ∧ (∀ child_pid exitCode ins st later,
       cancellationToken o ≠ Some true → forallb is_data ins = true →
       let s := exec escapeArray name args o child_pid exitCode
                  (ins ++ Close st :: later) in
       let error := AbnormalExitError
                      (quote +:+ escapeArray (name :: args) +:+ quote
                       +:+ " failed, exit status: " +:+ show_status st)
                      st (stdout_of ins) (stderr_of ins) in
       let res := {| exitStatus := st; stdout := stdout_of ins;
                     stderr := stderr_of ins |} in
       if negb (is_set (ignoreNonZeroExit o)) && negb (bool_decide (st = Some 0%Z))
       then result s = Fulfilled (inr error)
            ∧ execOrThrow (result s) = Some (Threw (inl error))
       else result s = Fulfilled (inl res)
            ∧ execOrThrow (result s) = Some (Returned res)).
Proof.
  split_and!.
  - intros error ins s. assert (result s = Rejected error) as Hr.
    { by apply foldl_step_rejected. }
    by rewrite Hr.
  - intros child_pid exitCode ins reason. apply exec_never_rejected.
  - intros child_pid exitCode ins ins' v Hr. unfold exec. rewrite foldl_app.
    by apply foldl_step_final.
  - intros child_pid exitCode ins st later Htok Hdata s error res.
    pose proof (exec_data_pending child_pid exitCode ins Htok Hdata) as Hp.
    destruct (exec_captured child_pid exitCode ins) as [Ho He].
    pose proof (close_pending _ st Hp) as Hc. rewrite Ho, He in Hc.
    assert (result s
            = Fulfilled
                (if negb (is_set (ignoreNonZeroExit o))
                    && negb (bool_decide (st = Some 0%Z))
                 then inr error else inl res)) as Hs.
    { unfold s, exec. rewrite foldl_app. cbn [foldl].
      apply foldl_step_final. fold (exec escapeArray name args o child_pid exitCode ins).
      rewrite Hc. unfold error, res, mkAbnormalExitError, quoted.
      by rewrite !append_assoc. }
    rewrite Hs. by destruct (_ && _).
Qed.

(** *** What reaches the logger *)

Lemma foldr_append_base (l : list string) (b : string) :
  foldr String.append b l = foldr String.append EmptyString l +:+ b.
Proof.
  induction l as [|x l IH]; simpl; [done|]. by rewrite IH, append_assoc.
Qed.

Lemma log_text_append s chunk :
  log_text (append chunk s) = log_text s +:+ chunk.
Proof.
  unfold log_text. simpl. rewrite foldr_app. simpl.
  by rewrite append_nil_r, foldr_append_base.
Qed.

Lemma log_ok_newline s :
  last_char (log_text s) = Some newline → log_ok s.
Proof. intros H. unfold log_ok. destruct (lastChar s); auto. Qed.

Lemma flush_newline s :
  logger o = true → log_ok s →
  last_char (log_text (flush o s)) = Some newline.
Proof.
  intros Hl Hok. unfold flush, log_ok in *. rewrite Hl. simpl.
  destruct (lastChar s) as [| |c]; simpl in *.
  - done.
  - by rewrite log_text_append, last_char_app.
  - destruct (bool_decide (c = newline)) eqn:Hc; simpl.
    + apply bool_decide_eq_true in Hc. subst c. by destruct Hok.
    + by rewrite log_text_append, last_char_app.
Qed.

Lemma data_log_ok s d o' e' :
  log_ok (set_output o' e' (last_of d) (append d s)).
Proof.
  unfold log_ok. simpl.
  change (log_text (set_output o' e' (last_of d) (append d s)))
    with (log_text (append d s)).
  rewrite log_text_append, last_char_app, last_of_last_char.
  destruct (last_char d); auto.
Qed.

Lemma resolve_log v s :
  log_text (resolve v s) = log_text s.
Proof. unfold log_text. by rewrite (proj1 (proj2 (proj2 (resolve_fields v s)))). Qed.

Lemma resolve_log_ok v s : log_ok s → log_ok (resolve v s).
Proof.
  unfold log_ok. rewrite resolve_log.
  by rewrite (proj2 (proj2 (proj2 (resolve_fields v s)))).
Qed.

Lemma cancel_log_ok exitCode s : log_ok s → log_ok (cancel exitCode s).
Proof.
  intros H. unfold Exec.cancel. destruct (_ || _); [|done].
  by apply resolve_log_ok.
Qed.

Lemma step_log_ok s i : logger o = true → log_ok s → log_ok (step s i).
Proof.
  intros Hl Hok. destruct i as [d|d|st|m|ec|failed]; simpl.
  - rewrite Hl. simpl. destruct (is_set (logStdout o)); [apply data_log_ok|done].
  - rewrite Hl. apply data_log_ok.
  - pose proof (flush_newline s Hl Hok) as Hn.
    apply resolve_log_ok. destruct (_ && _); [apply resolve_log_ok|];
      by apply log_ok_newline.
  - apply resolve_log_ok, log_ok_newline. by apply flush_newline.
  - destruct (listening s); [by apply cancel_log_ok|done].
  - destruct (treeKills s); [done|]. apply resolve_log_ok. by destruct failed.
Qed.

Lemma executor_log_ok child_pid exitCode :
  logger o = true →
  log_ok (executor escapeArray name args o child_pid exitCode).
Proof.
  intros Hl.
  assert (∀ s, lastChar s = Empty →
               logged s = [escapeArray (name :: args) +:+ nl] → log_ok s) as Hstart.
  { intros s Hc Hlog. unfold log_ok, log_text. rewrite Hc, Hlog. simpl.
    by rewrite append_nil_r, last_char_app. }
  unfold executor. rewrite Hl.
  destruct (cancellationToken o) as [[|]|]; [|by apply Hstart..].
  apply cancel_log_ok. by apply Hstart.
Qed.

Lemma exec_log_ok child_pid exitCode ins :
  logger o = true →
  log_ok (exec escapeArray name args o child_pid exitCode ins).
Proof.
  intros Hl. induction ins as [|i ins IH] using rev_ind.
  - by apply executor_log_ok.
  - rewrite exec_snoc. by apply step_log_ok.
Qed.

(** C5 (amended). Logging of [exec].  With a logger, the data of the
    child reaches the logger in the chunks in which it arrives,
    unchanged (standard error always, standard output when [logStdout]
    is set); when the [close] or the [error] event is handled, a
    newline is appended if the last character logged was not one, and
    after that all that was logged, taken in one piece, ends with a
    newline. *)
Theorem exec_log_ends_with_newline child_pid exitCode ins :
  logger o = true →
  let s := exec escapeArray name args o child_pid exitCode ins in
  (∀ d, logged (step s (StderrData d)) = logged s ++ [d])
  ∧ (∀ d, is_set (logStdout o) = true →
       logged (step s (StdoutData d)) = logged s ++ [d])
  ∧ (∀ st, logged (step s (Close st))
           = logged s ++ (if needs_newline (lastChar s) then [nl] else []))
  ∧ (∀ st, ends_with_newline (log_text (step s (Close st))) = true)
  ∧ (∀ m, ends_with_newline (log_text (step s (Error m))) = true).
Proof.
  intros Hl s. pose proof (exec_log_ok child_pid exitCode ins Hl) as Hok.
  fold s in Hok. split_and!.
  - intros d. simpl. by rewrite Hl.
  - intros d Hs. simpl. by rewrite Hl, Hs.
  - intros st. simpl.
    rewrite (proj1 (proj2 (proj2 (resolve_fields _ _)))).
    assert (logged (flush o s)
            = logged s ++ if needs_newline (lastChar s) then [nl] else []) as Hf.
    { unfold flush. rewrite Hl. simpl.
      destruct (needs_newline (lastChar s)); simpl; [done|by rewrite app_nil_r]. }
    destruct (_ && _); [|done].
    by rewrite (proj1 (proj2 (proj2 (resolve_fields _ _)))).
  - intros st. unfold ends_with_newline. apply bool_decide_eq_true.
    pose proof (step_log_ok s (Close st) Hl Hok) as _.
    simpl. rewrite resolve_log.
    destruct (_ && _); rewrite ?resolve_log; by apply flush_newline.
  - intros m. unfold ends_with_newline. apply bool_decide_eq_true.
    simpl. rewrite resolve_log. by apply flush_newline.
Qed.

End ExecFacts.

(** [exec('', [])] with a logger.  The command line is logged,
    [childProcess.spawn] throws on the empty name, and the promise is
    rejected: [await exec('', [])] throws what [spawn] threw. *)
Lemma exec_empty_name_rejected :
  let s := realExec join_words EmptyString [] logging_options
             (Throws "ERR_INVALID_ARG_VALUE") in
  logged s = [nl]
  ∧ result s = Rejected "ERR_INVALID_ARG_VALUE"
  ∧ execOrThrow (result s) = Some (Threw (inr "ERR_INVALID_ARG_VALUE")).
Proof. vm_compute. done. Qed.

(** [exec('false', [])] with a child that writes [oops] to its standard
    error and exits with status 1: the promise is fulfilled with the
    [AbnormalExitError], which [execOrThrow] throws. *)
Lemma exec_false_returns_error :
  let s := exec join_words "false" [] logging_options (Some 4242) None
             [StderrData "oops"; Close (Some 1%Z)] in
  let error := AbnormalExitError
                 (quote +:+ "false" +:+ quote +:+ " failed, exit status: 1")
                 (Some 1%Z) EmptyString "oops" in
  result s = Fulfilled (inr error)
  ∧ execOrThrow (result s) = Some (Threw (inl error)).
Proof. vm_compute. done. Qed.

(** The run of the test that logs both streams: the child writes
    [foo] to its standard output and [bar] to its standard error, both
    without a newline, and exits with status 0. *)
Lemma logged_chunks_of_test :
  logged (exec join_words "sh" ["-c"; "echo -n foo; echo -n bar 1>&2;"]
            logging_options (Some 4242) None
            [StdoutData "foo"; StderrData "bar"; Close (Some 0%Z)])
  = ["sh -c echo -n foo; echo -n bar 1>&2;" +:+ nl; "foo"; "bar"; nl].
Proof. reflexivity. Qed.

(** Not every chunk given to the logger ends with a newline. *)
Lemma logged_chunk_without_newline :
  ¬ ∀ chunk,
      chunk ∈ logged (exec join_words "sh"
                        ["-c"; "echo -n foo; echo -n bar 1>&2;"]
                        logging_options (Some 4242) None
                        [StdoutData "foo"; StderrData "bar"; Close (Some 0%Z)]) →
      ends_with_newline chunk = true.
Proof.
  intros H. specialize (H "foo"). rewrite logged_chunks_of_test in H.
  assert (ends_with_newline "foo" = true) as Hfoo.
  { apply H. right. left. }
  discriminate Hfoo.
Qed.

Lemma exec_log_ends_with_newline_witness :
  logger logging_options = true
  ∧ ends_with_newline
      (log_text
         (Exec.step join_words "sh" ["-c"; "echo -n foo; echo -n bar 1>&2;"]
            logging_options
            (exec join_words "sh" ["-c"; "echo -n foo; echo -n bar 1>&2;"]
               logging_options (Some 4242) None
               [StdoutData "foo"; StderrData "bar"])
            (Close (Some 0%Z))))
    = true.
Proof.
  split; [reflexivity|].
  apply (exec_log_ends_with_newline join_words "sh"
           ["-c"; "echo -n foo; echo -n bar 1>&2;"] logging_options
           (Some 4242) None [StdoutData "foo"; StderrData "bar"]).
  reflexivity.
Defined.

End ExecFacts.

(** ** Ebuild *)

Module EbuildFacts.
Import Ebuild.

Lemma split_at_colon (a1 a2 b1 b2 : string) :
  contains ":" a1 = false → contains ":" a2 = false →
  a1 +:+ ":" +:+ b1 = a2 +:+ ":" +:+ b2 → a1 = a2 ∧ b1 = b2.
Proof.
  revert a2. induction a1 as [|x a1 IH]; intros [|y a2]; simpl.
  - intros _ _. rewrite !ExecFacts.append_nil_l, !ExecFacts.append_cons.
    by intros [= ->%(inj (String.append EmptyString))].
  - intros _ [Hy _]%orb_false_elim.
    rewrite !ExecFacts.append_nil_l, !ExecFacts.append_cons.
    intros [= <- _]. by rewrite bool_decide_true in Hy.
  - intros [Hx _]%orb_false_elim _.
    rewrite !ExecFacts.append_nil_l, !ExecFacts.append_cons.
    intros [= -> _]. by rewrite bool_decide_true in Hx.
  - intros [_ H1]%orb_false_elim [_ H2]%orb_false_elim.
    rewrite !ExecFacts.append_cons. intros [= -> Heq].
    destruct (IH a2 H1 H2 Heq) as [-> ->]. done.
Qed.

(** Between two package names with as many slashes each and two
    absolute paths, the colon that separates them is found again. *)
Lemma split_package_root (p1 p2 r1 r2 : string) :
  occurrences "/" p1 = occurrences "/" p2 →
  is_absolute r1 = true → is_absolute r2 = true →
  p1 +:+ ":" +:+ r1 = p2 +:+ ":" +:+ r2 → p1 = p2 ∧ r1 = r2.
Proof.
  assert (∀ p r r', is_absolute r = true → occurrences "/" p = 0 →
            ":" +:+ r = p +:+ ":" +:+ r' → p = EmptyString ∧ r = r') as Hshort.
  { intros [|y p] r r' Hr Hocc.
    - rewrite !ExecFacts.append_nil_l, !ExecFacts.append_cons.
      by intros [= ->%(inj (String.append EmptyString))].
    - rewrite !ExecFacts.append_cons, ExecFacts.append_nil_l.
      intros [= <- ->]. exfalso. simpl in Hocc.
      destruct p as [|z p].
      + rewrite ExecFacts.append_nil_l in Hr. by simpl in Hr.
      + rewrite ExecFacts.append_cons in Hr. simpl in Hr, Hocc.
        apply bool_decide_eq_true in Hr as ->.
        by rewrite bool_decide_true in Hocc. }
  revert p2. induction p1 as [|x p1 IH]; intros p2 Hocc Hr1 Hr2 Heq.
  - destruct (Hshort p2 r1 r2 Hr1) as [-> ->]; [by rewrite <-Hocc| |done].
    by rewrite ExecFacts.append_nil_l in Heq.
  - destruct p2 as [|y p2].
    + symmetry in Heq. rewrite (ExecFacts.append_nil_l (":" +:+ r2)) in Heq.
      by destruct (Hshort (String x p1) r2 r1 Hr2) as [? _].
    + rewrite !ExecFacts.append_cons in Heq. injection Heq as -> Heq.
      simpl in Hocc. apply Nat.add_cancel_l in Hocc.
      by destruct (IH p2 Hocc Hr1 Hr2 Heq) as [-> ->].
Qed.

Section EbuildFacts.
Context {BoardOrHost : Type}.
Context (toString : BoardOrHost → string) (sysroot : BoardOrHost → string).
Context (join : list string → string).
Context {Reason : Type}.
Context (rm : Root → string → option Reason).

Abbreviation ebuild := (@Ebuild BoardOrHost).
Abbreviation key := (Ebuild.key toString).
Abbreviation mutex_state :=
  (@Mutex.state ebuild (option Artifact) (CompdbError Reason)).
Abbreviation mutex_input :=
  (@Mutex.input ebuild (option Artifact) (CompdbError Reason)).
Abbreviation sys_run := (@Ebuild.run BoardOrHost toString Reason).
Abbreviation sys_step := (@Ebuild.step BoardOrHost toString Reason).
Abbreviation get_mutex := (@Ebuild.mutex BoardOrHost toString Reason).
Abbreviation sys_inv := (@Ebuild.sys_inv BoardOrHost toString Reason).

Implicit Types (sys : @system BoardOrHost Reason) (e : ebuild).
Implicit Types (ins : list (@input BoardOrHost Reason)).

(** With a board string and a package name free of colons, the key
    determines its three components. *)
Lemma key_inj e1 e2 :
  contains ":" (toString (board e1)) = false →
  contains ":" (qualifiedPackageName e1) = false →
  contains ":" (toString (board e2)) = false →
  contains ":" (qualifiedPackageName e2) = false →
  key e1 = key e2 →
  toString (board e1) = toString (board e2)
  ∧ qualifiedPackageName e1 = qualifiedPackageName e2
  ∧ source_root e1 = source_root e2.
Proof.
  intros Hb1 Hp1 Hb2 Hp2 Hk. unfold Ebuild.key in Hk.
  apply split_at_colon in Hk as [Hb Hk]; [|done..].
  apply split_at_colon in Hk as [Hp Hr]; done.
Qed.

(** On the ebuilds that [generate] is called on, the key determines
    its three components. *)
Lemma key_inj_well_formed e1 e2 :
  well_formed toString e1 = true → well_formed toString e2 = true →
  key e1 = key e2 →
  toString (board e1) = toString (board e2)
  ∧ qualifiedPackageName e1 = qualifiedPackageName e2
  ∧ source_root e1 = source_root e2.
Proof.
  unfold well_formed.
  intros [[Hb1%negb_true_iff Hp1%bool_decide_eq_true]%andb_prop Hr1]%andb_prop
         [[Hb2%negb_true_iff Hp2%bool_decide_eq_true]%andb_prop Hr2]%andb_prop Hk.
  unfold Ebuild.key in Hk.
  apply split_at_colon in Hk as [Hb Hk]; [|done..].
  apply split_package_root in Hk as [Hp Hr]; [done|congruence|done..].
Qed.

Lemma sys_inv_start : sys_inv (@start BoardOrHost Reason).
Proof. split; simpl; intros *; by rewrite ?lookup_empty. Qed.

Lemma mutex_inv e sys :
  sys_inv sys →
  sys_inv (get_mutex e sys).2
  ∧ globalMutexMap (get_mutex e sys).2 !! key e = Some (get_mutex e sys).1.
Proof.
  intros [Hb Hi Hh]. unfold Ebuild.mutex.
  destruct (globalMutexMap sys !! key e) as [m|] eqn:Hk; simpl; [done|].
  split; [|apply lookup_insert_eq]. split; simpl.
  - intros k m. rewrite lookup_insert, length_app. simpl.
    case_decide; [intros [= <-]; lia|]. intros ?%Hb. lia.
  - intros k1 k2 m. rewrite !lookup_insert.
    repeat case_decide; subst; try done.
    + intros [= <-] ?%Hb. lia.
    + intros ?%Hb [= <-]. lia.
    + apply Hi.
  - intros m st. rewrite lookup_app_Some. intros [Hm|[Hlen Hm]].
    + destruct (Hh m st Hm) as (k & mins & Hk' & -> & Hkeys).
      exists k, mins. split_and!; [|done..].
      rewrite lookup_insert_ne; [done|]. intros <-. congruence.
    + destruct (m - length (heap sys)) as [|n] eqn:Hn; simpl in Hm; [|done].
      injection Hm as <-. exists (key e), []. split_and!.
      * rewrite lookup_insert_eq. f_equal. lia.
      * done.
      * intros t ?%elem_of_nil. done.
Qed.

Lemma alter_inv sys m (i : mutex_input) :
  (∀ j, i ≠ Mutex.RunExclusive j) →
  sys_inv sys →
  sys_inv {| globalMutexMap := globalMutexMap sys;
             heap := alter (λ st, Mutex.step st i) m (heap sys) |}.
Proof.
  intros Hi [Hb Hinj Hh]. split; simpl.
  - intros k m'. rewrite length_alter. apply Hb.
  - done.
  - intros m' st'. destruct (decide (m = m')) as [<-|Hne].
    + rewrite list_lookup_alter_eq.
      destruct (heap sys !! m) as [st|] eqn:Hm; simpl; [|done].
      intros [= <-]. destruct (Hh m st Hm) as (k & mins & Hk & -> & Hkeys).
      exists k, (mins ++ [i]). split_and!; [done| |].
      * by rewrite MutexFacts.mutex_run_snoc.
      * unfold Mutex.submitted.
        by rewrite MutexFacts.submitted_from_snoc_other.
    + rewrite list_lookup_alter_ne by done. apply Hh.
Qed.

Lemma generate_inv e sys : sys_inv sys → sys_inv (generate toString e sys).2.
Proof.
  intros H. unfold generate.
  destruct (mutex_inv e sys H) as [H1 Hk].
  destruct (get_mutex e sys) as [m sys1]. simpl in *.
  destruct (heap sys1 !! m) as [st|] eqn:Hm; [|done].
  destruct (Mutex.runExclusive e st) as [p st'] eqn:Hrun. simpl.
  assert (st' = Mutex.step st (Mutex.RunExclusive e)) as ->.
  { change (st' = (Mutex.runExclusive e st).2). by rewrite Hrun. }
  destruct H1 as [Hb Hinj Hh]. split; simpl.
  - intros k m'. rewrite length_insert. apply Hb.
  - done.
  - intros m' st''. destruct (decide (m = m')) as [<-|Hne].
    + rewrite list_lookup_insert_eq by (by eapply lookup_lt_Some).
      intros [= <-]. destruct (Hh m st Hm) as (k & mins & Hk' & -> & Hkeys).
      exists k, (mins ++ [Mutex.RunExclusive e]). split_and!; [done| |].
      * by rewrite MutexFacts.mutex_run_snoc.
      * intros t. rewrite MutexFacts.submitted_snoc_run, elem_of_app,
          list_elem_of_singleton.
        intros [?| ->]; [by apply Hkeys|]. simpl. by apply (Hinj _ _ m).
    + rewrite list_lookup_insert_ne by done. apply Hh.
Qed.

Lemma step_inv sys i : sys_inv sys → sys_inv (sys_step sys i).
Proof.
  intros H. destruct i as [e|m o|m]; simpl.
  - by apply generate_inv.
  - by apply (alter_inv sys m (Mutex.JobSettles o)).
  - by apply (alter_inv sys m Mutex.Immediate).
Qed.

Lemma sys_run_snoc ins i : sys_run (ins ++ [i]) = sys_step (sys_run ins) i.
Proof. unfold Ebuild.run. by rewrite foldl_snoc. Qed.

Lemma run_inv ins : sys_inv (sys_run ins).
Proof.
  induction ins as [|i ins IH] using rev_ind.
  - apply sys_inv_start.
  - rewrite sys_run_snoc. by apply step_inv.
Qed.

Lemma mutex_persist e sys k m :
  globalMutexMap sys !! k = Some m →
  globalMutexMap (get_mutex e sys).2 !! k = Some m.
Proof.
  intros Hk. unfold Ebuild.mutex.
  destruct (globalMutexMap sys !! key e) eqn:He; simpl; [done|].
  rewrite lookup_insert_ne; [done|]. intros <-. congruence.
Qed.

(** The registry never forgets a mutex. *)
Lemma sys_step_persist sys i k m :
  globalMutexMap sys !! k = Some m →
  globalMutexMap (sys_step sys i) !! k = Some m.
Proof.
  intros Hk. destruct i as [e|m' o|m']; simpl; [|done..].
  unfold generate. pose proof (mutex_persist e sys k m Hk) as Hp.
  destruct (get_mutex e sys) as [m1 sys1]. simpl in Hp.
  destruct (heap sys1 !! m1); [|done].
  by destruct (Mutex.runExclusive e _).
Qed.

Lemma sys_run_persist ins ins' k m :
  globalMutexMap (sys_run ins) !! k = Some m →
  globalMutexMap (sys_run (ins ++ ins')) !! k = Some m.
Proof.
  intros Hk. induction ins' as [|i ins' IH] using rev_ind.
  - by rewrite app_nil_r.
  - rewrite (assoc_L (++)), sys_run_snoc. by apply sys_step_persist.
Qed.

(** Equal keys, identical mutex: the second lookup finds the mutex of
    the first and creates nothing. *)
Lemma mutex_same e1 e2 sys :
  sys_inv sys → key e1 = key e2 →
  get_mutex e2 (get_mutex e1 sys).2 = get_mutex e1 sys.
Proof.
  intros H Hk. destruct (mutex_inv e1 sys H) as [_ H1].
  unfold Ebuild.mutex at 1. rewrite <-Hk, H1.
  by destruct (get_mutex e1 sys).
Qed.

(** Different keys, different mutexes. *)
Lemma mutex_distinct e1 e2 sys :
  sys_inv sys → key e1 ≠ key e2 →
  (get_mutex e1 sys).1 ≠ (get_mutex e2 (get_mutex e1 sys).2).1.
Proof.
  intros H Hk Heq. destruct (mutex_inv e1 sys H) as [H1 Hk1].
  destruct (mutex_inv e2 _ H1) as [H2 Hk2].
  apply (mutex_persist e2) in Hk1. rewrite Heq in Hk1.
  by apply Hk, (si_inj _ _ H2 _ _ _ Hk1 Hk2).
Qed.

Lemma executing_bodies_spec sys m e :
  (m, e) ∈ executing_bodies sys
  ↔ ∃ st t, heap sys !! m = Some st ∧ Mutex.awaiting st = Some t
            ∧ Mutex.job t = e.
Proof.
  unfold executing_bodies. rewrite list_elem_of_omap. split.
  - intros ([m' st] & (i & st' & [= -> ->] & Hl)%elem_of_lookup_imap & Hx).
    simpl in Hx. destruct (Mutex.awaiting st') as [t|] eqn:Ha; simplify_eq/=.
    eauto.
  - intros (st & t & Hl & Ha & <-). exists (m, st). split.
    + apply elem_of_lookup_imap. eauto.
    + simpl. by rewrite Ha.
Qed.

(** Two bodies executing at once under equal keys are in the same
    mutex, which executes one body at a time: they are one execution. *)
Lemma executing_same_key sys m1 m2 e1 e2 :
  sys_inv sys →
  (m1, e1) ∈ executing_bodies sys → (m2, e2) ∈ executing_bodies sys →
  key e1 = key e2 → m1 = m2 ∧ e1 = e2.
Proof.
  intros H (st1 & t1 & Hl1 & Ha1 & <-)%executing_bodies_spec
           (st2 & t2 & Hl2 & Ha2 & <-)%executing_bodies_spec Hk.
  destruct (si_heap _ _ H _ _ Hl1) as (k1 & mins1 & Hk1 & -> & Hkeys1).
  destruct (si_heap _ _ H _ _ Hl2) as (k2 & mins2 & Hk2 & -> & Hkeys2).
  assert (∀ (mins : list mutex_input) t,
            Mutex.awaiting (Mutex.run mins) = Some t →
            t ∈ Mutex.submitted mins) as Hsub.
  { intros mins t Ha.
    rewrite (Mutex.inv_fifo _ _ (MutexFacts.mutex_run_invariant mins)), Ha.
    rewrite !elem_of_app. right. left. by apply list_elem_of_singleton. }
  pose proof (Hkeys1 _ (Hsub _ _ Ha1)) as Hj1.
  pose proof (Hkeys2 _ (Hsub _ _ Ha2)) as Hj2.
  assert (m1 = m2) as <- by congruence.
  split; [done|]. congruence.
Qed.

Lemma generate_fresh e sys :
  globalMutexMap sys !! key e = None →
  (generate toString e sys).2
  = {| globalMutexMap := <[key e := length (heap sys)]> (globalMutexMap sys);
       heap := heap sys ++ [(Mutex.runExclusive e Mutex.init).2] |}.
Proof.
  intros Hk. unfold generate, Ebuild.mutex. rewrite Hk.
  cbn [globalMutexMap heap fst snd].
  rewrite lookup_app_r, Nat.sub_diag by done. cbn [lookup list_lookup].
  destruct (Mutex.runExclusive e Mutex.init) as [p st'].
  cbn [globalMutexMap heap fst snd]. f_equal.
  rewrite insert_app_r_alt, Nat.sub_diag by done. done.
Qed.

(** Two generations under different keys run at the same time. *)
Lemma different_keys_concurrent e1 e2 :
  key e1 ≠ key e2 →
  executing_bodies (sys_run [Generate e1; Generate e2]) = [(0, e1); (1, e2)].
Proof.
  intros Hk. unfold Ebuild.run. cbn [foldl Ebuild.step].
  rewrite (generate_fresh e1) by apply lookup_empty.
  rewrite (generate_fresh e2)
    by (cbn [globalMutexMap]; rewrite lookup_insert_ne by done;
        apply lookup_empty).
  reflexivity.
Qed.

(** C7. Keying of the compilation-database mutexes.  At any moment:
    two operations whose board, package name and source root are equal
    have equal keys, and two operations with equal keys get the
    identical mutex from the registry, the second lookup creating
    nothing; a registered mutex stays registered for good; two
    operations with different keys get different mutexes; two generate
    bodies executing at the same moment under equal keys are one and
    the same execution in one mutex, and each mutex runs its bodies
    one after the other; two operations with different keys do run at
    the same time.  On the ebuilds that [generate] is called on (a
    board string without a colon, a package name with one slash, an
    absolute source root) equal keys mean equal board string, package
    name and source root, so two such operations that differ in one of
    the three get different mutexes and run at the same time; the same
    holds whenever neither board strings nor package names contain a
    colon. *)
Theorem compdb_mutex_keying ins :
  let sys := sys_run ins in
  (∀ e1 e2, board e1 = board e2 →
     qualifiedPackageName e1 = qualifiedPackageName e2 →
     source_root e1 = source_root e2 → key e1 = key e2)
  ∧ (∀ e1 e2, key e1 = key e2 →
       get_mutex e2 (get_mutex e1 sys).2 = get_mutex e1 sys)
  ∧ (∀ k m ins', globalMutexMap sys !! k = Some m →
       globalMutexMap (sys_run (ins ++ ins')) !! k = Some m)
  ∧ (∀ e1 e2, key e1 ≠ key e2 →
       (get_mutex e1 sys).1 ≠ (get_mutex e2 (get_mutex e1 sys).2).1)
  ∧ (∀ m1 m2 e1 e2,
       (m1, e1) ∈ executing_bodies sys → (m2, e2) ∈ executing_bodies sys →
       key e1 = key e2 → m1 = m2 ∧ e1 = e2)
  ∧ (∀ m (st : mutex_state), heap sys !! m = Some st →
       Mutex.trace st
       = Mutex.serial_trace (Mutex.completed (Mutex.trace st)) (Mutex.awaiting st))
  ∧ (∀ e1 e2, key e1 ≠ key e2 →
       executing_bodies (sys_run [Generate e1; Generate e2])
       = [(0, e1); (1, e2)])
  ∧ (∀ e1 e2,
       well_formed toString e1 = true → well_formed toString e2 = true →
       key e1 = key e2 →
       toString (board e1) = toString (board e2)
       ∧ qualifiedPackageName e1 = qualifiedPackageName e2
       ∧ source_root e1 = source_root e2)
  ∧ (∀ e1 e2,
       well_formed toString e1 = true → well_formed toString e2 = true →
       (toString (board e1) ≠ toString (board e2)
        ∨ qualifiedPackageName e1 ≠ qualifiedPackageName e2
        ∨ source_root e1 ≠ source_root e2) →
       (get_mutex e1 sys).1 ≠ (get_mutex e2 (get_mutex e1 sys).2).1
       ∧ executing_bodies (sys_run [Generate e1; Generate e2])
         = [(0, e1); (1, e2)])
  ∧ (∀ e1 e2,
       contains ":" (toString (board e1)) = false →
       contains ":" (qualifiedPackageName e1) = false →
       contains ":" (toString (board e2)) = false →
       contains ":" (qualifiedPackageName e2) = false →
       key e1 = key e2 →
       toString (board e1) = toString (board e2)
       ∧ qualifiedPackageName e1 = qualifiedPackageName e2
       ∧ source_root e1 = source_root e2).
Proof.
  intros sys. pose proof (run_inv ins) as H. fold sys in H. split_and!.
  - intros e1 e2 Hb Hp Hr. unfold Ebuild.key. by rewrite Hb, Hp, Hr.
  - intros e1 e2. by apply mutex_same.
  - intros k m ins'. apply sys_run_persist.
  - intros e1 e2. by apply mutex_distinct.
  - intros m1 m2 e1 e2. by apply executing_same_key.
  - intros m st Hl. destruct (si_heap _ _ H _ _ Hl) as (k & mins & _ & -> & _).
    apply (Mutex.inv_trace _ _ (MutexFacts.mutex_run_invariant mins)).
  - apply different_keys_concurrent.
  - apply key_inj_well_formed.
  - intros e1 e2 Hw1 Hw2 Hdiff.
    assert (key e1 ≠ key e2) as Hk.
    { intros Hk. destruct (key_inj_well_formed e1 e2 Hw1 Hw2 Hk) as (? & ? & ?).
      by destruct Hdiff as [?|[?|?]]. }
    split; [by apply mutex_distinct|by apply different_keys_concurrent].
  - apply key_inj.
Qed.

(** *** removeCache *)

Abbreviation remove_markers := (Ebuild.remove_markers join rm).
Abbreviation remove_dir := (Ebuild.remove_dir join rm).
Abbreviation remove_dirs := (Ebuild.remove_dirs join rm).

(** For one build directory: nothing is thrown if the two markers
    could be removed through one of the roots. *)
Lemma remove_dir_tolerates dir :
  (remove_markers Chroot dir).2 = None ∨ (remove_markers Out dir).2 = None →
  (remove_dir dir).2 = None.
Proof.
  unfold Ebuild.remove_dir. simpl. unfold through_root.
  destruct (remove_markers Chroot dir) as [eff1 [x1|]];
    destruct (remove_markers Out dir) as [eff2 [x2|]]; simpl; [|done..].
  by intros [?|?].
Qed.

(** If the removal fails through both roots, the error built for the
    root tried last is thrown. *)
Lemma remove_dir_throws dir (x1 x2 : CompdbError Reason) :
  (remove_markers Chroot dir).2 = Some x1 →
  (remove_markers Out dir).2 = Some x2 →
  (remove_dir dir).2 = Some (Some x2).
Proof.
  unfold Ebuild.remove_dir. simpl. unfold through_root.
  destruct (remove_markers Chroot dir) as [eff1 [x1'|]];
    destruct (remove_markers Out dir) as [eff2 [x2'|]]; simpl; try done.
  by intros _ [= ->].
Qed.

(** Over all build directories: nothing is thrown if every directory
    could be cleaned through one of the roots. *)
Lemma remove_dirs_tolerates dirs :
  (∀ dir, dir ∈ dirs →
     (remove_markers Chroot dir).2 = None ∨ (remove_markers Out dir).2 = None) →
  (remove_dirs dirs).2 = None.
Proof.
  induction dirs as [|dir dirs IH]; intros Hall; [done|].
  cbn [Ebuild.remove_dirs].
  pose proof (remove_dir_tolerates dir (Hall dir ltac:(left))) as Hd.
  assert ((remove_dirs dirs).2 = None) as Hrest.
  { apply IH. intros d Hd'. apply Hall. by right. }
  destruct (remove_dir dir) as [eff [thrown|]]; [done|].
  by destruct (remove_dirs dirs) as [eff' r].
Qed.

(** *** artifactPath *)

(** Without a candidate, [undefined] is returned and nothing is thrown. *)
Lemma artifactPath_none (stat : Root → string → option Z)
    (root : Root → string) e :
  (∀ fs file, stat fs file = None) →
  artifactPath sysroot join stat root e = None.
Proof.
  intros Hnone. unfold artifactPath, candidates, candidates_in, buildDirs.
  simpl. by rewrite !Hnone.
Qed.

(** With a single candidate, that candidate is returned. *)
Lemma artifactPath_single (stat : Root → string → option Z)
    (root : Root → string) e c :
  candidates sysroot join stat root e = [c] →
  artifactPath sysroot join stat root e = Some c.2.
Proof. intros Hc. unfold artifactPath. by rewrite Hc. Qed.

End EbuildFacts.

(** The ebuild of the examples is one that [generate] is called on, and
    so is the same package built for the host. *)
Lemma codelab_on_betty_well_formed :
  well_formed id codelab_on_betty = true
  ∧ well_formed id
      {| board := "host"; qualifiedPackageName := "chromeos-base/codelab";
         source_root := "/home/user/chromiumos"; useFlags := [] |} = true.
Proof. done. Qed.

(** The date strings of the two modification times of the example. *)
Lemma date_strings :
  JsDate.toString thursday_noon
  = "Thu Nov 05 2026 12:00:00 GMT+0000 (Coordinated Universal Time)"
  ∧ JsDate.toString wednesday_noon
    = "Wed Nov 04 2026 12:00:00 GMT+0000 (Coordinated Universal Time)"
  ∧ JsDate.toString 0
    = "Thu Jan 01 1970 00:00:00 GMT+0000 (Coordinated Universal Time)".
Proof. split_and!; vm_compute; reflexivity. Qed.

(** C9. Artifact selection.  With an artifact written on Thursday in
    the incremental build directory and an artifact written the day
    before in the work directory, both are candidates and
    [artifactPath] returns the one of the day before: the candidates
    are sorted by their string forms, which start with the name of the
    weekday, and not by modification time. *)
Theorem artifactPath_returns_older :
  candidates board_sysroot join_segments two_artifacts checkout_root
    codelab_on_betty
  = [(thursday_noon,
      {| baseDir := "/home/user/chromiumos/chroot"; path := incremental_artifact |});
     (wednesday_noon,
      {| baseDir := "/home/user/chromiumos/chroot"; path := work_artifact |})]
  ∧ artifactPath board_sysroot join_segments two_artifacts checkout_root
      codelab_on_betty
    = Some {| baseDir := "/home/user/chromiumos/chroot"; path := work_artifact |}
  ∧ (wednesday_noon < thursday_noon)%Z.
Proof. split_and!; [vm_compute; reflexivity..|done]. Qed.

(** Off the ebuilds that [generate] is called on, the key does not
    determine its components.  Two ebuilds whose package names and
    source roots differ, the package name of one with two slashes, and
    whose keys are nevertheless equal: they get the same mutex, and the
    body of the second waits for the body of the first. *)
Lemma colon_keys_collide :
  well_formed id colon_in_root = true
  ∧ well_formed id colon_in_package = false
  ∧ qualifiedPackageName colon_in_root ≠ qualifiedPackageName colon_in_package
  ∧ source_root colon_in_root ≠ source_root colon_in_package
  ∧ (mutex id colon_in_package
       (mutex id colon_in_root (@start string string)).2).1
    = (mutex id colon_in_root (@start string string)).1
  ∧ executing_bodies
      (@run string id string [Generate colon_in_root; Generate colon_in_package])
    = [(0, colon_in_root)].
Proof.
  split_and!; [done|done|done|done| |].
  - by rewrite (mutex_same id colon_in_root colon_in_package _ (sys_inv_start id)).
  - vm_compute. reflexivity.
Qed.

(** C8. The error raised by [removeCache].  On a system where every
    removal through the chroot fails with [EACCES] and every removal
    through the out directory fails with [EROFS], [removeCache] raises
    the cache-removal error built from [EROFS], the error met last,
    while the error met first is the one built from [EACCES]. *)
Theorem removeCache_raises_last_error :
  (removeCache board_sysroot join_segments
     (failing_rm (Some "EACCES") (Some "EROFS")) codelab_on_betty).2
  = Some (Some (RemoveCache
                  "/build/betty/var/cache/portage/chromeos-base/codelab/.configured"
                  "EROFS"))
  ∧ head (removal_errors join_segments
            (failing_rm (Some "EACCES") (Some "EROFS"))
            "/build/betty/var/cache/portage/chromeos-base/codelab")
    = Some (RemoveCache
              "/build/betty/var/cache/portage/chromeos-base/codelab/.configured"
              "EACCES").
Proof. split; vm_compute; reflexivity. Qed.

End EbuildFacts.

(** ** exec: cancellation, the [error] event, and the logging options *)

Module ExecCancelFacts.
Import Exec.

Section ExecCancelFacts.
Context (escapeArray : list string → string).
Context (name : string) (args : list string).
Implicit Types (o : ExecOptions) (s : state) (i : input) (ins : list input).

Abbreviation run_exec := (Exec.exec escapeArray name args).
Abbreviation exec_step := (Exec.step escapeArray name args).
Abbreviation cancelled := (mkCancelledError escapeArray name args).

Lemma resolve_calls v s :
  pid (resolve v s) = pid s ∧ listening (resolve v s) = listening s
  ∧ kills (resolve v s) = kills s ∧ treeKills (resolve v s) = treeKills s.
Proof. unfold resolve. by destruct (result s). Qed.

Lemma flush_calls o s :
  pid (flush o s) = pid s ∧ listening (flush o s) = listening s
  ∧ kills (flush o s) = kills s ∧ treeKills (flush o s) = treeKills s.
Proof. unfold flush. by destruct (logger o && needs_newline (lastChar s)). Qed.

(** No handler changes the process id or registers a listener. *)
Lemma step_pid_listening o s i :
  pid (exec_step o s i) = pid s ∧ listening (exec_step o s i) = listening s.
Proof.
  destruct i as [d|d|st|m|ec|failed]; simpl.
  - by destruct (logger o && is_set (logStdout o)).
  - by destruct (logger o).
  - destruct (flush_calls o s) as (Hp & Hl & _).
    destruct (_ && _);
      rewrite ?(proj1 (resolve_calls _ _)), ?(proj1 (proj2 (resolve_calls _ _)));
      done.
  - destruct (flush_calls o s) as (Hp & Hl & _).
    by rewrite (proj1 (resolve_calls _ _)), (proj1 (proj2 (resolve_calls _ _))).
  - destruct (listening s) eqn:Hl; [|done]. unfold Exec.cancel.
    destruct (_ || _); [|done].
    by rewrite (proj1 (resolve_calls _ _)), (proj1 (proj2 (resolve_calls _ _))).
  - destruct (treeKills s); [done|].
    rewrite (proj1 (resolve_calls _ _)), (proj1 (proj2 (resolve_calls _ _))).
    by destruct failed.
Qed.

Lemma exec_pid_listening o child_pid exitCode ins :
  pid (run_exec o child_pid exitCode ins)
  = pid (executor escapeArray name args o child_pid exitCode)
  ∧ listening (run_exec o child_pid exitCode ins)
    = listening (executor escapeArray name args o child_pid exitCode).
Proof.
  induction ins as [|i ins [IHp IHl]] using rev_ind; [done|].
  rewrite ExecFacts.exec_snoc.
  destruct (step_pid_listening o (run_exec o child_pid exitCode ins) i) as [-> ->].
  done.
Qed.

(** Without a listener and without a tree kill under way, no handler
    touches the child process. *)
Lemma step_quiet o s i :
  (listening s = false ∨ ∀ ec, i ≠ CancellationRequested ec) →
  treeKills s = 0 →
  kills (exec_step o s i) = kills s ∧ treeKills (exec_step o s i) = 0.
Proof.
  intros Hl Ht. destruct i as [d|d|st|m|ec|failed]; simpl.
  - by destruct (logger o && is_set (logStdout o)).
  - by destruct (logger o).
  - destruct (flush_calls o s) as (_ & _ & Hk & Htk).
    destruct (_ && _);
      rewrite ?(proj1 (proj2 (proj2 (resolve_calls _ _)))),
        ?(proj2 (proj2 (proj2 (resolve_calls _ _)))); by rewrite ?Hk, ?Htk.
  - destruct (flush_calls o s) as (_ & _ & Hk & Htk).
    rewrite ?(proj1 (proj2 (proj2 (resolve_calls _ _)))),
      ?(proj2 (proj2 (proj2 (resolve_calls _ _)))). by rewrite ?Hk, ?Htk.
  - destruct Hl as [->|Hne]; [done|]. by destruct (Hne ec).
  - by rewrite Ht.
Qed.

(** X1. A call whose cancellation token is already cancelled, and for
    which no tree kill applies (the option is not set, the child has no
    process id, or it has exited): the child is killed once, at the
    call, the promise is fulfilled with a [CancelledError] at once, and
    no later event of the child changes that or kills again. *)
Theorem exec_cancelled_at_call o child_pid exitCode ins :
  cancellationToken o = Some true →
  treeKillWhenCancelling o ≠ Some true ∨ child_pid = None ∨ exitCode ≠ None →
  let s := run_exec o child_pid exitCode ins in
  result s = Fulfilled (inr cancelled) ∧ kills s = 1 ∧ treeKills s = 0
  ∧ listening s = false.
Proof.
  intros Htok Hkill.
  assert (let s0 := executor escapeArray name args o child_pid exitCode in
          result s0 = Fulfilled (inr cancelled) ∧ kills s0 = 1
          ∧ treeKills s0 = 0 ∧ listening s0 = false) as H0.
  { unfold executor. rewrite Htok. unfold Exec.cancel. cbn [pid].
    assert (negb (bool_decide (treeKillWhenCancelling o = Some true))
            || bool_decide (child_pid = None)
            || negb (bool_decide (exitCode = None)) = true) as ->.
    { destruct Hkill as [H|[H|H]].
      - by rewrite (bool_decide_false _ H).
      - rewrite (bool_decide_true _ H). by rewrite orb_true_r.
      - rewrite (bool_decide_false _ H). by rewrite orb_true_r. }
    done. }
  induction ins as [|i ins IH] using rev_ind; [exact H0|].
  rewrite ExecFacts.exec_snoc. cbn zeta in *.
  destruct IH as (Hr & Hk & Ht & Hl).
  destruct (step_quiet o _ i (or_introl Hl) Ht) as [Hk' Ht'].
  destruct (step_pid_listening o (run_exec o child_pid exitCode ins) i) as [_ Hl'].
  split_and!; [|congruence..].
  destruct (ExecFacts.step_result escapeArray name args o
              (run_exec o child_pid exitCode ins) i) as [->|[H _]]; congruence.
Qed.

(** X2. Cancellation with [treeKillWhenCancelling], for a child that
    has a process id and has not exited: the request starts the tree
    kill and settles nothing; the promise is fulfilled when the tree
    kill reports back, with a [CancelledError] if it was still pending;
    and [command.kill()] is called then only if the tree kill failed. *)
Theorem exec_tree_kill o p ins failed :
  cancellationToken o = Some false →
  treeKillWhenCancelling o = Some true →
  let s := run_exec o (Some p) None ins in
  let s1 := exec_step o s (CancellationRequested None) in
  let s2 := exec_step o s1 (TreeKillDone failed) in
  result s1 = result s ∧ kills s1 = kills s ∧ treeKills s1 = S (treeKills s)
  ∧ (result s = Pending → result s2 = Fulfilled (inr cancelled))
  ∧ kills s2 = kills s + (if failed then 1 else 0)
  ∧ treeKills s2 = treeKills s.
Proof.
  intros Htok Htree s.
  destruct (exec_pid_listening o (Some p) None ins) as [Hp Hl].
  fold s in Hp, Hl. unfold executor in Hp, Hl. rewrite Htok in Hp, Hl.
  cbn in Hp, Hl.
  assert (exec_step o s (CancellationRequested None)
          = {| out := out s; err := err s; lastChar := lastChar s;
               logged := logged s; result := result s; pid := pid s;
               stdin := stdin s; listening := listening s; kills := kills s;
               treeKills := S (treeKills s) |}) as Hs1.
  { cbn [Exec.step]. rewrite Hl. unfold Exec.cancel. rewrite Htree, Hp.
    rewrite (bool_decide_true (Some true = Some true)) by done.
    rewrite (bool_decide_false (Some p = None)) by done.
    rewrite (bool_decide_true (@None Z = None)) by done. simpl. by rewrite Hl. }
  cbn zeta. rewrite Hs1. cbn [Exec.step treeKills result kills].
  split_and!; [done..| | |].
  - intros Hr. apply ExecFacts.resolve_pending. by destruct failed.
  - rewrite (proj1 (proj2 (proj2 (resolve_calls _ _)))).
    destruct failed; simpl; lia.
  - rewrite (proj2 (proj2 (proj2 (resolve_calls _ _)))). by destruct failed.
Qed.

Lemma resolve_cases v s :
  result (resolve v s) = result s ∨ result (resolve v s) = Fulfilled v.
Proof. unfold resolve. destruct (result s) eqn:Hr; simpl; auto. Qed.

Lemma step_not_cancelled o s i :
  (listening s = false ∨ ∀ ec, i ≠ CancellationRequested ec) →
  treeKills s = 0 →
  (∀ m, result s ≠ Fulfilled (inr (CancelledError m))) →
  ∀ m, result (exec_step o s i) ≠ Fulfilled (inr (CancelledError m)).
Proof.
  intros Hl Ht Hr m. destruct i as [d|d|st|msg|ec|failed]; simpl.
  - destruct (logger o && is_set (logStdout o)); apply Hr.
  - destruct (logger o); apply Hr.
  - destruct (ExecFacts.flush_fields o s) as (_ & _ & Hf & _).
    destruct (_ && _).
    + destruct (resolve_cases
        (inl {| exitStatus := st;
                stdout := out (resolve (inr (mkAbnormalExitError escapeArray
                                 name args st (out (flush o s)) (err (flush o s))))
                               (flush o s));
                stderr := err (resolve (inr (mkAbnormalExitError escapeArray
                                 name args st (out (flush o s)) (err (flush o s))))
                               (flush o s)) |})
        (resolve (inr (mkAbnormalExitError escapeArray name args st
                         (out (flush o s)) (err (flush o s)))) (flush o s)))
        as [->| ->]; [|done].
      destruct (resolve_cases
        (inr (mkAbnormalExitError escapeArray name args st
                (out (flush o s)) (err (flush o s)))) (flush o s))
        as [->| ->]; [|done].
      rewrite Hf. apply Hr.
    + destruct (resolve_cases
        (inl {| exitStatus := st; stdout := out (flush o s);
                stderr := err (flush o s) |}) (flush o s)) as [->| ->]; [|done].
      rewrite Hf. apply Hr.
  - destruct (ExecFacts.flush_fields o s) as (_ & _ & Hf & _).
    destruct (resolve_cases (inr (mkProcessError escapeArray name args msg))
                (flush o s)) as [->| ->]; [|done].
    rewrite Hf. apply Hr.
  - destruct Hl as [->|Hne]; [apply Hr|]. by destruct (Hne ec).
  - rewrite Ht. apply Hr.
Qed.

Lemma exec_without_request o child_pid exitCode ins :
  cancellationToken o = None
  ∨ (cancellationToken o = Some false ∧ ∀ ec, CancellationRequested ec ∉ ins) →
  let s := run_exec o child_pid exitCode ins in
  kills s = 0 ∧ treeKills s = 0
  ∧ ∀ m, result s ≠ Fulfilled (inr (CancelledError m)).
Proof.
  intros Htok. cbn zeta.
  induction ins as [|i ins IH] using rev_ind.
  - unfold Exec.exec, realExec, executor. simpl.
    by destruct Htok as [->|[-> _]].
  - rewrite ExecFacts.exec_snoc.
    destruct IH as (Hk & Ht & Hr).
    { destruct Htok as [?|[? Hno]]; [by left|right]. split; [done|].
      intros ec Hin. apply (Hno ec). apply elem_of_app. by left. }
    assert (listening (run_exec o child_pid exitCode ins) = false
            ∨ ∀ ec, i ≠ CancellationRequested ec) as Hq.
    { destruct Htok as [Hnone|[_ Hno]].
      - left. rewrite (proj2 (exec_pid_listening o child_pid exitCode ins)).
        unfold executor. by rewrite Hnone.
      - right. intros ec ->. apply (Hno ec). apply elem_of_app. right. by left. }
    destruct (step_quiet o _ i Hq Ht) as [Hk' Ht'].
    split_and!; [congruence|done|].
    by apply step_not_cancelled.
Qed.

(** X3. [command.kill()] and [treeKill] are reached through the
    cancellation token only.  Without a token, or with a token on which
    cancellation is not requested, whatever the child does: the child
    is never killed and the promise is never fulfilled with a
    [CancelledError]. *)
Theorem exec_kills_only_on_request o child_pid exitCode ins :
  cancellationToken o = None
  ∨ (cancellationToken o = Some false ∧ ∀ ec, CancellationRequested ec ∉ ins) →
  let s := run_exec o child_pid exitCode ins in
  kills s = 0 ∧ treeKills s = 0
  ∧ ∀ m, result s ≠ Fulfilled (inr (CancelledError m)).
Proof. apply exec_without_request. Qed.

Abbreviation observable s :=
  (out s, err s, result s, pid s, listening s, kills s, treeKills s).

Lemma resolve_observable v s :
  observable (resolve v s)
  = (out s, err s,
     match result s with Pending => Fulfilled v | r => r end,
     pid s, listening s, kills s, treeKills s).
Proof. unfold resolve. destruct (result s) eqn:Hr; simpl; by rewrite ?Hr. Qed.

Lemma flush_observable o s : observable (flush o s) = observable s.
Proof. unfold flush. by destruct (logger o && needs_newline (lastChar s)). Qed.

Lemma resolve_result_eq v s :
  result (resolve v s) = match result s with Pending => Fulfilled v | r => r end.
Proof. unfold resolve. destruct (result s) eqn:Hr; simpl; by rewrite ?Hr. Qed.

Lemma resolve_out v s : out (resolve v s) = out s.
Proof. apply ExecFacts.resolve_fields. Qed.

Lemma resolve_err v s : err (resolve v s) = err s.
Proof. apply ExecFacts.resolve_fields. Qed.

Lemma resolve_pid v s : pid (resolve v s) = pid s.
Proof. apply resolve_calls. Qed.

Lemma resolve_listening v s : listening (resolve v s) = listening s.
Proof. apply resolve_calls. Qed.

Lemma resolve_kills v s : kills (resolve v s) = kills s.
Proof. apply resolve_calls. Qed.

Lemma resolve_treeKills v s : treeKills (resolve v s) = treeKills s.
Proof. apply resolve_calls. Qed.

Ltac observe :=
  rewrite ?resolve_result_eq, ?resolve_out, ?resolve_err, ?resolve_pid,
    ?resolve_listening, ?resolve_kills, ?resolve_treeKills;
  simpl; simplify_eq;
  repeat match goal with H : _ = _ |- _ => rewrite H end; done.

Lemma step_observable o1 o2 s1 s2 i :
  ignoreNonZeroExit o1 = ignoreNonZeroExit o2 →
  treeKillWhenCancelling o1 = treeKillWhenCancelling o2 →
  observable s1 = observable s2 →
  observable (exec_step o1 s1 i) = observable (exec_step o2 s2 i).
Proof.
  intros Hi Ht Hs.
  assert (∀ v, observable (resolve v s1) = observable (resolve v s2)) as Hres.
  { intros v. rewrite !resolve_observable. observe. }
  destruct i as [d|d|st|msg|ec|failed]; cbn [Exec.step].
  - destruct (logger o1 && is_set (logStdout o1)),
      (logger o2 && is_set (logStdout o2)); simpl; observe.
  - destruct (logger o1), (logger o2); simpl; observe.
  - pose proof (flush_observable o1 s1) as H1.
    pose proof (flush_observable o2 s2) as H2.
    rewrite <-Hi.
    destruct (negb (is_set (ignoreNonZeroExit o1)) && _); observe.
  - pose proof (flush_observable o1 s1) as H1.
    pose proof (flush_observable o2 s2) as H2.
    observe.
  - assert (listening s1 = listening s2) as Hl by observe.
    rewrite <-Hl. destruct (listening s1) eqn:Hl1; [|observe].
    unfold Exec.cancel. rewrite <-Ht.
    assert (pid s1 = pid s2) as <- by observe.
    destruct (_ || _); observe.
  - assert (treeKills s1 = treeKills s2) as <- by observe.
    destruct (treeKills s1) eqn:Ht1; [observe|].
    destruct failed; observe.
Qed.

(** X4. Logging does not change what a call does.  Two calls that
    differ at most in [logger], [logStdout], [pipeStdin], [cwd] and
    [env], and whose child processes behave alike, capture the same
    output, settle their promises alike and make the same calls on the
    child. *)
Theorem exec_result_ignores_logging o1 o2 child_pid exitCode ins :
  ignoreNonZeroExit o1 = ignoreNonZeroExit o2 →
  cancellationToken o1 = cancellationToken o2 →
  treeKillWhenCancelling o1 = treeKillWhenCancelling o2 →
  let s1 := run_exec o1 child_pid exitCode ins in
  let s2 := run_exec o2 child_pid exitCode ins in
  result s1 = result s2 ∧ out s1 = out s2 ∧ err s1 = err s2
  ∧ kills s1 = kills s2 ∧ treeKills s1 = treeKills s2.
Proof.
  intros Hi Hc Ht. cbn zeta.
  assert (observable (run_exec o1 child_pid exitCode ins)
          = observable (run_exec o2 child_pid exitCode ins)) as H;
    [|by simplify_eq].
  induction ins as [|i ins IH] using rev_ind.
  - unfold Exec.exec, realExec, executor. simpl. rewrite <-Hc.
    destruct (cancellationToken o1) as [[|]|]; [|done..].
    unfold Exec.cancel. rewrite <-Ht. cbn [pid].
    destruct (_ || _); [|done]. by rewrite !resolve_observable.
  - rewrite !ExecFacts.exec_snoc. by apply step_observable.
Qed.

Lemma resolve_logged v s : logged (resolve v s) = logged s.
Proof. apply ExecFacts.resolve_fields. Qed.

Lemma step_logged o s i :
  ∃ chunks,
    logged (exec_step o s i) = logged s ++ chunks
    ∧ Forall (λ c, logger o = true
                   ∧ (c = nl ∨ i = StderrData c
                      ∨ (is_set (logStdout o) = true ∧ i = StdoutData c)))
             chunks.
Proof.
  assert (∃ chunks,
    logged (flush o s) = logged s ++ chunks
    ∧ Forall (λ c, logger o = true
                   ∧ (c = nl ∨ i = StderrData c
                      ∨ (is_set (logStdout o) = true ∧ i = StdoutData c)))
             chunks) as (fl & Hfl & Hall).
  { unfold flush. destruct (logger o) eqn:Hl; simpl.
    - destruct (needs_newline (lastChar s)).
      + exists [nl]. split; [done|]. repeat constructor.
      + exists []. by rewrite app_nil_r.
    - exists []. by rewrite app_nil_r. }
  destruct i as [d|d|st|msg|ec|failed]; cbn [Exec.step].
  - destruct (logger o) eqn:Hl; simpl.
    + destruct (is_set (logStdout o)) eqn:Hs.
      * exists [d]. split; [done|]. constructor; [|done]. auto.
      * exists []. by rewrite app_nil_r.
    + exists []. by rewrite app_nil_r.
  - destruct (logger o) eqn:Hl; simpl.
    + exists [d]. split; [done|]. constructor; [|done]. auto.
    + exists []. by rewrite app_nil_r.
  - exists fl. split; [|done].
    destruct (_ && _); by rewrite ?resolve_logged.
  - exists fl. split; [|done]. by rewrite resolve_logged.
  - exists []. rewrite app_nil_r. split; [|done].
    destruct (listening s); [|done]. unfold Exec.cancel.
    destruct (_ || _); [|done]. by rewrite resolve_logged.
  - exists []. rewrite app_nil_r. split; [|done].
    destruct (treeKills s); [done|]. rewrite resolve_logged. by destruct failed.
Qed.

(** X5. What reaches the logger.  Without a logger nothing is logged.
    With one, every chunk logged is the escaped command line followed
    by a newline, a single newline, a chunk that the child wrote to its
    standard error, or, only if [logStdout] is set, a chunk that the
    child wrote to its standard output. *)
Theorem exec_logged_chunks o child_pid exitCode ins :
  let s := run_exec o child_pid exitCode ins in
  (logger o = false → logged s = [])
  ∧ Forall (λ c, logger o = true
                 ∧ (c = escapeArray (name :: args) +:+ nl ∨ c = nl
                    ∨ StderrData c ∈ ins
                    ∨ (is_set (logStdout o) = true ∧ StdoutData c ∈ ins)))
           (logged s).
Proof.
  cbn zeta.
  assert (Forall (λ c, logger o = true
                 ∧ (c = escapeArray (name :: args) +:+ nl ∨ c = nl
                    ∨ StderrData c ∈ ins
                    ∨ (is_set (logStdout o) = true ∧ StdoutData c ∈ ins)))
           (logged (run_exec o child_pid exitCode ins))) as Hall.
  { induction ins as [|i ins IH] using rev_ind.
    - unfold Exec.exec, realExec, executor. simpl.
      assert (∀ s, logged (cancel escapeArray name args o exitCode s) = logged s)
        as Hc.
      { intros s. unfold Exec.cancel. destruct (_ || _); [|done].
        by rewrite resolve_logged. }
      destruct (cancellationToken o) as [[|]|]; rewrite ?Hc; simpl;
        (destruct (logger o) eqn:Hl; [|done]); constructor; auto.
    - rewrite ExecFacts.exec_snoc.
      destruct (step_logged o (run_exec o child_pid exitCode ins) i)
        as (chunks & -> & Hch).
      apply Forall_app. split.
      + eapply Forall_impl; [exact IH|]. simpl.
        intros c (Hl & [?|[?|[?|[? ?]]]]); (split; [done|]); auto.
        * right. right. left. apply elem_of_app. by left.
        * right. right. right. split; [done|]. apply elem_of_app. by left.
      + eapply Forall_impl; [exact Hch|]. simpl.
        intros c (Hl & [?|[->|[? ->]]]); (split; [done|]); auto.
        * right. right. left. apply elem_of_app. right. by left.
        * right. right. right. split; [done|]. apply elem_of_app. right. by left. }
  split; [|done].
  intros Hl. destruct (logged (run_exec o child_pid exitCode ins)) as [|c l];
    [done|].
  apply Forall_cons in Hall as [[Hl' _] _]. congruence.
Qed.

(** X6. The [error] event.  When the child emits [error] while the
    promise is pending, the promise is fulfilled with a [ProcessError]
    whose message is the quoted escaped command line, [failed:] and the
    message of the cause, and nothing that happens later changes
    that. *)
Theorem exec_error_event o child_pid exitCode ins msg ins' :
  result (run_exec o child_pid exitCode ins) = Pending →
  result (run_exec o child_pid exitCode (ins ++ Error msg :: ins'))
  = Fulfilled (inr (ProcessError
                      (quote +:+ escapeArray (name :: args) +:+ quote
                       +:+ " failed: " +:+ msg))).
Proof.
  intros Hr. unfold Exec.exec. rewrite foldl_app. cbn [foldl].
  apply ExecFacts.foldl_step_final. cbn [Exec.step].
  rewrite ExecFacts.resolve_pending.
  - unfold mkProcessError, quoted. by rewrite !ExecFacts.append_assoc.
  - by rewrite (proj1 (proj2 (proj2 (ExecFacts.flush_fields o _)))).
Qed.

End ExecCancelFacts.

(** Options of example calls: no logger; the token as given, tree
    kill as given. *)
Abbreviation options_with token tree :=
  {| logger := false; logStdout := None; ignoreNonZeroExit := None;
     pipeStdin := None; cancellationToken := token;
     treeKillWhenCancelling := tree; cwd := None; env := None |}.

Lemma exec_cancelled_at_call_witness :
  cancellationToken (options_with (Some true) None) = Some true
  ∧ kills (Exec.exec join_words "sleep" ["10"] (options_with (Some true) None)
             (Some 4242) None [Close None; CancellationRequested None]) = 1.
Proof.
  split; [reflexivity|].
  apply (exec_cancelled_at_call join_words "sleep" ["10"]
           (options_with (Some true) None)
           (Some 4242) None [Close None; CancellationRequested None]).
  - reflexivity.
  - left. discriminate.
Defined.

Lemma exec_tree_kill_witness :
  cancellationToken (options_with (Some false) (Some true)) = Some false
  ∧ treeKillWhenCancelling (options_with (Some false) (Some true)) = Some true
  ∧ kills (Exec.step join_words "sleep" ["10"]
             (options_with (Some false) (Some true))
             (Exec.step join_words "sleep" ["10"]
                (options_with (Some false) (Some true))
                (Exec.exec join_words "sleep" ["10"]
                   (options_with (Some false) (Some true)) (Some 4242) None
                   [StdoutData "zz"])
                (CancellationRequested None))
             (TreeKillDone true))
    = kills (Exec.exec join_words "sleep" ["10"]
               (options_with (Some false) (Some true)) (Some 4242) None
               [StdoutData "zz"]) + 1.
Proof.
  split; [reflexivity|]. split; [reflexivity|].
  apply (exec_tree_kill join_words "sleep" ["10"]
           (options_with (Some false) (Some true)) 4242 [StdoutData "zz"] true);
    reflexivity.
Defined.

Lemma exec_kills_only_on_request_witness :
  cancellationToken (options_with None (Some true)) = None
  ∧ kills (Exec.exec join_words "sleep" ["10"] (options_with None (Some true))
             (Some 4242) None
             [CancellationRequested None; TreeKillDone false; Close (Some 1%Z)])
    = 0.
Proof.
  split; [reflexivity|].
  apply (exec_kills_only_on_request join_words "sleep" ["10"]
           (options_with None (Some true)) (Some 4242) None
           [CancellationRequested None; TreeKillDone false; Close (Some 1%Z)]).
  left. reflexivity.
Defined.

Lemma exec_result_ignores_logging_witness :
  ignoreNonZeroExit logging_options = ignoreNonZeroExit (options_with None None)
  ∧ result (Exec.exec join_words "sh" ["-c"; "exit 1"] logging_options
              (Some 4242) None [StderrData "bar"; Close (Some 1%Z)])
    = result (Exec.exec join_words "sh" ["-c"; "exit 1"] (options_with None None)
                (Some 4242) None [StderrData "bar"; Close (Some 1%Z)]).
Proof.
  split; [reflexivity|].
  apply (exec_result_ignores_logging join_words "sh" ["-c"; "exit 1"]
           logging_options (options_with None None) (Some 4242) None
           [StderrData "bar"; Close (Some 1%Z)]); reflexivity.
Defined.

Lemma exec_error_event_witness :
  result (Exec.exec join_words "does_not_exist" [] logging_options None None [])
  = Pending
  ∧ result (Exec.exec join_words "does_not_exist" [] logging_options None None
              ([] ++ [Error "spawn does_not_exist ENOENT"; Close (Some (-2)%Z)]))
    = Fulfilled
        (inr (ProcessError
                (quote +:+ join_words ["does_not_exist"] +:+ quote
                 +:+ " failed: " +:+ "spawn does_not_exist ENOENT"))).
Proof.
  split; [reflexivity|].
  apply (exec_error_event join_words "does_not_exist" [] logging_options
           None None [] "spawn does_not_exist ENOENT" [Close (Some (-2)%Z)]).
  reflexivity.
Defined.

End ExecCancelFacts.

(** ** Ebuild: cache removal, artifact lookup and the body of [generate] *)

Module GenerateFacts.
Import Ebuild Generate.

Section GenerateFacts.
Context {BoardOrHost : Type}.
Context (sysroot : BoardOrHost → string).
Context (suffixedExecutable : BoardOrHost → string → string).
Context (join : list string → string).
Context {Reason : Type}.
Context (rm : Root → string → option Reason).
Context (stat : Root → string → option Z) (root : Root → string).
Context (trim : string → string).

Abbreviation markers := (Ebuild.remove_markers join rm).
Abbreviation in_dir := (Ebuild.remove_dir join rm).
Abbreviation in_dirs := (Ebuild.remove_dirs join rm).
Abbreviation remove_cache := (Ebuild.removeCache sysroot join rm).
Abbreviation generate_body :=
  (Generate.body sysroot suffixedExecutable join rm stat root trim).

Implicit Types (e : @Ebuild BoardOrHost) (dir : string) (fs : Root).

(** The two markers of [dir] can be removed through [fs]. *)
Abbreviation removable fs dir :=
  (rm fs (join [dir; ".configured"]) = None
   ∧ rm fs (join [dir; ".compiled"]) = None).

Lemma markers_none fs dir : (markers fs dir).2 = None ↔ removable fs dir.
Proof.
  unfold Ebuild.remove_markers.
  destruct (rm fs (join [dir; ".configured"])); simpl.
  { split; [done|]. by intros [? _]. }
  destruct (rm fs (join [dir; ".compiled"])); simpl.
  { split; [done|]. by intros [_ ?]. }
  done.
Qed.

Lemma markers_some fs dir x :
  (markers fs dir).2 = Some x →
  ∃ cache reason,
    x = RemoveCache cache reason
    ∧ (cache = join [dir; ".configured"] ∨ cache = join [dir; ".compiled"])
    ∧ rm fs cache = Some reason.
Proof.
  unfold Ebuild.remove_markers.
  destruct (rm fs (join [dir; ".configured"])) as [r|] eqn:H1; simpl.
  - intros [= <-]. eauto 6.
  - destruct (rm fs (join [dir; ".compiled"])) as [r|] eqn:H2; simpl; [|done].
    intros [= <-]. eauto 6.
Qed.

Lemma in_dir_cases dir :
  ((in_dir dir).2 = None
   ∧ ((markers Chroot dir).2 = None ∨ (markers Out dir).2 = None))
  ∨ (∃ x, (in_dir dir).2 = Some (Some x) ∧ (markers Out dir).2 = Some x
          ∧ is_Some (markers Chroot dir).2).
Proof.
  unfold Ebuild.remove_dir. simpl. unfold through_root.
  destruct (markers Chroot dir) as [eff1 [x1|]];
    destruct (markers Out dir) as [eff2 [x2|]]; simpl; eauto 7.
Qed.

Lemma in_dirs_cons dir dirs :
  in_dirs (dir :: dirs)
  = match (in_dir dir).2 with
    | Some thrown => ((in_dir dir).1, Some thrown)
    | None => ((in_dir dir).1 ++ (in_dirs dirs).1, (in_dirs dirs).2)
    end.
Proof.
  cbn [Ebuild.remove_dirs].
  destruct (in_dir dir) as [eff [thrown|]]; [done|].
  by destruct (in_dirs dirs).
Qed.

Lemma in_dirs_none dirs :
  (in_dirs dirs).2 = None
  ↔ ∀ dir, dir ∈ dirs → ∃ fs, removable fs dir.
Proof.
  induction dirs as [|dir dirs IH].
  - split; [|done]. intros _ dir Hin. by apply elem_of_nil in Hin.
  - rewrite in_dirs_cons.
    destruct (in_dir_cases dir) as [[Hd Hok]|(x & Hd & Hout & [y Hch])];
      rewrite Hd; simpl.
    + rewrite IH. split.
      * intros Hall d [->|Hin]%elem_of_cons; [|by apply Hall].
        destruct Hok as [H|H]; apply markers_none in H; eauto.
      * intros Hall d Hin. apply Hall. by right.
    + split; [done|]. intros Hall.
      destruct (Hall dir) as [fs Hfs]; [by left|].
      apply markers_none in Hfs. destruct fs; congruence.
Qed.

(** X7. [removeCache] completes without throwing exactly when, for
    every build directory, both markers could be removed through one
    and the same root, the chroot or the out directory. *)
Theorem removeCache_succeeds_iff e :
  (removeCache sysroot join rm e).2 = None
  ↔ ∀ dir, dir ∈ buildDirs sysroot join e → ∃ fs, removable fs dir.
Proof. apply in_dirs_none. Qed.

Lemma in_dirs_some dirs thrown :
  (in_dirs dirs).2 = Some thrown →
  ∃ dir x, dir ∈ dirs ∧ thrown = Some x ∧ (markers Out dir).2 = Some x
           ∧ is_Some (markers Chroot dir).2.
Proof.
  induction dirs as [|dir dirs IH]; [done|].
  rewrite in_dirs_cons.
  destruct (in_dir_cases dir) as [[Hd Hok]|(x & Hd & Hout & Hch)];
    rewrite Hd; simpl.
  - intros (d & x & Hin & ?)%IH. exists d, x. split; [by right|done].
  - intros [= <-]. exists dir, x. split; [by left|done].
Qed.

Lemma removeCache_throws_cases e thrown :
  (remove_cache e).2 = Some thrown →
  ∃ cache reason, thrown = Some (RemoveCache cache reason).
Proof.
  intros (dir & x & Hin & -> & Hout & Hch)%in_dirs_some.
  apply markers_some in Hout as (cache & reason & -> & _). eauto.
Qed.

(** X8. What [removeCache] throws.  It never throws [undefined]: the
    error is a [CompdbError] of kind [RemoveCache] that names a marker
    file of a build directory and carries the error with which the
    removal of that file through the out directory failed; the removal
    through the chroot had failed as well. *)
Theorem removeCache_throws_compdb_error e thrown :
  (removeCache sysroot join rm e).2 = Some thrown →
  ∃ dir cache reason,
    dir ∈ buildDirs sysroot join e
    ∧ thrown = Some (RemoveCache cache reason)
    ∧ (cache = join [dir; ".configured"] ∨ cache = join [dir; ".compiled"])
    ∧ rm Out cache = Some reason
    ∧ ¬ removable Chroot dir.
Proof.
  intros (dir & x & Hin & -> & Hout & Hch)%in_dirs_some.
  apply markers_some in Hout as (cache & reason & -> & Hcache & Hrm).
  exists dir, cache, reason. split_and!; [done..|].
  intros Hok%markers_none. rewrite Hok in Hch. by destruct Hch.
Qed.

(** X9. [removeCache] stops at the first build directory that could
    be cleaned through neither root: the directories before it have
    been gone through, what it throws is what that directory gives, and
    nothing is announced or removed for the directories after it. *)
Theorem removeCache_stops_at_failure dirs1 dir dirs2 thrown :
  (remove_dirs join rm dirs1).2 = None →
  (remove_dir join rm dir).2 = Some thrown →
  remove_dirs join rm (dirs1 ++ dir :: dirs2)
  = ((remove_dirs join rm dirs1).1 ++ (remove_dir join rm dir).1, Some thrown).
Proof.
  intros H1 Hd. induction dirs1 as [|d dirs1 IH].
  - rewrite app_nil_l, in_dirs_cons, Hd. done.
  - rewrite in_dirs_cons in H1. rewrite <-app_comm_cons, !in_dirs_cons.
    destruct ((in_dir d).2) eqn:Hd1; [done|]. cbn [fst snd] in *.
    rewrite IH by done. cbn [fst snd]. by rewrite app_assoc.
Qed.

Lemma markers_effects fs dir :
  ∃ caches,
    (markers fs dir).1
    = caches ≫= (λ cache,
        [AppendLine ("Removing cache file " +:+ cache); Rm fs cache])
    ∧ caches `prefix_of` [join [dir; ".configured"]; join [dir; ".compiled"]].
Proof.
  unfold Ebuild.remove_markers.
  destruct (rm fs (join [dir; ".configured"])); simpl.
  { exists [join [dir; ".configured"]]. split; [done|]. by eexists. }
  exists [join [dir; ".configured"]; join [dir; ".compiled"]].
  split; [|done]. by destruct (rm fs (join [dir; ".compiled"])).
Qed.

Lemma in_dir_effects dir :
  ∃ visits : list (Root * string),
    (in_dir dir).1
    = visits ≫= (λ v,
        [AppendLine ("Removing cache file " +:+ v.2); Rm v.1 v.2])
    ∧ ∀ v, v ∈ visits →
        v.2 = join [dir; ".configured"] ∨ v.2 = join [dir; ".compiled"].
Proof.
  destruct (markers_effects Chroot dir) as (c1 & H1 & P1).
  destruct (markers_effects Out dir) as (c2 & H2 & P2).
  exists (((λ c, (Chroot, c)) <$> c1) ++ ((λ c, (Out, c)) <$> c2)). split.
  - unfold Ebuild.remove_dir. simpl. unfold through_root.
    rewrite bind_app.
    assert (∀ fs (cs : list string),
      ((λ c, (fs, c)) <$> cs) ≫= (λ v,
         [AppendLine ("Removing cache file " +:+ v.2); Rm v.1 v.2])
      = cs ≫= (λ cache,
         [AppendLine ("Removing cache file " +:+ cache); Rm fs cache])) as Hb.
    { intros fs cs. induction cs as [|c cs IH]; [done|].
      rewrite fmap_cons, !bind_cons. by rewrite IH. }
    rewrite !Hb, <-H1, <-H2.
    destruct (markers Chroot dir) as [eff1 [x1|]];
      destruct (markers Out dir) as [eff2 [x2|]]; done.
  - assert (∀ cs : list string,
      cs `prefix_of` [join [dir; ".configured"]; join [dir; ".compiled"]] →
      ∀ c, c ∈ cs →
        c = join [dir; ".configured"] ∨ c = join [dir; ".compiled"]) as Hp.
    { intros cs [k Hk] c Hin.
      assert (c ∈ [join [dir; ".configured"]; join [dir; ".compiled"]]) as Hc.
      { rewrite Hk. apply elem_of_app. by left. }
      apply elem_of_cons in Hc as [?|Hc]; [by left|].
      apply list_elem_of_singleton in Hc. by right. }
    intros v [(c & -> & Hc)%list_elem_of_fmap|(c & -> & Hc)%list_elem_of_fmap]%elem_of_app;
      simpl; eauto.
Qed.

Lemma in_dirs_effects dirs :
  ∃ visits : list (Root * string),
    (in_dirs dirs).1
    = visits ≫= (λ v,
        [AppendLine ("Removing cache file " +:+ v.2); Rm v.1 v.2])
    ∧ ∀ v, v ∈ visits →
        ∃ dir, dir ∈ dirs
          ∧ (v.2 = join [dir; ".configured"] ∨ v.2 = join [dir; ".compiled"]).
Proof.
  induction dirs as [|dir dirs (vs & Hvs & Pvs)].
  - exists []. split; [done|]. intros v Hv. by apply elem_of_nil in Hv.
  - destruct (in_dir_effects dir) as (v1 & Hv1 & Pv1).
    rewrite in_dirs_cons. destruct ((in_dir dir).2); cbn [fst snd].
    + exists v1. split; [done|]. intros v Hv. exists dir. split; [by left|auto].
    + exists (v1 ++ vs). split; [by rewrite bind_app, Hv1, Hvs|].
      intros v [Hv|Hv]%elem_of_app.
      * exists dir. split; [by left|auto].
      * destruct (Pvs v Hv) as (d & Hd & ?). exists d. split; [by right|done].
Qed.

(** X10. Whatever the filesystem does, [removeCache] touches marker
    files of the build directories only, and announces each removal on
    the output channel right before attempting it. *)
Theorem removeCache_announces_removals e :
  ∃ visits : list (Root * string),
    (removeCache sysroot join rm e).1
    = visits ≫= (λ v,
        [AppendLine ("Removing cache file " +:+ v.2); Rm v.1 v.2])
    ∧ ∀ v, v ∈ visits →
        ∃ dir, dir ∈ buildDirs sysroot join e
          ∧ (v.2 = join [dir; ".configured"] ∨ v.2 = join [dir; ".compiled"]).
Proof. apply in_dirs_effects. Qed.

(** *** artifactPath *)

Lemma insert_perm {A} (f : A → string) x (l : list A) :
  JsArray.insert f x l ≡ₚ x :: l.
Proof.
  induction l as [|y l IH]; simpl; [done|].
  destruct (String.ltb (f x) (f y)); [done|].
  rewrite IH. apply Permutation_swap.
Qed.

Lemma sort_perm {A} (f : A → string) (l : list A) : JsArray.sort f l ≡ₚ l.
Proof.
  unfold JsArray.sort.
  assert (∀ acc, foldl (λ sorted x, JsArray.insert f x sorted) acc l ≡ₚ acc ++ l)
    as H; [|apply (H [])].
  induction l as [|x l IH]; intros acc; simpl.
  - by rewrite app_nil_r.
  - rewrite IH, insert_perm. simpl. apply Permutation_middle.
Qed.

Abbreviation compile_commands dir :=
  (join [dir; "out/Default/compile_commands_no_chroot.json"]).

Lemma elem_of_candidates e (c : Z * Artifact) :
  c ∈ candidates sysroot join stat root e
  ↔ ∃ dir fs,
      dir ∈ buildDirs sysroot join e
      ∧ stat fs (compile_commands dir) = Some c.1
      ∧ c.2 = {| baseDir := root fs; path := compile_commands dir |}.
Proof.
  unfold candidates. rewrite list_elem_of_join. split.
  - intros (l & Hc & (dir & -> & Hdir)%list_elem_of_fmap).
    unfold candidates_in in Hc.
    apply list_elem_of_omap in Hc as (fs & _ & Hfs).
    destruct (stat fs (compile_commands dir)) as [mtime|] eqn:Hs; [|done].
    simpl in Hfs. injection Hfs as <-. exists dir, fs. done.
  - intros (dir & fs & Hdir & Hs & Hc).
    exists (candidates_in join stat root dir). split.
    + unfold candidates_in. apply list_elem_of_omap. exists fs. split.
      * destruct fs; [left|right; left].
      * rewrite Hs. simpl. f_equal. destruct c as [m a]. simpl in *. by subst.
    + apply list_elem_of_fmap. by exists dir.
Qed.

(** X11. What [artifactPath] returns.  If it returns an artifact, that
    artifact is [out/Default/compile_commands_no_chroot.json] of a
    build directory, based at a root through which [stat] found the
    file; and it returns [undefined] only if [stat] found the file in
    no build directory through no root. *)
Theorem artifactPath_is_candidate e :
  match artifactPath sysroot join stat root e with
  | Some a =>
      ∃ dir fs mtime,
        dir ∈ buildDirs sysroot join e
        ∧ stat fs (compile_commands dir) = Some mtime
        ∧ a = {| baseDir := root fs; path := compile_commands dir |}
  | None =>
      ∀ dir fs, dir ∈ buildDirs sysroot join e →
        stat fs (compile_commands dir) = None
  end.
Proof.
  unfold artifactPath.
  destruct (candidates sysroot join stat root e) as [|c0 cs] eqn:Hc; simpl.
  - intros dir fs Hdir.
    destruct (stat fs (compile_commands dir)) as [mtime|] eqn:Hs; [|done].
    assert ((mtime, {| baseDir := root fs; path := compile_commands dir |})
            ∈ candidates sysroot join stat root e) as Hin.
    { apply elem_of_candidates. by exists dir, fs. }
    rewrite Hc in Hin. by apply elem_of_nil in Hin.
  - pose proof (sort_perm (candidate_string) (c0 :: cs)) as Hp.
    destruct (last (JsArray.sort candidate_string (c0 :: cs))) as [c|] eqn:Hl.
    + simpl. apply last_Some in Hl as [l' Hl].
      assert (c ∈ candidates sysroot join stat root e) as Hin.
      { rewrite Hc, <-Hp, Hl. apply elem_of_app. right. by left. }
      apply elem_of_candidates in Hin as (dir & fs & ? & ? & ?). eauto 6.
    + apply last_None in Hl. rewrite Hl in Hp.
      by apply Permutation_nil_cons in Hp.
Qed.

(** *** The body of [generate] *)

Lemma commands_removals (effects : list effect) (calls : list call) :
  commands ((Removal <$> effects) ++ calls) = commands calls.
Proof.
  unfold commands. rewrite omap_app.
  assert (omap (λ c, match c with
                     | ExecSudo command args => Some (command, args)
                     | Removal _ => None
                     end) (Removal <$> effects) = []) as ->; [|done].
  induction effects as [|x effects IH]; [done|]. by rewrite fmap_cons.
Qed.

Lemma elem_of_commands command args (calls : list call) :
  ExecSudo command args ∈ calls ↔ (command, args) ∈ commands calls.
Proof.
  unfold commands. rewrite list_elem_of_omap. split.
  - intros Hin. by exists (ExecSudo command args).
  - intros ([x|c a] & Hin & Heq); [done|]. by injection Heq as -> ->.
Qed.

(** X12. How the body of [generate] ends.  It throws a [CompdbError]
    and never [undefined].  The error is of kind [RemoveCache] exactly
    as [removeCache] threw it, and then no command has been run.  It is
    of kind [RunEbuild] only after the caches were removed, and then it
    carries the very error that the lookup of the ebuild or, the lookup
    having succeeded, the build resulted in.  The body returns only
    after the caches were removed and both commands succeeded, and it
    returns what [artifactPath] gives. *)
Theorem generate_body_outcome e found built :
  match (generate_body e found built).2 with
  | Threw None => False
  | Threw (Some (RemoveCache cache reason)) =>
      (removeCache sysroot join rm e).2
      = Some (Some (RemoveCache cache reason))
      ∧ commands (generate_body e found built).1 = []
  | Threw (Some (RunEbuild reason)) =>
      (removeCache sysroot join rm e).2 = None
      ∧ (found = inr reason ∨ ((∃ r, found = inl r) ∧ built = inr reason))
  | Returned a =>
      (removeCache sysroot join rm e).2 = None
      ∧ (∃ r, found = inl r) ∧ (∃ r, built = inl r)
      ∧ a = artifactPath sysroot join stat root e
  end.
Proof.
  unfold body.
  destruct (remove_cache e) as [effects [thrown|]] eqn:Hrc.
  - cbn [snd fst].
    destruct (removeCache_throws_cases e thrown) as (cache & reason & ->).
    { by rewrite Hrc. }
    split; [done|].
    rewrite <-(app_nil_r (Removal <$> effects)). apply commands_removals.
  - unfold runCompgen, ebuild9999.
    destruct found as [r|error]; [|simpl; auto].
    destruct built as [r'|error]; simpl; eauto 7.
Qed.

Lemma split_without (sep : ascii) (word : string) :
  contains sep word = false → split sep word = [word].
Proof.
  induction word as [|c word IH]; [done|]. simpl.
  intros [Hc Hw]%orb_false_elim. rewrite Hc, IH; done.
Qed.

(** [split] undoes the joining of two words free of the separator. *)
Lemma split_pair (sep : ascii) (first second : string) :
  contains sep first = false → contains sep second = false →
  split sep (first +:+ String sep second) = [first; second].
Proof.
  intros Hf Hs. induction first as [|c first IH].
  - rewrite ExecFacts.append_nil_l. simpl.
    rewrite bool_decide_true by done. by rewrite split_without.
  - rewrite ExecFacts.append_cons. simpl in *.
    apply orb_false_elim in Hf as [Hc Hf]. rewrite Hc, IH; done.
Qed.

(** X13. The commands of the body of [generate], for a package
    [category/name] whose two parts are free of slashes, once the
    caches are removed.  Both are run through [cros_sdk] of the source
    root, after [--]: first [equery which] for the atom
    [=category/name-9999], with 9999 ebuilds accepted; then, only if
    that succeeded, [ebuild] for the board with [clean] and [compile]
    on the trimmed path that [equery] printed, with the use flags
    joined by spaces in [USE]. *)
Theorem generate_body_commands e found built category name :
  qualifiedPackageName e = category +:+ "/" +:+ name →
  contains "/" category = false → contains "/" name = false →
  (removeCache sysroot join rm e).2 = None →
  commands (generate_body e found built).1
  = (join [source_root e; "chromite/bin/cros_sdk"],
     [ "--"; "env"; "ACCEPT_KEYWORDS=~*"; suffixedExecutable (board e) "equery";
       "which"; "=" +:+ qualifiedPackageName e +:+ "-9999" ])
    :: match found with
       | inr _ => []
       | inl result =>
           [ (join [source_root e; "chromite/bin/cros_sdk"],
              [ "--"; "env"; "USE=" +:+ String.concat " " (useFlags e);
                suffixedExecutable (board e) "ebuild";
                trim (Exec.stdout result); "clean"; "compile" ]) ]
       end.
Proof.
  intros Hq Hc Hn Hrc. unfold body.
  destruct (remove_cache e) as [effects thrown]. simpl in Hrc. subst thrown.
  unfold runCompgen, ebuild9999, buildGet9999EbuildCommand.
  assert (split "/" (qualifiedPackageName e) = [category; name]) as Hsplit.
  { rewrite Hq. by apply (split_pair "/" category name). }
  rewrite !Hsplit. cbn [lookup list_lookup interpolate default from_option id].
  assert ("=" +:+ category +:+ "/" +:+ name +:+ "-9999"
          = "=" +:+ qualifiedPackageName e +:+ "-9999") as ->.
  { rewrite Hq. by rewrite !ExecFacts.append_assoc. }
  destruct found as [r|error]; [destruct built|];
    cbn [fst snd]; by rewrite commands_removals.
Qed.

End GenerateFacts.

(** On a filesystem on which every removal fails, through the chroot
    with [EACCES] and through the out directory with [EROFS]. *)
Lemma removeCache_throws_compdb_error_witness :
  (removeCache board_sysroot join_segments
     (failing_rm (Some "EACCES") (Some "EROFS")) codelab_on_betty).2
  = Some (Some (RemoveCache
                  "/build/betty/var/cache/portage/chromeos-base/codelab/.configured"
                  "EROFS"))
  ∧ ∃ dir cache reason,
      dir ∈ buildDirs board_sysroot join_segments codelab_on_betty
      ∧ Some (RemoveCache
                "/build/betty/var/cache/portage/chromeos-base/codelab/.configured"
                "EROFS")
        = Some (RemoveCache cache reason)
      ∧ (cache = join_segments [dir; ".configured"]
         ∨ cache = join_segments [dir; ".compiled"])
      ∧ failing_rm (Some "EACCES") (Some "EROFS") Out cache = Some reason
      ∧ ¬ (failing_rm (Some "EACCES") (Some "EROFS") Chroot
             (join_segments [dir; ".configured"]) = None
           ∧ failing_rm (Some "EACCES") (Some "EROFS") Chroot
               (join_segments [dir; ".compiled"]) = None).
Proof.
  split; [vm_compute; reflexivity|].
  apply (removeCache_throws_compdb_error board_sysroot join_segments
           (failing_rm (Some "EACCES") (Some "EROFS")) codelab_on_betty).
  vm_compute. reflexivity.
Defined.

Lemma removeCache_stops_at_failure_witness :
  (remove_dirs join_segments (failing_rm None (Some "EROFS")) ["/a"]).2 = None
  ∧ (remove_dir join_segments (failing_rm (Some "EACCES") (Some "EROFS")) "/b").2
    = Some (Some (RemoveCache "/b/.configured" "EROFS"))
  ∧ remove_dirs join_segments (failing_rm (Some "EACCES") (Some "EROFS"))
      ([] ++ "/b" :: ["/c"; "/d"])
    = ((remove_dirs join_segments (failing_rm (Some "EACCES") (Some "EROFS")) []).1
       ++ (remove_dir join_segments
             (failing_rm (Some "EACCES") (Some "EROFS")) "/b").1,
       Some (Some (RemoveCache "/b/.configured" "EROFS"))).
Proof.
  split; [vm_compute; reflexivity|]. split; [vm_compute; reflexivity|].
  apply (removeCache_stops_at_failure join_segments
           (failing_rm (Some "EACCES") (Some "EROFS")) [] "/b" ["/c"; "/d"]).
  - reflexivity.
  - vm_compute. reflexivity.
Defined.

Lemma generate_body_commands_witness :
  qualifiedPackageName codelab_on_betty = "chromeos-base" +:+ "/" +:+ "codelab"
  ∧ commands
      (body board_sysroot board_executable join_segments
         (failing_rm None (Some "EROFS")) two_artifacts checkout_root id
         codelab_on_betty
         (inl {| Exec.exitStatus := Some 0%Z;
                 Exec.stdout := "/mnt/host/source/codelab-9999.ebuild";
                 Exec.stderr := EmptyString |})
         (inr "build failed")).1
    = [ ("/home/user/chromiumos/chromite/bin/cros_sdk",
         [ "--"; "env"; "ACCEPT_KEYWORDS=~*"; "equery-betty"; "which";
           "=chromeos-base/codelab-9999" ]);
        ("/home/user/chromiumos/chromite/bin/cros_sdk",
         [ "--"; "env"; "USE="; "ebuild-betty";
           "/mnt/host/source/codelab-9999.ebuild"; "clean"; "compile" ]) ].
Proof.
  split; [reflexivity|].
  apply (generate_body_commands board_sysroot board_executable join_segments
           (failing_rm None (Some "EROFS")) two_artifacts checkout_root id
           codelab_on_betty
           (inl {| Exec.exitStatus := Some 0%Z;
                   Exec.stdout := "/mnt/host/source/codelab-9999.ebuild";
                   Exec.stderr := EmptyString |})
           (inr "build failed") "chromeos-base" "codelab");
    vm_compute; reflexivity.
Defined.

End GenerateFacts.

(** ** Paths *)

Module PathsFacts.
Import Paths.

Lemma dirname_snoc (dir : Path) (name : string) : dirname (dir ++ [name]) = dir.
Proof.
  unfold dirname. rewrite length_app. simpl.
  replace (length dir + 1 - 1) with (length dir) by lia.
  apply take_app_length.
Qed.

Lemma dirname_root : dirname [] = [].
Proof. done. Qed.

Lemma dirname_fixed (dir : Path) : dirname dir = dir ↔ dir = [].
Proof.
  split; [|by intros ->].
  destruct dir as [|name dir _] using rev_ind; [done|].
  rewrite dirname_snoc. intros H.
  apply (f_equal length) in H. rewrite length_app in H. simpl in H. lia.
Qed.

Lemma prefix_snoc_inv {A} (k l : list A) (x : A) :
  k `prefix_of` l ++ [x] ↔ k = l ++ [x] ∨ k `prefix_of` l.
Proof.
  split.
  - intros [r Hr]. destruct r as [|y r _] using rev_ind.
    + left. by rewrite app_nil_r in Hr.
    + right. rewrite app_assoc in Hr.
      apply app_inj_tail in Hr as [-> _]. by exists r.
  - intros [->|Hk]; [done|]. by apply prefix_app_r.
Qed.

Section PathsFacts.
Context (existsSync : Path → bool) (isFile : Path → bool).

Abbreviation is_chroot := (Paths.isChroot existsSync).
Abbreviation find_chroot := (Paths.findChroot existsSync).
Abbreviation find_git_dir := (Paths.findGitDir existsSync isFile).

(** What the loop of [findChroot] computes, given fuel enough. *)
Lemma findChroot_loop_spec fuel (dir : Path) :
  length dir < fuel →
  ∃ r, findChroot_loop existsSync fuel dir = Some r
    ∧ match r with
      | Some chroot =>
          ∃ ancestor,
            ancestor `prefix_of` dir ∧ chroot = ancestor ++ ["chroot"]
            ∧ is_chroot chroot = true
            ∧ ∀ nearer, nearer `prefix_of` dir →
                length ancestor < length nearer →
                is_chroot (nearer ++ ["chroot"]) = false
      | None =>
          ∀ ancestor, ancestor `prefix_of` dir →
            is_chroot (ancestor ++ ["chroot"]) = false
      end.
Proof.
  revert fuel. induction dir as [|name dir IH] using rev_ind; intros fuel Hf.
  - destruct fuel as [|fuel]; [lia|]. simpl.
    destruct (is_chroot ["chroot"]) eqn:Hc.
    + exists (Some ["chroot"]). split; [done|]. exists []. split_and!; [done..|].
      intros nearer Hn%prefix_nil_inv. subst. simpl. lia.
    + exists None. split; [done|]. by intros ancestor ->%prefix_nil_inv.
  - destruct fuel as [|fuel]; [lia|]. cbn [findChroot_loop].
    destruct (is_chroot ((dir ++ [name]) ++ ["chroot"])) eqn:Hc.
    + eexists. split; [done|]. exists (dir ++ [name]). split_and!; [done..|].
      intros nearer Hn%prefix_length. lia.
    + rewrite dirname_snoc.
      rewrite bool_decide_false.
      2:{ intros H. apply (f_equal length) in H. rewrite length_app in H.
          simpl in H. lia. }
      rewrite length_app in Hf. simpl in Hf.
      destruct (IH fuel) as (r & -> & Hr); [lia|].
      exists r. split; [done|]. destruct r as [chroot|].
      * destruct Hr as (ancestor & Hp & -> & Ha & Hnear).
        exists ancestor. split_and!; [by apply prefix_app_r|done..|].
        intros nearer [->|Hn]%prefix_snoc_inv Hlen; [done|by apply Hnear].
      * intros ancestor [->|Ha]%prefix_snoc_inv; [done|by apply Hr].
Qed.

Lemma findChroot_spec (dir : Path) :
  ∃ r, find_chroot dir = Some r
    ∧ match r with
      | Some chroot =>
          ∃ ancestor,
            ancestor `prefix_of` dir ∧ chroot = ancestor ++ ["chroot"]
            ∧ is_chroot chroot = true
            ∧ ∀ nearer, nearer `prefix_of` dir →
                length ancestor < length nearer →
                is_chroot (nearer ++ ["chroot"]) = false
      | None =>
          ∀ ancestor, ancestor `prefix_of` dir →
            is_chroot (ancestor ++ ["chroot"]) = false
      end.
Proof. apply findChroot_loop_spec. lia. Qed.

(** X14. [findChroot] terminates, within one round for the directory
    and one for each of its ancestors, and returns the chroot of the
    nearest directory, among the given one and its ancestors, that
    holds a chroot; it returns [undefined] exactly if none of them
    does. *)
Theorem findChroot_nearest (dir : Path) :
  ∃ r, find_chroot dir = Some r
    ∧ match r with
      | Some chroot =>
          ∃ ancestor,
            ancestor `prefix_of` dir ∧ chroot = ancestor ++ ["chroot"]
            ∧ is_chroot chroot = true
            ∧ ∀ nearer, nearer `prefix_of` dir →
                length ancestor < length nearer →
                is_chroot (nearer ++ ["chroot"]) = false
      | None =>
          ∀ ancestor, ancestor `prefix_of` dir →
            is_chroot (ancestor ++ ["chroot"]) = false
      end.
Proof. apply findChroot_spec. Qed.

(** X15. The source directory of the chroot found for a directory is
    that directory or one of its ancestors, the chroot is its child
    [chroot], and its out directory is its child [out]. *)
Theorem sourceDir_of_found_chroot (dir chroot : Path) :
  find_chroot dir = Some (Some chroot) →
  sourceDir chroot `prefix_of` dir
  ∧ chroot = sourceDir chroot ++ ["chroot"]
  ∧ crosOutDir (sourceDir chroot) = sourceDir chroot ++ ["out"]
  ∧ is_chroot (sourceDir chroot ++ ["chroot"]) = true.
Proof.
  intros Hf. destruct (findChroot_spec dir) as (r & Hr & Hspec).
  rewrite Hf in Hr. injection Hr as <-.
  destruct Hspec as (ancestor & Hp & -> & Hc & _).
  unfold sourceDir. rewrite dirname_snoc. done.
Qed.

Lemma findGitDir_loop_spec fuel (dir : Path) :
  length dir < fuel →
  ∃ r, findGitDir_loop existsSync fuel dir = Some r
    ∧ match r with
      | Some found =>
          found `prefix_of` dir ∧ existsSync (found ++ [".git"]) = true
          ∧ ∀ nearer, nearer `prefix_of` dir →
              length found < length nearer →
              existsSync (nearer ++ [".git"]) = false
      | None =>
          ∀ ancestor, ancestor `prefix_of` dir →
            existsSync (ancestor ++ [".git"]) = false
      end.
Proof.
  revert fuel. induction dir as [|name dir IH] using rev_ind; intros fuel Hf.
  - destruct fuel as [|fuel]; [lia|]. simpl.
    destruct (existsSync [".git"]) eqn:Hc; simpl.
    + exists (Some []). split; [done|]. split_and!; [done..|].
      intros nearer Hn%prefix_nil_inv. subst. simpl. lia.
    + exists None. split; [done|]. by intros ancestor ->%prefix_nil_inv.
  - destruct fuel as [|fuel]; [lia|]. cbn [findGitDir_loop].
    destruct (existsSync ((dir ++ [name]) ++ [".git"])) eqn:Hc; cbn [negb].
    + eexists. split; [done|]. split_and!; [done..|].
      intros nearer Hn%prefix_length. lia.
    + rewrite dirname_snoc.
      rewrite bool_decide_false.
      2:{ intros H. apply (f_equal length) in H. rewrite length_app in H.
          simpl in H. lia. }
      rewrite length_app in Hf. simpl in Hf.
      destruct (IH fuel) as (r & -> & Hr); [lia|].
      exists r. split; [done|]. destruct r as [found|].
      * destruct Hr as (Hp & Ha & Hnear).
        split_and!; [by apply prefix_app_r|done|].
        intros nearer [->|Hn]%prefix_snoc_inv Hlen; [done|by apply Hnear].
      * intros ancestor [->|Ha]%prefix_snoc_inv; [done|by apply Hr].
Qed.

Lemma start_dir_cases (filePath : Path) :
  (start_dir existsSync isFile filePath = filePath
   ∧ existsSync filePath = true ∧ isFile filePath = false)
  ∨ (start_dir existsSync isFile filePath = dirname filePath
     ∧ (existsSync filePath = false ∨ isFile filePath = true)).
Proof.
  unfold start_dir. destruct (existsSync filePath); simpl; [|auto].
  destruct (isFile filePath); auto.
Qed.

Lemma start_dir_length (filePath : Path) :
  length (start_dir existsSync isFile filePath) ≤ length filePath.
Proof.
  destruct (start_dir_cases filePath) as [[-> _]|[-> _]]; [done|].
  unfold dirname. rewrite length_take. lia.
Qed.

(** X16. [findGitDir] terminates and returns the nearest directory
    holding [.git] among the directory it starts at and the ancestors
    of that directory, or [undefined] exactly if none of them holds
    one.  It starts at the path itself if that is an existing
    directory, and at its parent if the path is a file or does not
    exist. *)
Theorem findGitDir_nearest (filePath : Path) :
  let start := if existsSync filePath && negb (isFile filePath)
               then filePath else dirname filePath in
  ∃ r, find_git_dir filePath = Some r
    ∧ match r with
      | Some found =>
          found `prefix_of` start ∧ existsSync (found ++ [".git"]) = true
          ∧ ∀ nearer, nearer `prefix_of` start →
              length found < length nearer →
              existsSync (nearer ++ [".git"]) = false
      | None =>
          ∀ ancestor, ancestor `prefix_of` start →
            existsSync (ancestor ++ [".git"]) = false
      end.
Proof.
  cbn zeta.
  assert ((if existsSync filePath && negb (isFile filePath)
           then filePath else dirname filePath)
          = start_dir existsSync isFile filePath) as ->.
  { unfold start_dir. destruct (existsSync filePath); [|done].
    by destruct (isFile filePath). }
  apply findGitDir_loop_spec. pose proof (start_dir_length filePath). lia.
Qed.

(** X17. The roots of a [ChrootService] fit the conventions of
    [sourceDir] and [crosOutDir]: the source root is the source
    directory of the chroot root, and the out root is the out directory
    of the source root.  The service exists exactly if the directory
    [chroot] exists under the root it is asked for; and if that
    directory is a chroot, it is the one that [findChroot] finds from
    that root. *)
Theorem chroot_service_roots (root : Path) :
  match maybeCreate existsSync root with
  | Some crosFs =>
      existsSync (root ++ ["chroot"]) = true
      ∧ sourceDir (chroot crosFs) = source crosFs
      ∧ crosOutDir (source crosFs) = out crosFs
      ∧ (is_chroot (chroot crosFs) = true →
         find_chroot root = Some (Some (chroot crosFs)))
  | None => existsSync (root ++ ["chroot"]) = false
  end.
Proof.
  unfold maybeCreate. destruct (existsSync (root ++ ["chroot"])) eqn:He; [|done].
  cbn [negb chroot source out]. split_and!; [done| |done|].
  - apply dirname_snoc.
  - intros Hc. unfold findChroot. cbn [findChroot_loop]. by rewrite Hc.
Qed.

End PathsFacts.

Lemma sourceDir_of_found_chroot_witness :
  findChroot in_checkout
    ["home"; "user"; "chromiumos"; "src"; "platform2"; "codelab"]
  = Some (Some ["home"; "user"; "chromiumos"; "chroot"])
  ∧ sourceDir ["home"; "user"; "chromiumos"; "chroot"]
    `prefix_of` ["home"; "user"; "chromiumos"; "src"; "platform2"; "codelab"].
Proof.
  split; [vm_compute; reflexivity|].
  apply (sourceDir_of_found_chroot in_checkout
           ["home"; "user"; "chromiumos"; "src"; "platform2"; "codelab"]
           ["home"; "user"; "chromiumos"; "chroot"]).
  vm_compute. reflexivity.
Defined.

End PathsFacts.

(** ** Packages *)

Module PackagesFacts.
Import Paths Packages.

Lemma relative_app (source rest : Path) : relative source (source ++ rest) = rest.
Proof.
  induction source as [|name source IH]; [done|]. simpl.
  by rewrite bool_decide_true.
Qed.

Section PackagesFacts.
Context (existsSync : Path → bool).
Context {PackageInfo : Type}.
Context (mapping : gmap (list string) PackageInfo).

Abbreviation from_filepath := (Packages.fromFilepath existsSync mapping).

Lemma rel_dirname_snoc (dir : list string) (name : string) :
  rel_dirname (Rel (dir ++ [name]))
  = match dir with [] => Dot | _ => Rel dir end.
Proof.
  destruct dir as [|first dir]; [done|].
  change (rel_dirname (Rel ((first :: dir) ++ [name])))
    with (match dir ++ [name] with
          | [] => Dot
          | _ => Rel (dirname ((first :: dir) ++ [name]))
          end).
  rewrite PathsFacts.dirname_snoc. by destruct dir.
Qed.

(** The loop looks the relative path up, then its ancestors from the
    nearest on, and stops before the empty one. *)
Lemma lookup_loop_spec fuel (segments : list string) :
  length segments + 1 < fuel →
  ∃ r, lookup_loop mapping fuel (Rel segments) = Some r
    ∧ match r with
      | Some info =>
          ∃ dir,
            dir `prefix_of` segments ∧ mapping !! dir = Some info
            ∧ (dir = [] → segments = [])
            ∧ ∀ nearer, nearer `prefix_of` segments →
                length dir < length nearer → mapping !! nearer = None
      | None =>
          ∀ dir, dir `prefix_of` segments → dir ≠ [] → mapping !! dir = None
      end.
Proof.
  revert fuel.
  induction segments as [|name segments IH] using rev_ind; intros fuel Hf.
  - destruct fuel as [|[|fuel]]; [simpl in Hf; lia..|]. cbn [lookup_loop].
    destruct (mapping !! []) as [info|] eqn:Hm.
    + exists (Some info). split; [done|]. exists []. split_and!; [done..|].
      intros nearer ->%prefix_nil_inv. simpl. lia.
    + exists None. split; [done|]. by intros dir ->%prefix_nil_inv.
  - rewrite length_app in Hf. simpl in Hf.
    destruct fuel as [|fuel]; [lia|]. cbn [lookup_loop].
    destruct (mapping !! (segments ++ [name])) as [info|] eqn:Hm.
    + exists (Some info). split; [done|]. exists (segments ++ [name]).
      split_and!; [done..| |].
      * intros H. by destruct segments.
      * intros nearer Hn%prefix_length. lia.
    + rewrite rel_dirname_snoc. destruct segments as [|first segments].
      * destruct fuel as [|fuel]; [simpl in Hf; lia|]. cbn [lookup_loop].
        exists None. split; [done|].
        intros dir [->|Hd]%PathsFacts.prefix_snoc_inv; [done|].
        by apply prefix_nil_inv in Hd as ->.
      * destruct (IH fuel) as (r & -> & Hr); [lia|].
        exists r. split; [done|]. destruct r as [info|].
        -- destruct Hr as (dir & Hp & Hd & Hne & Hnear).
           exists dir. split_and!; [by apply prefix_app_r|done| |].
           ++ intros ->. by specialize (Hne eq_refl).
           ++ intros nearer [->|Hn]%PathsFacts.prefix_snoc_inv Hlen;
                [done|by apply Hnear].
        -- intros dir [->|Hd]%PathsFacts.prefix_snoc_inv; [done|by apply Hr].
Qed.

(** X18. [fromFilepath], once the real path of the file is known,
    terminates.  When it returns a package, the file lies in the source
    directory of the nearest chroot around it, and the package is the
    one mapped to the deepest directory on the way from that source
    directory to the file (the file itself included) that the mapping
    knows; the source directory itself counts only if it is the file
    asked for. *)
Theorem fromFilepath_deepest_package (realpath : Path) :
  ∃ r, from_filepath realpath = Some r
    ∧ ∀ info, r = Some info →
        ∃ source rest dir,
          realpath = source ++ rest
          ∧ findChroot existsSync realpath = Some (Some (source ++ ["chroot"]))
          ∧ dir `prefix_of` rest ∧ mapping !! dir = Some info
          ∧ (dir = [] → rest = [])
          ∧ ∀ nearer, nearer `prefix_of` rest →
              length dir < length nearer → mapping !! nearer = None.
Proof.
  unfold fromFilepath.
  destruct (PathsFacts.findChroot_spec existsSync realpath)
    as (found & Hfound & Hspec).
  rewrite Hfound. destruct found as [chroot|]; [|by exists None].
  destruct Hspec as (source & [rest ->] & -> & _).
  unfold sourceDir. rewrite PathsFacts.dirname_snoc, relative_app.
  destruct (startsWithDotDot rest); [by exists None|].
  destruct (lookup_loop_spec (2 + length rest) rest) as (r & Hr & Hspec); [lia|].
  exists r. split; [done|]. intros info ->.
  destruct Hspec as (dir & ? & ? & ? & ?). exists source, rest, dir. done.
Qed.

End PackagesFacts.
End PackagesFacts.

(** ** Progress of [Mutex] and [JobManager] *)

Module MutexProgress.
Import Mutex.

Section MutexProgress.
Context {Job T Err : Type}.

Implicit Types (s : @state Job T Err) (ins : list (@input Job T Err)).
Implicit Types (outs : list (outcome T Err)).

(** X19. No job is lost or starved.  From any state of a mutex, if the
    body that is running and those that are queued settle, each in any
    way, and the [setImmediate] callbacks run, then the mutex is idle
    with an empty queue, the bodies have run in the order of
    submission, each to the outcome given, every job ever submitted has
    run, and every caller's promise is settled with the outcome of its
    own job. *)
Theorem mutex_drains ins outs :
  let s := run ins in
  let pending := option_list (awaiting s) ++ queue s in
  length outs = length pending →
  let s' := flush (foldl step s (JobSettles <$> outs)) in
  running s' = false ∧ queue s' = []
  ∧ completed (trace s') = completed (trace s) ++ zip pending outs
  ∧ (completed (trace s')).*1 = submitted ins
  ∧ ∀ t o, (t, o) ∈ completed (trace s') → promises s' !! promise t = Some o.
Proof.
  cbn zeta. intros Hlen.
  destruct (MutexFacts.settle_all _ _ outs (MutexFacts.mutex_run_invariant ins) Hlen)
    as (Hinv & Ha & Hq & Hc).
  destruct (MutexFacts.flush_spec _ _ Hinv) as (Hinv' & Him & Htr & Hq' & Ha').
  rewrite Htr, Hq', Hq, Hc.
  pose proof (inv_running _ _ Hinv') as Hr. rewrite Ha', Ha in Hr.
  rewrite bool_decide_false in Hr by by intros [? ?].
  split_and!; [done..| |].
  - pose proof (inv_fifo _ _ Hinv') as Hf.
    rewrite Ha', Ha, Hq', Hq, Htr, Hc in Hf. simpl in Hf.
    by rewrite app_nil_r in Hf.
  - intros t o Hin. apply (MutexFacts.flushed_settled _ _ t o Hinv' Him).
    by rewrite Htr, Hc.
Qed.

End MutexProgress.

Lemma mutex_drains_witness :
  length [Returned "1"; Threw "boom"]
  = length (option_list
              (awaiting (@run string string string
                           [RunExclusive "first"; RunExclusive "second"]))
            ++ queue (@run string string string
                        [RunExclusive "first"; RunExclusive "second"]))
  ∧ running
      (flush (foldl step
                (@run string string string
                   [RunExclusive "first"; RunExclusive "second"])
                (JobSettles <$> [Returned "1"; Threw "boom"])))
    = false.
Proof.
  split; [reflexivity|].
  apply (mutex_drains [RunExclusive "first"; RunExclusive "second"]
           [Returned "1"; Threw "boom"]).
  reflexivity.
Defined.

End MutexProgress.

Module JobManagerProgress.
Import JobManager.

Section JobManagerProgress.
Context {Job T Err : Type}.

Implicit Types (s : @state Job T Err) (ins : list (@input Job T Err)).

Lemma handle_idle_empty s :
  running s = false → tasks s = [] → handle s = s.
Proof.
  intros Hr Ht. unfold handle. rewrite Ht, Hr. simpl. by destruct s; simplify_eq/=.
Qed.

Lemma handle_idle_single s t :
  running s = false → tasks s = [t] →
  handle s = {| tasks := []; running := true; suspended := Some (AwaitJob t);
                promises := promises s; allocated := allocated s;
                trace := trace s ++ [Started t] |}.
Proof. intros Hr Ht. unfold handle. by rewrite Ht, Hr. Qed.

(** Two rounds of settlements bring a job manager to rest. *)
Lemma settle_twice off s o1 o2 :
  invariant off s →
  let s' := foldl step s [JobSettles o1; Resume; JobSettles o2; Resume] in
  running s' = false ∧ tasks s' = []
  ∧ completed (trace s')
    = completed (trace s) ++ ((λ t, (t, o1)) <$> option_list (current s))
      ++ ((λ t, (t, o2)) <$> tasks s).
Proof.
  intros Hinv. cbn zeta.
  pose proof (inv_running _ _ Hinv) as Hrun.
  pose proof (inv_idle _ _ Hinv) as Hidle.
  destruct (JobManagerFacts.invariant_tasks _ _ Hinv) as [Ht|[next Ht]];
    destruct s as [ts r [[t|]|] ps n tr]; cbn [tasks running suspended] in *;
    subst ts r; cbn [foldl step settled resume suspended tasks running
                       promises allocated trace current option_list fmap list_fmap];
    rewrite ?app_nil_r.
  - rewrite handle_idle_empty by done.
    cbn [foldl step settled resume suspended tasks running trace].
    split_and!; [done..|]. by rewrite JobManagerFacts.jm_completed_app.
  - rewrite handle_idle_empty by done.
    cbn [foldl step settled resume suspended tasks running trace]. done.
  - split_and!; [|done..]. by rewrite bool_decide_false by by intros [? ?].
  - rewrite (handle_idle_single _ next) by done.
    cbn [foldl step settled resume suspended tasks running trace promises
           allocated].
    rewrite handle_idle_empty by done.
    cbn [tasks running trace]. split_and!; [done..|].
    rewrite !JobManagerFacts.jm_completed_app. simpl. by rewrite <-!app_assoc.
  - rewrite (handle_idle_single _ next) by done.
    cbn [foldl step settled resume suspended tasks running trace promises
           allocated].
    rewrite handle_idle_empty by done.
    cbn [tasks running trace]. split_and!; [done..|].
    rewrite !JobManagerFacts.jm_completed_app. simpl. by rewrite <-!app_assoc.
  - rewrite bool_decide_false in Hidle by by intros [? ?]. by specialize (Hidle eq_refl).
Qed.

Lemma offered_rest ins o1 o2 :
  offered (ins ++ [JobSettles o1; Resume; JobSettles o2; Resume]) = offered ins.
Proof.
  change (ins ++ [JobSettles o1; Resume; JobSettles o2; Resume])
    with (ins ++ [JobSettles o1] ++ [Resume] ++ [JobSettles o2] ++ [Resume]).
  rewrite !app_assoc. unfold offered.
  by rewrite !JobManagerFacts.offered_from_snoc_other.
Qed.

(** X20. A job manager comes to rest after two rounds.  From any
    state, whatever number of jobs was offered, once the running job
    and then the queued one have settled and [handle] has resumed after
    each, the manager is not running and holds no task: the job that
    was running has ended with the first outcome, the task that was
    queued has run and ended with the second, no other body has run,
    and every promise ever returned by [offer] is settled, with [null]
    or with the outcome of its own job. *)
Theorem jobmanager_settles_down ins o1 o2 :
  let s := run ins in
  let s' := run (ins ++ [JobSettles o1; Resume; JobSettles o2; Resume]) in
  running s' = false ∧ tasks s' = []
  ∧ completed (trace s')
    = completed (trace s) ++ ((λ t, (t, o1)) <$> option_list (current s))
      ++ ((λ t, (t, o2)) <$> tasks s)
  ∧ ∀ t, t ∈ offered ins →
      promises s' !! promise t = Some (Returned None)
      ∨ ∃ o, (t, o) ∈ completed (trace s')
             ∧ promises s' !! promise t = Some (lift o).
Proof.
  cbn zeta.
  pose proof (JobManagerFacts.jm_run_invariant
                (ins ++ [JobSettles o1; Resume; JobSettles o2; Resume])) as Hinv'.
  rewrite offered_rest in Hinv'.
  destruct (settle_twice _ _ o1 o2 (JobManagerFacts.jm_run_invariant ins))
    as (Hr & Ht & Hc).
  rewrite <-JobManagerFacts.jm_run_app in Hr, Ht, Hc.
  split_and!; [done..|].
  intros t Hin.
  destruct (JobManagerFacts.offered_cases _ _ t Hinv' Hin) as [Hs|[Hq|Hn]].
  - right. rewrite (JobManagerFacts.invariant_started _ _ Hinv') in Hs.
    pose proof (JobManagerFacts.invariant_suspended _ _ Hinv' Hr) as Hsus.
    unfold current in Hs. rewrite Hsus in Hs. simpl in Hs.
    rewrite app_nil_r in Hs.
    apply list_elem_of_fmap in Hs as ([t' o] & -> & Hto).
    exists o. split; [done|]. by apply JobManagerFacts.completed_settled.
  - rewrite Ht in Hq. by apply elem_of_nil in Hq.
  - by left.
Qed.

End JobManagerProgress.
End JobManagerProgress.

(** ** No job body runs twice *)

Module RunOnce.

Section RunOnce.
Context {Job T Err : Type}.

(** X21. A call of [runExclusive] or of [offer] has its job started
    at most once.  After any sequence of calls and events, for a mutex
    and for a job manager alike, the queue items that have been started
    belong to pairwise distinct calls: no promise occurs twice among
    them. *)
Theorem no_job_runs_twice :
  (∀ ins : list (@Mutex.input Job T Err),
     NoDup (Mutex.promise <$> Mutex.started (Mutex.trace (Mutex.run ins))))
  ∧ (∀ ins : list (@JobManager.input Job T Err),
       NoDup (JobManager.promise
                <$> JobManager.started (JobManager.trace (JobManager.run ins)))).
Proof.
  split; intros ins.
  - pose proof (MutexFacts.mutex_run_invariant ins) as H.
    pose proof (Mutex.inv_fifo _ _ H) as Hf.
    pose proof (Mutex.inv_promises _ _ H) as Hp.
    rewrite (Mutex.inv_trace _ _ H), MutexFacts.mutex_started_serial_trace.
    assert (NoDup (Mutex.promise <$> Mutex.submitted ins)) as Hnd.
    { rewrite Hp. apply NoDup_seq. }
    rewrite Hf, app_assoc, fmap_app in Hnd.
    by apply NoDup_app in Hnd as [Hnd _].
  - pose proof (JobManagerFacts.jm_run_invariant ins) as H.
    pose proof (JobManager.st_nodup _ _ _ _ (JobManager.inv_store _ _ H)) as Hnd.
    rewrite fmap_app in Hnd. by apply NoDup_app in Hnd as [Hnd _].
Qed.

End RunOnce.
End RunOnce.

(** ** CacheOnSuccess: one job at a time *)

Module CacheSingleFlight.
Import CacheOnSuccess.

Section CacheSingleFlight.
Context {T Err : Type} (truthy : T → bool).
Implicit Types (ins : list (@input T Err)).

Abbreviation cache_run := (CacheOnSuccess.run truthy).

(** X22. The job of a [CacheOnSuccess] is never in flight twice.
    After any calls and events: every job promise but the latest has
    been rejected, so the job was invoked again only after its
    previous invocation had failed; and while the latest job promise is
    pending, a call of [getOrThrow] does not invoke the job but hands
    out that promise. *)
Theorem cache_single_flight ins :
  let s := run truthy ins in
  (∀ q, S q < invoked s → ∃ e, jobs s !! q = Some (Threw e))
  ∧ (∀ q, q < invoked s → jobs s !! q = None → promise s = Some q)
  ∧ (∀ p, promise s = Some p → jobs s !! p = None →
       let s' := run truthy (ins ++ [GetOrThrow]) in
       invoked s' = invoked s ∧ calls s' = calls s ++ [Shares p]).
Proof.
  cbn zeta.
  pose proof (CacheOnSuccessFacts.cache_run_invariant truthy ins) as [Hdom Hinv].
  destruct (promise (cache_run ins)) as [p|] eqn:Hp.
  - destruct Hinv as (Hi & Hold & Hcur). split_and!.
    + intros q Hq. apply Hold. lia.
    + intros q Hq Hn. destruct (decide (q = p)) as [->|Hne]; [done|].
      destruct (Hold q) as [e He]; [lia|]. congruence.
    + intros p' [= <-] Hn. rewrite CacheOnSuccessFacts.cache_run_snoc.
      destruct Hcur as [[Hf Hv]|(_ & v & Hv & _)]; [|congruence].
      cbn [CacheOnSuccess.step]. unfold getOrThrow. rewrite Hv, Hp. done.
  - destruct Hinv as (Hv & Hf & Hall). split_and!.
    + intros q Hq. apply Hall. lia.
    + intros q Hq Hn. destruct (Hall q Hq) as [e He]. congruence.
    + done.
Qed.

End CacheSingleFlight.
End CacheSingleFlight.

(** ** withTempDir *)

Module TempDirFacts.
Import TempDir.

Section TempDirFacts.
Context {Err : Type}.
Context (tmpdir : string).
Context (mkdtemp : string → outcome string Err).
Context (f : string → outcome () Err).
Context (rm : string → outcome () Err).

(** X23. The temporary directory is removed exactly when it was
    created, however [f] ends: [fs.promises.rm] is called on a
    directory exactly if [mkdtemp] returned it, and [f] is called on it
    exactly then, too.  If the removal throws, its error is what
    [withTempDir] throws, whatever [f] did; if it succeeds, the outcome
    is that of [f]; and if no directory could be created, the error of
    [mkdtemp] is thrown. *)
Theorem withTempDir_removes_what_it_created (td : string) :
  (RmRecursive td ∈ (withTempDir tmpdir mkdtemp f rm).1
   ↔ mkdtemp (tmpdir +:+ "/") = Returned td ∧ td ≠ EmptyString)
  ∧ (Run td ∈ (withTempDir tmpdir mkdtemp f rm).1 ↔ mkdtemp (tmpdir +:+ "/") = Returned td)
  ∧ (mkdtemp (tmpdir +:+ "/") = Returned td → td ≠ EmptyString →
     (withTempDir tmpdir mkdtemp f rm).2
     = match rm td with Threw e => Threw e | Returned _ => f td end)
  ∧ (∀ e, mkdtemp (tmpdir +:+ "/") = Threw e → (withTempDir tmpdir mkdtemp f rm).2 = Threw e).
Proof.
  unfold withTempDir, try_block.
  destruct (mkdtemp (tmpdir +:+ "/")) as [created|e]; cbn [fst snd].
  - assert (∀ c : call, c ∈ [Mkdtemp (tmpdir +:+ "/"); Run created]
                        ↔ c = Mkdtemp (tmpdir +:+ "/") ∨ c = Run created) as H2.
    { intros c. rewrite elem_of_cons, list_elem_of_singleton. done. }
    destruct created as [|c created]; cbn [fst snd].
    + split_and!.
      * rewrite H2. split; [by intros [?|?]|]. by intros [[= <-] ?].
      * rewrite H2. split; [by intros [?|[= ->]]|]. intros [= <-]. by right.
      * by intros [= <-].
      * done.
    + split_and!.
      * rewrite elem_of_app, H2, list_elem_of_singleton. split.
        -- intros [[?|?]|[= ->]]; done.
        -- intros [[= <-] _]. by right.
      * rewrite elem_of_app, H2, list_elem_of_singleton. split.
        -- by intros [[?|[= ->]]|?].
        -- intros [= <-]. left. by right.
      * by intros [= <-] _.
      * done.
  - split_and!.
    + rewrite list_elem_of_singleton. split; [done|]. by intros [? _].
    + rewrite list_elem_of_singleton. split; done.
    + done.
    + by intros e' [= <-].
Qed.

End TempDirFacts.
End TempDirFacts.

(** ** CrosfleetRunner *)

Module CrosfleetFacts.
Import Exec Crosfleet.

Section CrosfleetFacts.
Context (escapeArray : list string → string).

(** X24. [checkLogin] reflects the exit status of [crosfleet whoami].
    The command is run without a cancellation token.  If its process
    closes while the promise of [exec] is pending, [checkLogin] returns
    whether the exit status is zero; if the process emits [error]
    instead, [checkLogin] throws the [ProcessError]; and whatever
    happens, [checkLogin] never throws a [CancelledError]. *)
Theorem checkLogin_reflects_exit_status (executablePath : string)
    child_pid exitCode (ins : list input) :
  let whoami := exec escapeArray executablePath ["whoami"] (exec_options None)
                  child_pid exitCode in
  (result (whoami ins) = Pending →
   (∀ st, ∃ v, result (whoami (ins ++ [Close st])) = Fulfilled v
              ∧ checkLogin v = Returned (bool_decide (st = Some 0%Z)))
   ∧ (∀ msg, ∃ v, result (whoami (ins ++ [Error msg])) = Fulfilled v
                ∧ checkLogin v
                  = Threw (mkProcessError escapeArray executablePath
                             ["whoami"] msg)))
  ∧ (∀ v m, result (whoami ins) = Fulfilled v →
       checkLogin v ≠ Threw (CancelledError m)).
Proof.
  cbn zeta. split.
  - intros Hp. split.
    + intros st. rewrite ExecFacts.exec_snoc.
      rewrite ExecFacts.close_pending by done. eexists. split; [done|].
      cbn [exec_options ignoreNonZeroExit is_set default negb andb].
      destruct (bool_decide (st = Some 0%Z)); done.
    + intros msg. rewrite ExecFacts.exec_snoc. cbn [Exec.step].
      rewrite ExecFacts.resolve_pending.
      * eexists. split; [done|]. done.
      * by rewrite (proj1 (proj2 (proj2 (ExecFacts.flush_fields _ _)))).
  - intros v m Hv Hc.
    destruct (ExecCancelFacts.exec_without_request escapeArray
                executablePath ["whoami"] (exec_options None)
                child_pid exitCode ins) as (_ & _ & Hn); [by left|].
    destruct v as [res|[| |]]; try done.
    simpl in Hc. injection Hc as ->. by apply (Hn m).
Qed.

(** *** parseLeases *)

Context (parseDate : string → Date) (now : Z).

Abbreviation parse_lease := (Crosfleet.parseLease parseDate now).
Abbreviation parse_leases := (Crosfleet.parseLeases parseDate now).

Lemma parseLease_Some (l : Lease) (info : LeaseInfo) :
  parse_lease l = Some info →
  Hostname l = Some (hostname info) ∧ hostname info ≠ EmptyString
  ∧ ∀ d, deadline info = Some (Some d) → (now ≤ d)%Z.
Proof.
  unfold parseLease. destruct (Hostname l) as [[|c host]|]; [done| |done].
  set (timing := match build l with Some b => _ | None => _ end).
  destruct timing as [[d|]|] eqn:Ht; cbn [isBefore].
  - destruct (bool_decide (d < now)%Z) eqn:Hd; [done|].
    intros [= <-]. simpl. split_and!; [done..|].
    intros d' [= <-]. apply bool_decide_eq_false in Hd. lia.
  - intros [= <-]. done.
  - intros [= <-]. done.
Qed.

(** X25. [parseLeases] returns live leases only, in the order of the
    output of [crosfleet]: the host names returned are, in order, host
    names of the leases listed; none of them is empty; and no lease
    returned has a deadline that lies before the time of the call.  A
    lease with a host name for which the start time or the length is
    missing is returned, without a deadline. *)
Theorem parseLeases_live_leases (Leases : option (list Lease)) :
  (hostname <$> parse_leases Leases)
    `sublist_of` omap Hostname (default [] Leases)
  ∧ Forall (λ info, hostname info ≠ EmptyString
                    ∧ ∀ d, deadline info = Some (Some d) → (now ≤ d)%Z)
           (parse_leases Leases)
  ∧ ∀ l host, l ∈ default [] Leases → Hostname l = Some host →
      host ≠ EmptyString →
      (build l ≫= startTime = None ∨ build l ≫= lease_length_minutes = None) →
      ∃ info, info ∈ parse_leases Leases ∧ hostname info = host
              ∧ deadline info = None.
Proof.
  destruct Leases as [leases|]; cbn [parseLeases default from_option id].
  2:{ split_and!; [done..|]. intros l host Hl. by apply elem_of_nil in Hl. }
  split_and!.
  - induction leases as [|l leases IH]; [done|]. cbn [omap list_omap].
    destruct (parse_lease l) as [info|] eqn:Hp.
    + apply parseLease_Some in Hp as (-> & _). rewrite fmap_cons.
      by apply sublist_skip.
    + destruct (Hostname l); [by apply sublist_cons|done].
  - apply Forall_forall. intros info (l & _ & Hp)%list_elem_of_omap.
    apply parseLease_Some in Hp as (_ & ? & ?). done.
  - intros l host Hl Hh Hne Hmiss.
    assert (∃ info, parse_lease l = Some info ∧ hostname info = host
                    ∧ deadline info = None) as (info & Hp & ? & ?).
    { unfold parseLease. rewrite Hh. destruct host as [|c host]; [done|].
      assert (match build l with
              | Some b =>
                  match startTime b, lease_length_minutes b with
                  | Some start, Some minutes =>
                      Some (add_minutes (parseDate start) minutes)
                  | _, _ => None
                  end
              | None => None
              end = None) as ->.
      { destruct (build l) as [b|]; [|done]. simpl in Hmiss.
        destruct Hmiss as [-> | ->]; [done|]. by destruct (startTime b). }
      eexists. done. }
    exists info. split; [|done]. apply list_elem_of_omap. by exists l.
Qed.

End CrosfleetFacts.
End CrosfleetFacts.

(** ** StatusManager *)

Module StatusFacts.
Import Status.

Section StatusFacts.
Context {Command OutputChannel : Type}.

Abbreviation task_data := (@TaskData Command OutputChannel).
Abbreviation task_table := (list (string * task_data)).
Abbreviation manager := (@StatusManagerImpl Command OutputChannel).
Abbreviation status_call := (@call Command OutputChannel).

Implicit Types (m : manager) (table : task_table) (data : task_data).
Implicit Types (name : string) (ts : TaskStatus).

Lemma map_get_None name table : map_get name table = None ↔ name ∉ table.*1.
Proof.
  induction table as [|[n d] table IH]; cbn [map_get].
  - split; [|done]. intros _ H. by apply elem_of_nil in H.
  - rewrite fmap_cons. cbn [fst]. destruct (decide (n = name)) as [->|Hne].
    + split; [done|]. intros H. destruct H. by left.
    + rewrite IH, not_elem_of_cons. split; [by intros ?|by intros [_ ?]].
Qed.

Lemma map_get_Some name data table :
  NoDup table.*1 → map_get name table = Some data ↔ (name, data) ∈ table.
Proof.
  induction table as [|[n d] table IH]; cbn [map_get]; intros Hnd.
  - split; [done|]. intros H. by apply elem_of_nil in H.
  - rewrite fmap_cons in Hnd. cbn [fst] in Hnd.
    apply NoDup_cons in Hnd as [Hn Hnd]. rewrite elem_of_cons.
    destruct (decide (n = name)) as [->|Hne].
    + split; [by intros [= ->]; left|].
      intros [[= ->]|Hin]; [done|]. destruct Hn.
      apply list_elem_of_fmap. by exists (name, data).
    + rewrite (IH Hnd). split; [by right|].
      intros [[= -> _]|?]; done.
Qed.

Lemma map_set_keys name data table :
  (map_set name data table).*1
  = if bool_decide (name ∈ table.*1) then table.*1 else table.*1 ++ [name].
Proof.
  induction table as [|[n d] table IH]; [done|].
  cbn [map_set]. rewrite (fmap_cons fst (n, d) table). cbn [fst].
  destruct (decide (n = name)) as [->|Hne].
  - rewrite fmap_cons. cbn [fst]. rewrite bool_decide_true; [done|]. by left.
  - rewrite fmap_cons, IH. cbn [fst].
    destruct (bool_decide (name ∈ table.*1)) eqn:Hin.
    + apply bool_decide_eq_true in Hin. rewrite bool_decide_true; [done|].
      by right.
    + apply bool_decide_eq_false in Hin. rewrite bool_decide_false; [done|].
      rewrite not_elem_of_cons. done.
Qed.

Lemma map_set_NoDup name data table :
  NoDup table.*1 → NoDup (map_set name data table).*1.
Proof.
  intros Hnd. rewrite map_set_keys.
  destruct (bool_decide (name ∈ table.*1)) eqn:Hin; [done|].
  apply bool_decide_eq_false in Hin. apply NoDup_app. split_and!; [done| |].
  - intros x Hx ->%list_elem_of_singleton. done.
  - apply NoDup_singleton.
Qed.

Lemma map_delete_NoDup name table :
  NoDup table.*1 → NoDup (map_delete name table).*1.
Proof.
  intros Hnd. unfold map_delete.
  induction table as [|[n d] table IH]; [done|].
  simpl in Hnd. apply NoDup_cons in Hnd as [Hn Hnd].
  rewrite filter_cons. destruct (decide ((n, d).1 ≠ name)); [|by apply IH].
  rewrite fmap_cons. apply NoDup_cons. split; [|by apply IH].
  intros ((n' & d') & Heq & Hin%list_elem_of_filter)%list_elem_of_fmap.
  simpl in Heq. subst n'. destruct Hin as [_ Hin]. apply Hn.
  apply list_elem_of_fmap. by exists (n, d').
Qed.

Lemma map_get_set name data table other :
  map_get other (map_set name data table)
  = if decide (other = name) then Some data else map_get other table.
Proof.
  induction table as [|[n d] table IH]; simpl.
  - destruct (decide (name = other)) as [->|?].
    + by rewrite decide_True.
    + by rewrite decide_False.
  - destruct (decide (n = name)) as [->|Hne]; simpl.
    + destruct (decide (name = other)) as [->|?].
      * by rewrite decide_True.
      * by rewrite decide_False.
    + destruct (decide (n = other)) as [->|?].
      * by rewrite decide_False.
      * apply IH.
Qed.

(** The names that [get] returns are those of the tasks that
    [getTaskData] reports with that status. *)
Lemma elem_of_get ts name table :
  NoDup table.*1 →
  name ∈ get ts table
  ↔ ∃ data, getTaskData name table = Some data ∧ status data = ts.
Proof.
  intros Hnd. unfold get, getTaskData. rewrite list_elem_of_fmap. split.
  - intros ([n d] & -> & [Hs Hin]%list_elem_of_filter). simpl in *.
    exists d. split; [|done]. by apply map_get_Some.
  - intros (data & Hg & Hs). exists (name, data). split; [done|].
    apply list_elem_of_filter. split; [done|]. by apply map_get_Some.
Qed.

Lemma refresh_fields table (b : StatusBar) :
  errorBackground (refresh table b) = bool_decide (length (getErrorTasks table) ≠ 0)
  ∧ tooltip (refresh table b)
    = (if bool_decide (length (getErrorTasks table) ≠ 0)
       then "Errors: " +:+ sorted_list (getErrorTasks table)
       else "No Problems")
  ∧ progressShown (refresh table b)
    = bool_decide (length (getRunningTasks table) ≠ 0).
Proof.
  unfold refresh.
  destruct (bool_decide (length (getErrorTasks table) ≠ 0));
    destruct (bool_decide (length (getRunningTasks table) ≠ 0)); done.
Qed.

(** What holds of a manager made by [activate]: the two handlers are
    registered, no task is listed twice, and the user interface is
    what the handlers made of the tasks at the last change. *)
Lemma run_synced (created : StatusBar) (calls : list status_call) :
  let m := run created calls in
  handlers m = [statusBarHandler; statusTreeData]
  ∧ NoDup (tasks m).*1
  ∧ treeEvents (ui m) = S (length calls)
  ∧ ∃ before, bar (ui m) = refresh (tasks m) before.
Proof.
  cbn zeta. induction calls as [|c calls IH] using rev_ind.
  - split_and!; [done|apply NoDup_nil_2|done|]. by exists created.
  - unfold run in *. rewrite foldl_snoc, length_app. simpl.
    set (m := foldl step (activate created) calls) in *.
    destruct IH as (Hh & Hnd & Hev & before & Hbar).
    assert (∀ table,
      let m' := handleChange {| tasks := table; handlers := handlers m;
                                ui := ui m |} in
      handlers m' = [statusBarHandler; statusTreeData]
      ∧ tasks m' = table
      ∧ treeEvents (ui m') = S (treeEvents (ui m))
      ∧ bar (ui m') = refresh table (bar (ui m))) as Hchange.
    { intros table. unfold handleChange. cbn [handlers tasks ui]. by rewrite Hh. }
    destruct c as [name data|name|name ts]; cbn [step].
    + destruct (Hchange (map_set name data (tasks m))) as (H1 & H2 & H3 & H4).
      unfold setTask. rewrite H1, H2, H3, H4, Hev.
      split_and!; [done|by apply map_set_NoDup|lia|by eexists].
    + destruct (Hchange (map_delete name (tasks m))) as (H1 & H2 & H3 & H4).
      unfold deleteTask. rewrite H1, H2, H3, H4, Hev.
      split_and!; [done|by apply map_delete_NoDup|lia|by eexists].
    + unfold setStatus, setTask.
      set (data := {| status := ts; command := _; outputChannel := _;
                      contextValue := _ |}).
      destruct (Hchange (map_set name data (tasks m))) as (H1 & H2 & H3 & H4).
      rewrite H1, H2, H3, H4, Hev.
      split_and!; [done|by apply map_set_NoDup|lia|by eexists].
Qed.

Lemma length_nonzero {A} (l : list A) : length l ≠ 0 ↔ ∃ x, x ∈ l.
Proof.
  destruct l as [|x l]; simpl.
  - split; [done|]. intros [x H]. by apply elem_of_nil in H.
  - split; [|done]. intros _. exists x. by left.
Qed.

(** X26. The status bar is always in step with the tasks.  After
    [activate] and any calls of [setTask], [deleteTask] and
    [setStatus]: the main item has the error background exactly if
    some task has the status [ERROR], and then its tooltip lists the
    sorted names of those tasks, else it says [No Problems]; the
    progress item is shown exactly if some task has the status
    [RUNNING]; the tree view was told of a change once at registration
    and once for every call; and no task is listed twice. *)
Theorem status_bar_in_step (created : StatusBar) (calls : list status_call) :
  let m := run created calls in
  (errorBackground (bar (ui m)) = true
   ↔ ∃ name data, getTaskData name (tasks m) = Some data ∧ status data = ERROR)
  ∧ tooltip (bar (ui m))
    = (if errorBackground (bar (ui m))
       then "Errors: " +:+ sorted_list (getErrorTasks (tasks m))
       else "No Problems")
  ∧ (progressShown (bar (ui m)) = true
     ↔ ∃ name data, getTaskData name (tasks m) = Some data
                    ∧ status data = RUNNING)
  ∧ treeEvents (ui m) = S (length calls)
  ∧ NoDup (getTasks (tasks m)).
Proof.
  cbn zeta. destruct (run_synced created calls) as (_ & Hnd & Hev & before & ->).
  destruct (refresh_fields (tasks (run created calls)) before) as (-> & -> & ->).
  split_and!; [| | |done..].
  - rewrite bool_decide_eq_true, length_nonzero. unfold getErrorTasks.
    split.
    + intros [name Hin]. exists name. by apply elem_of_get.
    + intros (name & Hin). exists name. by apply elem_of_get.
  - done.
  - rewrite bool_decide_eq_true, length_nonzero. unfold getRunningTasks.
    split.
    + intros [name Hin]. exists name. by apply elem_of_get.
    + intros (name & Hin). exists name. by apply elem_of_get.
Qed.

(** X27. [setStatus] changes the status of one task and nothing else
    of the table: the task has the new status and keeps its command,
    output channel and context value (a task that did not exist is
    made, with none of them); every other task is as it was; and the
    order of the tasks is kept, a task newly made coming last. *)
Theorem setStatus_changes_status_only m name ts :
  let m' := setStatus name ts m in
  getTaskData name (tasks m')
  = Some {| status := ts;
            command := getTaskData name (tasks m) ≫= command;
            outputChannel := getTaskData name (tasks m) ≫= outputChannel;
            contextValue := getTaskData name (tasks m) ≫= contextValue |}
  ∧ (∀ other, other ≠ name →
       getTaskData other (tasks m') = getTaskData other (tasks m))
  ∧ getTasks (tasks m')
    = match getTaskData name (tasks m) with
      | Some _ => getTasks (tasks m)
      | None => getTasks (tasks m) ++ [name]
      end.
Proof.
  cbn zeta. unfold setStatus, setTask, handleChange, getTaskData, getTasks.
  cbn [tasks]. split_and!.
  - rewrite map_get_set. by rewrite decide_True.
  - intros other Hne. rewrite map_get_set. by rewrite decide_False.
  - rewrite map_set_keys.
    destruct (map_get name (tasks m)) as [data|] eqn:Hg.
    + rewrite bool_decide_true; [done|].
      apply dec_stable. intros Hn. apply map_get_None in Hn. congruence.
    + apply map_get_None in Hg. by rewrite bool_decide_false.
Qed.

End StatusFacts.
End StatusFacts.

(** ** The unit tests of the repository, replayed on the embedding *)

Module Tests.

(** [Job manager throttles jobs]: [p1] blocks; [p2] and [p3] are
    offered meanwhile; [p2] is resolved with [null] and never runs;
    [p3] does not run while [p1] is running, and runs once [p1] is
    done. *)
Example job_manager_throttles_jobs :
  let offers := [JobManager.Offer "p1"; JobManager.Offer "p2";
                 JobManager.Offer "p3"] in
  let blocked := @JobManager.run string bool string offers in
  let unblocked :=
    @JobManager.run string bool string
      (offers ++ [JobManager.JobSettles (Returned true); JobManager.Resume]) in
  JobManager.promises blocked !! 1 = Some (Returned None)
  ∧ JobManager.started (JobManager.trace blocked)
    = [{| JobManager.job := "p1"; JobManager.promise := 0 |}]
  ∧ JobManager.tasks blocked
    = [{| JobManager.job := "p3"; JobManager.promise := 2 |}]
  ∧ JobManager.promises unblocked !! 0 = Some (Returned (Some true))
  ∧ JobManager.started (JobManager.trace unblocked)
    = [{| JobManager.job := "p1"; JobManager.promise := 0 |};
       {| JobManager.job := "p3"; JobManager.promise := 2 |}].
Proof. vm_compute. done. Qed.

(** [Job manager handles errors]: [p1] and [p3] throw; both promises
    are rejected, each with its own error, and [p2] is resolved with
    [null]. *)
Example job_manager_handles_errors :
  let s :=
    @JobManager.run string bool string
      [JobManager.Offer "p1"; JobManager.Offer "p2"; JobManager.Offer "p3";
       JobManager.JobSettles (Threw "p1"); JobManager.Resume;
       JobManager.JobSettles (Threw "p3"); JobManager.Resume] in
  JobManager.promises s !! 0 = Some (Threw "p1")
  ∧ JobManager.promises s !! 1 = Some (Returned None)
  ∧ JobManager.promises s !! 2 = Some (Threw "p3")
  ∧ JobManager.running s = false.
Proof. vm_compute. done. Qed.

(** [Mutex runs jobs sequentially]: with two jobs submitted, only the
    first has run when either could have; after both are unblocked the
    promises are resolved with ['1'] and [2]. *)
Example mutex_runs_jobs_sequentially :
  let submitted := [Mutex.RunExclusive "first"; Mutex.RunExclusive "second"] in
  let s1 := @Mutex.run string string string submitted in
  let s2 := @Mutex.run string string string
              (submitted ++ [Mutex.JobSettles (Returned "1");
                             Mutex.JobSettles (Returned "2");
                             Mutex.Immediate; Mutex.Immediate]) in
  Mutex.started (Mutex.trace s1)
  = [{| Mutex.job := "first"; Mutex.promise := 0 |}]
  ∧ Mutex.promises s2 !! 0 = Some (Returned "1")
  ∧ Mutex.promises s2 !! 1 = Some (Returned "2")
  ∧ Mutex.trace s2
    = [Mutex.Started {| Mutex.job := "first"; Mutex.promise := 0 |};
       Mutex.Finished {| Mutex.job := "first"; Mutex.promise := 0 |} (Returned "1");
       Mutex.Started {| Mutex.job := "second"; Mutex.promise := 1 |};
       Mutex.Finished {| Mutex.job := "second"; Mutex.promise := 1 |} (Returned "2")].
Proof. vm_compute. done. Qed.

(** [Mutex rejects if the job rejects]. *)
Example mutex_rejects_if_the_job_rejects :
  Mutex.promises
    (@Mutex.run string string string
       [Mutex.RunExclusive "job"; Mutex.JobSettles (Threw "foo"); Mutex.Immediate])
  !! 0 = Some (Threw "foo").
Proof. vm_compute. done. Qed.

(** [CacheOnSuccess reuses promises]: two calls made before the job
    settles invoke the job once and both resolve to its value. *)
Example cache_reuses_promises :
  let s := @CacheOnSuccess.run string string (λ _, true)
             [CacheOnSuccess.GetOrThrow; CacheOnSuccess.GetOrThrow;
              CacheOnSuccess.JobSettles 0 (Returned "ok");
              CacheOnSuccess.Resume 0] in
  CacheOnSuccess.invoked s = 1
  ∧ CacheOnSuccess.result s <$> CacheOnSuccess.calls s
    = [Some (Returned "ok"); Some (Returned "ok")].
Proof. vm_compute. done. Qed.

(** [Logging exec returns error on non-zero exit status]. *)
Example exec_returns_error_on_non_zero_exit :
  Exec.result
    (Exec.exec Exec.join_words "sh" ["-c"; "echo foo 1>&2; exit 1"]
       Exec.logging_options (Some 4242) None
       [Exec.StderrData ("foo" +:+ Exec.nl); Exec.Close (Some 1%Z)])
  = Exec.Fulfilled
      (inr (Exec.AbnormalExitError
              (Exec.quote +:+ "sh -c echo foo 1>&2; exit 1" +:+ Exec.quote
               +:+ " failed, exit status: 1")
              (Some 1%Z) EmptyString ("foo" +:+ Exec.nl))).
Proof. vm_compute. done. Qed.

End Tests.
